(** * The GraphQL route of node-graphql: resolvers, request pipeline, storage

    The repository is one Fastify plugin, [routes/graphql/index.ts], kept in
    three revisions:

    - [Part000]  (src/unnamed/part_000): Query root only; [Query.user]
      reshapes the subscription data itself ([transformedEntry]);
    - [Index]    (src/src/routes/graphql/index.ts): the same Query root plus
      the create/delete mutations;
    - [Part001]  (src/unnamed/part_001): [User.userSubscribedTo] and
      [User.subscribedToUser] have resolvers of their own, [Query.user] is a
      plain [findUnique], all mutations, and a [preHandler] that runs
      [depthLimit(5)].

    The plugin is glue between three libraries: Prisma (storage), graphql-js
    (validation and execution) and graphql-depth-limit.  Their behaviour is
    written out below as far as the plugin exercises it; what the repository
    declares outside these three files (the Prisma schema, [UUIDType]) is
    either modelled under a marked comment or taken as a parameter. *)

From Stdlib Require Import List String Ascii Bool Arith Lia QArith_base DecimalString.
Import ListNotations.
Close Scope Q_scope.
Open Scope string_scope.
Open Scope list_scope.

Set Implicit Arguments.
Set Warnings "-register-all".

(** ** JavaScript values *)

(** Values that travel between Prisma, the resolvers and the response.
    Objects keep their keys in insertion order, as JavaScript does. *)
Inductive JV : Type :=
| JUndefined
| JNull
| JBool (b : bool)
| JNum (q : Q)
| JStr (s : string)
| JArr (items : list JV)
| JObj (props : list (string * JV)).

Definition Props := list (string * JV).

Fixpoint assoc (k : string) (ps : Props) : option JV :=
  match ps with
  | [] => None
  | (k', v) :: rest => if String.eqb k k' then Some v else assoc k rest
  end.

(** [v.k] where [v] is known to be an object or a primitive: a missing
    property reads as [undefined]. *)
Definition prop (k : string) (v : JV) : JV :=
  match v with
  | JObj ps => match assoc k ps with Some x => x | None => JUndefined end
  | _ => JUndefined
  end.

(** What [v ? a : b] takes for true. *)
Definition truthy (v : JV) : bool :=
  match v with
  | JUndefined | JNull => false
  | JBool b => b
  | JNum q => negb (Qeq_bool q (Qmake 0 1))
  | JStr s => negb (String.eqb s EmptyString)
  | JArr _ | JObj _ => true
  end.

(** [v == null] *)
Definition nullish (v : JV) : bool :=
  match v with JUndefined | JNull => true | _ => false end.

(** [{ ...o, k: x }]: an existing key keeps its place, a new one goes last. *)
Fixpoint set_prop (k : string) (x : JV) (ps : Props) : Props :=
  match ps with
  | [] => [(k, x)]
  | (k', v) :: rest =>
      if String.eqb k k' then (k', x) :: rest else (k', v) :: set_prop k x rest
  end.

(** [{ ...v }] *)
Definition spread (v : JV) : Props :=
  match v with JObj ps => ps | _ => [] end.

(** Strict equality on the primitives the store holds. *)
Definition strict_eqb (a b : JV) : bool :=
  match a, b with
  | JStr x, JStr y => String.eqb x y
  | JNum x, JNum y => Qeq_bool x y
  | JBool x, JBool y => Bool.eqb x y
  | JNull, JNull => true
  | JUndefined, JUndefined => true
  | _, _ => false
  end.

(** ** Completions: a call returns or throws *)

Inductive Completion (A : Type) : Type :=
| Returned (a : A)
| Threw (message : string).
Arguments Returned {A} a.
Arguments Threw {A} message.

Definition cbind {A B} (c : Completion A) (k : A -> Completion B) : Completion B :=
  match c with
  | Returned a => k a
  | Threw m => Threw m
  end.

Notation "'let!' x ':=' c 'in' k" := (cbind c (fun x => k))
  (at level 10, x name, c at level 100, k at level 200).

(** [v.k] with the TypeError JavaScript raises on [undefined] and [null]. *)
Definition member (k : string) (v : JV) : Completion JV :=
  if nullish v
  then Threw ("Cannot read properties of undefined (reading '" ++ k ++ "')")
  else Returned (prop k v).

Fixpoint cmap {A B} (f : A -> Completion B) (l : list A) : Completion (list B) :=
  match l with
  | [] => Returned []
  | a :: rest =>
      cbind (f a) (fun b => cbind (cmap f rest) (fun bs => Returned (b :: bs)))
  end.

(** [v.map(f)] *)
Definition js_map (f : JV -> Completion JV) (v : JV) : Completion JV :=
  match v with
  | JArr items => cbind (cmap f items) (fun l => Returned (JArr l))
  | JUndefined | JNull =>
      Threw "Cannot read properties of undefined (reading 'map')"
  | _ => Threw "map is not a function"
  end.

(** ** The store *)

Module Prisma.

Inductive Model := memberType | post | profile | user | subscribersOnAuthors.

Definition Row := Props.

(** One table per model; a row holds the scalar columns of its model. *)
Record Db := mkDb {
  memberTypes : list Row;
  posts : list Row;
  profiles : list Row;
  users : list Row;
  subscriptions : list Row
}.

Definition table (d : Db) (m : Model) : list Row :=
  match m with
  | memberType => memberTypes d
  | post => posts d
  | profile => profiles d
  | user => users d
  | subscribersOnAuthors => subscriptions d
  end.

Record Relation := mkRel {
  rel_target : Model;
  rel_many : bool;
  rel_here : string;    (* column of the row the relation starts from *)
  rel_there : string    (* column of the target rows that must equal it *)
}.

(** Modelled from the spec: the relation fields of the entity types (the
    Prisma schema, prisma/schema.prisma, is not among the sources).  Each
    relation is resolved through a foreign key on this entity or on the target
    entity; the subscription graph goes through the join-relation entity
    [subscribersOnAuthors], whose rows are (subscriberId, authorId) edges.
    The relation and column names are the ones the resolvers use:
    a user's [userSubscribedTo] are the edges on which that user is the
    subscriber, [subscribedToUser] the edges on which it is the author. *)
Definition relation (m : Model) (name : string) : option Relation :=
  match m with
  | memberType =>
      if name =? "profiles" then Some (mkRel profile true "id" "memberTypeId")
      else None
  | post =>
      if name =? "author" then Some (mkRel user false "authorId" "id")
      else None
  | profile =>
      if name =? "user" then Some (mkRel user false "userId" "id")
      else if name =? "memberType" then Some (mkRel memberType false "memberTypeId" "id")
      else None
  | user =>
      if name =? "profile" then Some (mkRel profile false "id" "userId")
      else if name =? "posts" then Some (mkRel post true "id" "authorId")
      else if name =? "userSubscribedTo"
      then Some (mkRel subscribersOnAuthors true "id" "subscriberId")
      else if name =? "subscribedToUser"
      then Some (mkRel subscribersOnAuthors true "id" "authorId")
      else None
  | subscribersOnAuthors =>
      if name =? "subscriber" then Some (mkRel user false "subscriberId" "id")
      else if name =? "author" then Some (mkRel user false "authorId" "id")
      else None
  end.

Definition related (d : Db) (r : Relation) (row : Row) : list Row :=
  filter (fun t => strict_eqb (prop (rel_there r) (JObj t)) (prop (rel_here r) (JObj row)))
         (table d (rel_target r)).

(** An [include] argument: [{ name: true }] is [Inc [(name, Inc [])]],
    [{ name: { include: i } }] is [Inc [(name, i)]]. *)
Inductive Include := Inc (rels : list (string * Include)).

Definition plain : Include := Inc [].

(** The object Prisma returns for a row: its scalar columns, then each
    included relation (a list for a to-many relation, the row or [null] for a
    to-one relation). *)
Fixpoint load (d : Db) (m : Model) (i : Include) (row : Row) {struct i} : JV :=
  match i with
  | Inc rels =>
      JObj (row ++
        (fix each (l : list (string * Include)) : Props :=
           match l with
           | [] => []
           | (name, sub) :: rest =>
               match relation m name with
               | Some r =>
                   let targets := map (load d (rel_target r) sub) (related d r row) in
                   (name, if rel_many r then JArr targets
                          else match targets with t :: _ => t | [] => JNull end)
                   :: each rest
               | None => each rest
               end
           end) rels)
  end.

(** The [where] arguments the resolvers build. *)
Inductive Where :=
| Everything                                        (* no [where] *)
| Some_ (rel : string) (col : string) (v : JV).     (* { rel: { some: { col: v } } } *)

(** A condition whose value is [undefined] is no condition. *)
Definition satisfies (d : Db) (m : Model) (w : Where) (row : Row) : bool :=
  match w with
  | Everything => true
  | Some_ rel col v =>
      match relation m rel with
      | Some r =>
          existsb (fun t => match v with
                            | JUndefined => true
                            | _ => strict_eqb (prop col (JObj t)) v
                            end)
                  (related d r row)
      | None => false
      end
  end.

Inductive ReadOp :=
| findMany (m : Model) (w : Where) (i : Include)
| findUnique (m : Model) (id : JV) (i : Include).

Inductive WriteOp :=
| create (m : Model) (data : JV)
| update (m : Model) (where_ : JV) (data : JV)
| delete (m : Model) (where_ : JV).

(** What a read returns on a store that answers.  [findUnique] insists on a
    value for the unique column. *)
Definition answer (d : Db) (op : ReadOp) : Completion JV :=
  match op with
  | findMany m w i =>
      Returned (JArr (map (load d m i) (filter (satisfies d m w) (table d m))))
  | findUnique m id i =>
      if nullish id
      then Threw "Argument `where` needs at least one of `id` arguments."
      else Returned
             match find (fun row => strict_eqb (prop "id" (JObj row)) id) (table d m) with
             | Some row => load d m i row
             | None => JNull
             end
  end.

End Prisma.

(** ** The Prisma client as the resolvers see it *)

Inductive Call :=
| Read (op : Prisma.ReadOp)
| Write (op : Prisma.WriteOp).

(** The state a request runs in: the store, and the calls the request has
    made to the client so far, oldest first. *)
Record World := mkWorld {
  store : Prisma.Db;
  calls : list Call
}.

Inductive ScalarT := UUID | MemberTypeId | GString | GInt | GFloat | GBoolean | EmptyResponse.

Inductive ArgType :=
| ArgScalar (s : ScalarT)
| ArgInput (name : string).

(** What the plugin takes from outside its three revisions:
    - [fails]: the reads on which the storage engine reports an error;
    - [write]: the storage engine's create, update and delete;
    - [serialize]: output coercion of the scalar types (graphql-js's own and
      [UUIDType] of ./types/uuid.js);
    - [accepts]: whether an argument value passes input coercion for the
      declared argument type. *)
Record Env := mkEnv {
  fails : Prisma.ReadOp -> bool;
  write : Prisma.WriteOp -> Prisma.Db -> Completion JV * Prisma.Db;
  serialize : ScalarT -> JV -> Completion JV;
  accepts : ArgType -> JV -> bool
}.

(** An asynchronous computation, run to completion. *)
Definition Job (A : Type) := World -> Completion A * World.

Definition resolved {A} (a : A) : Job A := fun w => (Returned a, w).

Definition rejected {A} (m : string) : Job A := fun w => (Threw m, w).

(** [await] *)
Definition await {A B} (j : Job A) (k : A -> Job B) : Job B :=
  fun w =>
    match j w with
    | (Returned a, w') => k a w'
    | (Threw m, w') => (Threw m, w')
    end.

Notation "'let*' x ':=' j 'in' k" := (await j (fun x => k))
  (at level 10, x name, j at level 100, k at level 200).

Definition lift {A} (c : Completion A) : Job A := fun w => (c, w).

Definition storage_failure : string := "Can't reach database server".

Definition prisma_read (E : Env) (op : Prisma.ReadOp) : Job JV :=
  fun w =>
    (if fails E op then Threw storage_failure else Prisma.answer (store w) op,
     mkWorld (store w) (calls w ++ [Read op])).

Definition prisma_write (E : Env) (op : Prisma.WriteOp) : Job JV :=
  fun w =>
    let r := write E op (store w) in
    (fst r, mkWorld (snd r) (calls w ++ [Write op])).

(** ** graphql-js: schema, query shape, response *)

Inductive TypeName :=
| Query | Mutation | MemberType | Post | User | Profile | SubscribersOnAuthors.

Inductive OutType :=
| Leaf (s : ScalarT)
| Object (t : TypeName)
| ListOf (t : TypeName).          (* new GraphQLList(t) *)

(** [resolve: async (source, args, { prisma }) => ...] *)
Definition Resolver := JV -> Props -> Job JV.

Record FieldDef := mkField {
  ftype : OutType;
  fargs : list (string * ArgType);
  resolve : option Resolver
}.

Definition Fields := list (string * FieldDef).

Record Schema := mkSchema {
  fields : TypeName -> Fields;
  mutationType : bool              (* whether the schema declares [mutation:] *)
}.

Fixpoint field_def (k : string) (fs : Fields) : option FieldDef :=
  match fs with
  | [] => None
  | (k', d) :: rest => if String.eqb k k' then Some d else field_def k rest
  end.

(** A query shape: a tree of fields.  The list under a node is the collected
    field set graphql-js executes (it merges sibling selections that answer
    to one name before executing them); fragments, aliases, variables and
    introspection are not part of the shapes. *)
Inductive Selection :=
| Field (name : string) (args : Props) (selectionSet : list Selection).

Definition sel_name (f : Selection) : string :=
  match f with Field name _ _ => name end.

Definition sel_set (f : Selection) : list Selection :=
  match f with Field _ _ sub => sub end.

Inductive OperationType := query_ | mutation_.

Record Document := mkDocument {
  operation : OperationType;
  selections : list Selection
}.

(** The [query] string of a request body, as [parse] sees it. *)
Inductive Source :=
| Malformed (syntaxError : string)
| Parsed (doc : Document).

Inductive Seg := Key (name : string) | Index (i : nat).

(** A response path, innermost segment first (graphql-js links a path to
    its parent). *)
Definition Path := list Seg.

Record GraphQLError := mkError {
  message : string;
  path : option Path      (* [None]: the error rejects the request as a whole *)
}.

Record ExecutionResult := mkResult {
  data : option JV;
  errors : list GraphQLError
}.

Definition type_name (t : TypeName) : string :=
  match t with
  | Query => "Query" | Mutation => "Mutation" | MemberType => "MemberType"
  | Post => "Post" | User => "User" | Profile => "Profile"
  | SubscribersOnAuthors => "SubscribersOnAuthors"
  end.

Definition scalar_name (s : ScalarT) : string :=
  match s with
  | UUID => "UUID" | MemberTypeId => "MemberTypeId" | GString => "String"
  | GInt => "Int" | GFloat => "Float" | GBoolean => "Boolean"
  | EmptyResponse => "EmptyResponse"
  end.

Definition out_name (t : OutType) : string :=
  match t with
  | Leaf s => scalar_name s
  | Object t => type_name t
  | ListOf t => "[" ++ type_name t ++ "]"
  end.

(** ** graphql-js: validation

    The rules of [validate] that bear on the shape of a query: a field must
    exist on the type it is selected on, a leaf takes no selection set and a
    composite needs one, and an argument must be declared and pass input
    coercion. *)

Section Validation.

Variable E : Env.
Variable S : Schema.

Definition invalid (m : string) : GraphQLError := mkError m None.

Definition quoted (s : string) : string :=
  String (ascii_of_nat 34) (s ++ String (ascii_of_nat 34) EmptyString).

Definition validate_args (parent : TypeName) (name : string)
    (declared : list (string * ArgType)) (args : Props) : list GraphQLError :=
  flat_map
    (fun a : string * JV =>
       match find (fun d : string * ArgType => String.eqb (fst a) (fst d)) declared with
       | None =>
           [invalid ("Unknown argument " ++ quoted (fst a) ++ " on field "
                     ++ quoted (type_name parent ++ "." ++ name) ++ ".")]
       | Some d =>
           if accepts E (snd d) (snd a) then []
           else [invalid ("Argument " ++ quoted (fst a) ++ " has invalid value.")]
       end)
    args.

Fixpoint validate_field (parent : TypeName) (f : Selection) {struct f}
    : list GraphQLError :=
  match f with
  | Field name args sub =>
      match field_def name (fields S parent) with
      | None =>
          [invalid ("Cannot query field " ++ quoted name ++ " on type "
                    ++ quoted (type_name parent) ++ ".")]
      | Some d =>
          validate_args parent name (fargs d) args ++
          match ftype d, sub with
          | Leaf _, [] => []
          | Leaf s, _ :: _ =>
              [invalid ("Field " ++ quoted name ++ " must not have a selection since type "
                        ++ quoted (scalar_name s) ++ " has no subfields.")]
          | (Object t | ListOf t), [] =>
              [invalid ("Field " ++ quoted name ++ " of type " ++ quoted (out_name (ftype d))
                        ++ " must have a selection of subfields.")]
          | (Object t | ListOf t), _ :: _ => flat_map (validate_field t) sub
          end
      end
  end.

Definition validate_fields (parent : TypeName) (l : list Selection)
    : list GraphQLError :=
  flat_map (validate_field parent) l.

Definition root_type (o : OperationType) : TypeName :=
  match o with query_ => Query | mutation_ => Mutation end.

(** A schema without a mutation type gives the fields of a mutation nothing
    to be checked against. *)
Definition validate (doc : Document) : list GraphQLError :=
  match operation doc with
  | mutation_ =>
      if mutationType S then validate_fields Mutation (selections doc) else []
  | query_ => validate_fields Query (selections doc)
  end.

End Validation.

(** ** graphql-js: execution

    Fields run one after the other, in the order of the query (the response
    is assembled in that order whatever the interleaving of the resolvers'
    awaits; the store and its answers do not depend on it). *)

(** What a step of the execution leaves behind: its value, the field errors
    it collected, and the world after it. *)
Record Done (A : Type) := mkDone {
  value : A;
  errs : list GraphQLError;
  world : World
}.

Section Execution.

Variable E : Env.
Variable S : Schema.

Definition located (p : Path) (m : string) : GraphQLError := mkError m (Some p).

(** A field without [resolve] reads the property of its name off the source. *)
Definition defaultFieldResolver (name : string) : Resolver :=
  fun source _ => resolved (prop name source).

(** [EmptyResponse.serialize] of the plugin returns [null] for every value,
    which graphql-js refuses from a leaf; the other scalars are the
    environment's. *)
Definition serialize_leaf (s : ScalarT) (v : JV) : Completion JV :=
  match s with
  | EmptyResponse =>
      Threw "Expected `EmptyResponse.serialize` to return non-nullable value, returned: null"
  | _ => serialize E s v
  end.

(** The selection set of a field, run on a source of type [t] at a path. *)
Definition SubFields := TypeName -> JV -> Path -> World -> Done Props.

Definition completeObjectValue (sub : SubFields) (t : TypeName) (p : Path)
    (result : JV) (w : World) : Done JV :=
  let r := sub t result p w in
  mkDone (JObj (value r)) (errs r) (world r).

(** The items of a list, each at its index; a nullish item completes to
    [null]. *)
Fixpoint completeListItems (sub : SubFields) (t : TypeName) (p : Path)
    (items : list JV) (i : nat) (w : World) : Done (list JV) :=
  match items with
  | [] => mkDone [] [] w
  | item :: rest =>
      let a := if nullish item then mkDone JNull [] w
               else completeObjectValue sub t (Index i :: p) item w in
      let b := completeListItems sub t p rest (Datatypes.S i) (world a) in
      mkDone (value a :: value b) (errs a ++ errs b) (world b)
  end.

(** [completeValue] with the error handling of [executeField] around it:
    every type of the schema is nullable, so an error nulls the field it
    arose in and is recorded at that field's path. *)
Definition completeValue (sub : SubFields) (t : OutType) (name : string)
    (p : Path) (result : JV) (w : World) : Done JV :=
  if nullish result then mkDone JNull [] w
  else
    match t with
    | Leaf s =>
        match serialize_leaf s result with
        | Returned v => mkDone v [] w
        | Threw m => mkDone JNull [located p m] w
        end
    | Object t' => completeObjectValue sub t' p result w
    | ListOf t' =>
        match result with
        | JArr items =>
            let r := completeListItems sub t' p items 0 w in
            mkDone (JArr (value r)) (errs r) (world r)
        | _ =>
            mkDone JNull
              [located p ("Expected Iterable, but did not find one for field "
                          ++ quoted name ++ ".")] w
        end
    end.

(** One field of a selection set: look the field up on the parent type, call
    its resolver, complete what it returned.  A field the type does not
    declare contributes no key. *)
Definition resolveField (sub : SubFields) (parent : TypeName) (source : JV)
    (p : Path) (name : string) (args : Props) (w : World)
    : Done (option (string * JV)) :=
  match field_def name (fields S parent) with
  | None => mkDone None [] w
  | Some d =>
      let here := Key name :: p in
      let resolveFn := match resolve d with
                       | Some fn => fn
                       | None => defaultFieldResolver name
                       end in
      match resolveFn source args w with
      | (Returned result, w1) =>
          let r := completeValue sub (ftype d) (type_name parent ++ "." ++ name)
                                 here result w1 in
          mkDone (Some (name, value r)) (errs r) (world r)
      | (Threw m, w1) => mkDone (Some (name, JNull)) [located here m] w1
      end
  end.

Definition keep {A} (o : option A) (l : list A) : list A :=
  match o with Some a => a :: l | None => l end.

Fixpoint executeField (parent : TypeName) (source : JV) (p : Path)
    (f : Selection) (w : World) {struct f} : Done (option (string * JV)) :=
  match f with
  | Field name args sub =>
      resolveField
        (fun t src q =>
           (fix each (l : list Selection) (w : World) : Done Props :=
              match l with
              | [] => mkDone [] [] w
              | g :: rest =>
                  let a := executeField t src q g w in
                  let b := each rest (world a) in
                  mkDone (keep (value a) (value b)) (errs a ++ errs b) (world b)
              end) sub)
        parent source p name args w
  end.

(** [executeFields]: the fields of a selection set, in order, on one source.
    A field is run to its end, its selection set included, before the next;
    graphql-js calls the resolvers of all the fields of a selection set
    before it completes what they return, so the calls of a request reach
    the client in another order there: the same calls, each from the same
    field. *)
Definition executeFields (parent : TypeName) (source : JV) (p : Path)
    : list Selection -> World -> Done Props :=
  fix each (l : list Selection) (w : World) : Done Props :=
    match l with
    | [] => mkDone [] [] w
    | g :: rest =>
        let a := executeField parent source p g w in
        let b := each rest (world a) in
        mkDone (keep (value a) (value b)) (errs a ++ errs b) (world b)
    end.

(** [execute]: the root fields run on an undefined root value. *)
Definition execute (doc : Document) (w : World) : ExecutionResult * World :=
  match operation doc, mutationType S with
  | mutation_, false =>
      (mkResult (Some JNull)
         [mkError "Schema is not configured to execute mutation operation." None], w)
  | o, _ =>
      let r := executeFields (root_type o) JUndefined [] (selections doc) w in
      (mkResult (Some (JObj (value r))) (errs r), world r)
  end.

(** [graphql({ schema, source, contextValue: { prisma } })]: parse, validate,
    execute.  Syntax and validation errors come back in the result, without
    [data]; the promise does not reject. *)
Definition graphql (source : Source) (w : World) : ExecutionResult * World :=
  match source with
  | Malformed m => (mkResult None [mkError m None], w)
  | Parsed doc =>
      match validate E S doc with
      | [] => execute doc w
      | es => (mkResult None es, w)
      end
  end.

End Execution.

(** ** graphql-js: the error collector of [validate]

    [validate(schema, documentAST, rules)] hands its rules a context whose
    [reportError] collects the errors.  Once [maxErrors] of them are
    collected, the next report throws the object that aborts the validation;
    [validate] catches that object around its visit of the document only. *)

Definition maxErrors : nat := 100.

(** [abortObj], that is [Object.freeze({})]: it carries no message. *)
Definition abortObj : string := "{}".

(** [context.reportError(error)] on the errors collected so far. *)
Definition reportError (error : GraphQLError) (errors : list GraphQLError)
    : Completion (list GraphQLError) :=
  if Nat.leb maxErrors (List.length errors) then Threw abortObj
  else Returned (errors ++ [error]).

(** ** graphql-depth-limit *)

Module DepthLimit.

(** Introspection fields, [/^__/], are not descended into. *)
Definition ignored (name : string) : bool := String.prefix "__" name.

Definition exceeds (operationName : string) (maxDepth : nat) : GraphQLError :=
  mkError ("'" ++ operationName ++ "' exceeds maximum operation depth of "
           ++ NilZero.string_of_uint (Nat.to_uint maxDepth)) None.

(** [determineDepth], for what it reports on the way down: an error at every
    node it reaches deeper than [maxDepth], from where it does not go further
    down; the selections of a node are walked in order, and a report that
    throws ends the walk.  (The depth it returns goes to a callback the
    plugin does not give.) *)
Fixpoint determineDepth (maxDepth depthSoFar : nat) (operationName : string)
    (node : Selection) (errors : list GraphQLError) {struct node}
    : Completion (list GraphQLError) :=
  match node with
  | Field name _ sub =>
      if Nat.ltb maxDepth depthSoFar
      then reportError (exceeds operationName maxDepth) errors
      else if ignored name || match sub with [] => true | _ => false end
      then Returned errors
      else
        (fix each (l : list Selection) (errors : list GraphQLError)
           : Completion (list GraphQLError) :=
           match l with
           | [] => Returned errors
           | g :: rest =>
               cbind (determineDepth maxDepth (Datatypes.S depthSoFar) operationName
                                     g errors)
                     (each rest)
           end) sub errors
  end.

(** [selections.map(selection => determineDepth(selection, ...))] *)
Definition determineDepths (maxDepth depthSoFar : nat) (operationName : string)
    : list Selection -> list GraphQLError -> Completion (list GraphQLError) :=
  fix each (l : list Selection) (errors : list GraphQLError)
    : Completion (list GraphQLError) :=
    match l with
    | [] => Returned errors
    | g :: rest =>
        cbind (determineDepth maxDepth depthSoFar operationName g errors) (each rest)
    end.

(** [validate(schema, document, [depthLimit(maxDepth)])]: the rule walks the
    one operation of the document, which has no name, from depth 0.  It does
    so when [validate] builds its visitor from the rules, before the [try]
    that would catch the abort object: an abort leaves [validate]. *)
Definition depthLimit (maxDepth : nat) (doc : Document)
    : Completion (list GraphQLError) :=
  determineDepths maxDepth 0 EmptyString (selections doc) [].

End DepthLimit.

(** ** The route *)

(** How a request leaves the route: a reply body, or an exception that
    reaches Fastify. *)
Inductive Outcome :=
| Sent (body : ExecutionResult)
| Raised (message : string).

(** [async handler(req)], the same in the three revisions: the result of
    [graphql] is the reply; the [catch] is for a rejected promise, which
    [graphql] does not produce. *)
Definition handler (E : Env) (S : Schema) (source : Source) (w : World)
    : Outcome * World :=
  let r := graphql E S source w in (Sent (fst r), snd r).

(** ** The types the revisions share *)

Definition MemberType_fields : Fields :=
  [ ("id", mkField (Leaf MemberTypeId) [] None);
    ("discount", mkField (Leaf GFloat) [] None);
    ("postsLimitPerMonth", mkField (Leaf GInt) [] None);
    ("profiles", mkField (ListOf Profile) [] None) ].

Definition Post_fields : Fields :=
  [ ("id", mkField (Leaf UUID) [] None);
    ("title", mkField (Leaf GString) [] None);
    ("content", mkField (Leaf GString) [] None);
    ("author", mkField (Object User) [] None) ].

Definition Profile_fields : Fields :=
  [ ("id", mkField (Leaf UUID) [] None);
    ("isMale", mkField (Leaf GBoolean) [] None);
    ("yearOfBirth", mkField (Leaf GInt) [] None);
    ("user", mkField (Object User) [] None);
    ("memberType", mkField (Object MemberType) [] None) ].

Definition id_arg (s : ScalarT) : list (string * ArgType) := [("id", ArgScalar s)].

Definition Query_fields (memberTypes posts users profiles memberType post user profile : Resolver)
    : Fields :=
  [ ("memberTypes", mkField (ListOf MemberType) [] (Some memberTypes));
    ("posts", mkField (ListOf Post) [] (Some posts));
    ("users", mkField (ListOf User) [] (Some users));
    ("profiles", mkField (ListOf Profile) [] (Some profiles));
    ("memberType", mkField (Object MemberType) (id_arg MemberTypeId) (Some memberType));
    ("post", mkField (Object Post) (id_arg UUID) (Some post));
    ("user", mkField (Object User) (id_arg UUID) (Some user));
    ("profile", mkField (Object Profile) (id_arg UUID) (Some profile)) ].

Import Prisma.

(** [include: { profile: { include: { memberType: true } }, posts: true }] *)
Definition profile_and_posts : list (string * Include) :=
  [ ("profile", Inc [("memberType", plain)]); ("posts", plain) ].

(** The four list queries and the three plain lookups, the same in the three
    revisions. *)
Section CommonQueries.

Variable E : Env.

Definition Query_memberTypes : Resolver :=
  fun _ _ => prisma_read E (findMany memberType Everything plain).

Definition Query_posts : Resolver :=
  fun _ _ => prisma_read E (findMany post Everything plain).

Definition Query_users : Resolver :=
  fun _ _ => prisma_read E (findMany user Everything (Inc profile_and_posts)).

Definition Query_profiles : Resolver :=
  fun _ _ => prisma_read E (findMany profile Everything plain).

Definition Query_memberType : Resolver :=
  fun _ args => prisma_read E (findUnique memberType (prop "id" (JObj args)) plain).

Definition Query_post : Resolver :=
  fun _ args => prisma_read E (findUnique post (prop "id" (JObj args)) plain).

Definition Query_profile : Resolver :=
  fun _ args => prisma_read E (findUnique profile (prop "id" (JObj args)) plain).

End CommonQueries.

(** ** part_000: the Query root, with [Query.user] reshaping subscriptions *)

Module Part000.

Definition User_fields : Fields :=
  [ ("id", mkField (Leaf UUID) [] None);
    ("name", mkField (Leaf GString) [] None);
    ("balance", mkField (Leaf GFloat) [] None);
    ("profile", mkField (Object Profile) [] None);
    ("posts", mkField (ListOf Post) [] None);
    ("userSubscribedTo", mkField (ListOf SubscribersOnAuthors) [] None);
    ("subscribedToUser", mkField (ListOf SubscribersOnAuthors) [] None) ].

Definition SubscribersOnAuthors_fields : Fields :=
  [ ("id", mkField (Leaf UUID) [] None);
    ("subscriber", mkField (Object User) [] None);
    ("author", mkField (Object User) [] None);
    ("userSubscribedTo", mkField (ListOf SubscribersOnAuthors) [] None);
    ("subscribedToUser", mkField (ListOf SubscribersOnAuthors) [] None) ].

(** The [include] of [Query.user]: the subscription edges of the user, each
    with its far end, and the far end's edges back with their far ends. *)
Definition user_include : Include :=
  Inc (profile_and_posts ++
       [ ("userSubscribedTo",
          Inc [("author", Inc [("subscribedToUser", Inc [("subscriber", plain)])])]);
         ("subscribedToUser",
          Inc [("subscriber", Inc [("userSubscribedTo", Inc [("author", plain)])])]) ]).

(** [edges.map((item) => ({ id: item.far.id,
                            back: item.far.back.map((it) => ({ id: it.end.id })) }))] *)
Definition reshape (far back end_ : string) (edges : JV) : Completion JV :=
  js_map
    (fun item =>
       let! f := member far item in
       let! id := member "id" f in
       let! f' := member far item in
       let! bs := member back f' in
       let! l := js_map (fun it =>
                           let! e := member end_ it in
                           let! eid := member "id" e in
                           Returned (JObj [("id", eid)])) bs in
       Returned (JObj [("id", id); (back, l)]))
    edges.

(** [entry?.k.map(...)]: [undefined] on a nullish entry. *)
Definition on_entry (entry : JV) (k : string) (f : JV -> Completion JV)
    : Completion JV :=
  if nullish entry then Returned JUndefined
  else let! edges := member k entry in f edges.

Definition transformedEntry (entry : JV) : Completion JV :=
  let! a := on_entry entry "userSubscribedTo"
              (reshape "author" "subscribedToUser" "subscriber") in
  let! b := on_entry entry "subscribedToUser"
              (reshape "subscriber" "userSubscribedTo" "author") in
  Returned (JObj (set_prop "subscribedToUser" b
                    (set_prop "userSubscribedTo" a (spread entry)))).

Section Plugin.

Variable E : Env.

Definition Query_user : Resolver :=
  fun _ args =>
    let* entry := prisma_read E (findUnique user (prop "id" (JObj args)) user_include) in
    let* transformed := lift (transformedEntry entry) in
    resolved (if truthy entry then transformed else entry).

Definition Query_root : Fields :=
  Query_fields (Query_memberTypes E) (Query_posts E) (Query_users E)
               (Query_profiles E) (Query_memberType E) (Query_post E)
               Query_user (Query_profile E).

Definition executableSchema : Schema :=
  mkSchema
    (fun t =>
       match t with
       | Query => Query_root
       | Mutation => []
       | MemberType => MemberType_fields
       | Post => Post_fields
       | User => User_fields
       | Profile => Profile_fields
       | SubscribersOnAuthors => SubscribersOnAuthors_fields
       end)
    false.

Definition route : Source -> World -> Outcome * World :=
  handler E executableSchema.

End Plugin.

End Part000.

(** ** routes/graphql/index.ts: part_000 plus the create and delete mutations *)

Module Index.

Definition input (name : string) : list (string * ArgType) :=
  [("dto", ArgInput name)].

Section Plugin.

Variable E : Env.

(** [data: dto] *)
Definition created (m : Model) : Resolver :=
  fun _ args => prisma_write E (create m (prop "dto" (JObj args))).

(** [await prisma.m.delete({ where: { id } }); return null;] *)
Definition deleted (m : Model) : Resolver :=
  fun _ args =>
    let* _ := prisma_write E (delete m (JObj [("id", prop "id" (JObj args))])) in
    resolved JNull.

Definition Mutation_root : Fields :=
  [ ("createPost", mkField (Object Post) (input "CreatePostInput") (Some (created post)));
    ("createUser", mkField (Object User) (input "CreateUserInput") (Some (created user)));
    ("createProfile",
     mkField (Object Profile) (input "CreateProfileInput") (Some (created profile)));
    ("deletePost", mkField (Leaf EmptyResponse) (id_arg UUID) (Some (deleted post)));
    ("deleteUser", mkField (Leaf EmptyResponse) (id_arg UUID) (Some (deleted user)));
    ("deleteProfile", mkField (Leaf EmptyResponse) (id_arg UUID) (Some (deleted profile))) ].

(** The types and the Query root read as in part_000, line for line. *)
Definition executableSchema : Schema :=
  mkSchema
    (fun t =>
       match t with
       | Query => Part000.Query_root E
       | Mutation => Mutation_root
       | MemberType => MemberType_fields
       | Post => Post_fields
       | User => Part000.User_fields
       | Profile => Profile_fields
       | SubscribersOnAuthors => Part000.SubscribersOnAuthors_fields
       end)
    true.

Definition route : Source -> World -> Outcome * World :=
  handler E executableSchema.

End Plugin.

End Index.

(** ** part_001: relation resolvers on [User], all mutations, the depth limit *)

Module Part001.

Section Plugin.

Variable E : Env.

(** [prisma.user.findMany({ where: { subscribedToUser: { some: { subscriberId: source.id } } } })] *)
Definition User_userSubscribedTo : Resolver :=
  fun source _ =>
    let* id := lift (member "id" source) in
    prisma_read E (findMany user (Some_ "subscribedToUser" "subscriberId" id) plain).

(** [prisma.user.findMany({ where: { userSubscribedTo: { some: { authorId: source.id } } } })] *)
Definition User_subscribedToUser : Resolver :=
  fun source _ =>
    let* id := lift (member "id" source) in
    prisma_read E (findMany user (Some_ "userSubscribedTo" "authorId" id) plain).

Definition User_fields : Fields :=
  [ ("id", mkField (Leaf UUID) [] None);
    ("name", mkField (Leaf GString) [] None);
    ("balance", mkField (Leaf GFloat) [] None);
    ("profile", mkField (Object Profile) [] None);
    ("posts", mkField (ListOf Post) [] None);
    ("userSubscribedTo", mkField (ListOf User) [] (Some User_userSubscribedTo));
    ("subscribedToUser", mkField (ListOf User) [] (Some User_subscribedToUser)) ].

Definition user_include : Include :=
  Inc (profile_and_posts ++
       [ ("userSubscribedTo", plain); ("subscribedToUser", plain) ]).

Definition Query_user : Resolver :=
  fun _ args => prisma_read E (findUnique user (prop "id" (JObj args)) user_include).

Definition Query_root : Fields :=
  Query_fields (Query_memberTypes E) (Query_posts E) (Query_users E)
               (Query_profiles E) (Query_memberType E) (Query_post E)
               Query_user (Query_profile E).

(** [data: { ...dto }] *)
Definition created (m : Model) : Resolver :=
  fun _ args => prisma_write E (create m (JObj (spread (prop "dto" (JObj args))))).

Definition deleted (m : Model) : Resolver :=
  fun _ args =>
    let* _ := prisma_write E (delete m (JObj [("id", prop "id" (JObj args))])) in
    resolved JNull.

Definition changed (m : Model) : Resolver :=
  fun _ args =>
    prisma_write E (update m (JObj [("id", prop "id" (JObj args))])
                           (JObj (spread (prop "dto" (JObj args))))).

Definition connect (id : JV) : JV := JObj [("connect", JObj [("id", id)])].

Definition Mutation_subscribeTo : Resolver :=
  fun _ args =>
    prisma_write E
      (create subscribersOnAuthors
         (JObj [ ("subscriber", connect (prop "userId" (JObj args)));
                 ("author", connect (prop "authorId" (JObj args))) ])).

Definition Mutation_unsubscribeFrom : Resolver :=
  fun _ args =>
    let* _ := prisma_write E
                (delete subscribersOnAuthors
                   (JObj [ ("subscriberId_authorId",
                            JObj [ ("subscriberId", prop "userId" (JObj args));
                                   ("authorId", prop "authorId" (JObj args)) ]) ])) in
    resolved JNull.

Definition change (name : string) : list (string * ArgType) :=
  [("id", ArgScalar UUID); ("dto", ArgInput name)].

Definition pair_args : list (string * ArgType) :=
  [("userId", ArgScalar UUID); ("authorId", ArgScalar UUID)].

Definition Mutation_root : Fields :=
  [ ("createPost",
     mkField (Object Post) (Index.input "CreatePostInput") (Some (created post)));
    ("createUser",
     mkField (Object User) (Index.input "CreateUserInput") (Some (created user)));
    ("createProfile",
     mkField (Object Profile) (Index.input "CreateProfileInput") (Some (created profile)));
    ("deletePost", mkField (Leaf EmptyResponse) (id_arg UUID) (Some (deleted post)));
    ("deleteUser", mkField (Leaf EmptyResponse) (id_arg UUID) (Some (deleted user)));
    ("deleteProfile", mkField (Leaf EmptyResponse) (id_arg UUID) (Some (deleted profile)));
    ("changePost", mkField (Object Post) (change "ChangePostInput") (Some (changed post)));
    ("changeProfile",
     mkField (Object Profile) (change "ChangeProfileInput") (Some (changed profile)));
    ("changeUser", mkField (Object User) (change "ChangeUserInput") (Some (changed user)));
    ("subscribeTo", mkField (Object User) pair_args (Some Mutation_subscribeTo));
    ("unsubscribeFrom",
     mkField (Leaf EmptyResponse) pair_args (Some Mutation_unsubscribeFrom)) ].

Definition executableSchema : Schema :=
  mkSchema
    (fun t =>
       match t with
       | Query => Query_root
       | Mutation => Mutation_root
       | MemberType => MemberType_fields
       | Post => Post_fields
       | User => User_fields
       | Profile => Profile_fields
       | SubscribersOnAuthors => []
       end)
    true.

End Plugin.

(** [preHandler]: [parse(query)] and [validate] are called outside any
    [try], so what they throw leaves the hook; the errors of the depth rule,
    if any, are sent with their messages alone.  [None]: the hook sent
    nothing and the handler is next. *)
Definition preHandler (source : Source) : Completion (option ExecutionResult) :=
  match source with
  | Malformed m => Threw m
  | Parsed doc =>
      let! errors := DepthLimit.depthLimit 5 doc in
      if Nat.ltb 0 (List.length errors)
      then Returned (Some (mkResult None
                             (map (fun error => mkError (message error) None) errors)))
      else Returned None
  end.

(** A hook that throws hands the request to Fastify's error handling; a hook
    that has sent the reply ends the request. *)
Definition route (E : Env) (source : Source) (w : World) : Outcome * World :=
  match preHandler source with
  | Threw m => (Raised m, w)
  | Returned (Some body) => (Sent body, w)
  | Returned None => handler E (executableSchema E) source w
  end.

End Part001.

(** * What the specification speaks of *)

(** ** Depth of a query shape *)

(** The number of relation-field nestings from a field down to its deepest
    leaf: a field without a selection set nests nothing. *)
Fixpoint nesting (f : Selection) : nat :=
  match f with
  | Field _ _ [] => 0
  | Field _ _ sub => Datatypes.S (list_max (map nesting sub))
  end.

(** Depth of a query: the root's relation children count as depth 1. *)
Definition depth (sels : list Selection) : nat := list_max (map nesting sels).

(** The number of selections [k] levels below a field (the field itself is
    at level 0). *)
Fixpoint at_level (k : nat) (f : Selection) {struct f} : nat :=
  match k, f with
  | 0, _ => 1
  | Datatypes.S j, Field _ _ sub => list_sum (map (at_level j) sub)
  end.

Definition selections_at (k : nat) (sels : list Selection) : nat :=
  list_sum (map (at_level k) sels).

(** A shape over the entity schema: no introspection field anywhere. *)
Fixpoint plain_shape (f : Selection) : bool :=
  match f with
  | Field name _ sub => negb (DepthLimit.ignored name) && forallb plain_shape sub
  end.

(** A response that rejects the request: no document, and errors that carry
    no field path. *)
Definition rejects (body : ExecutionResult) : Prop :=
  data body = None /\ errors body <> [] /\
  Forall (fun e => path e = None) (errors body).

(** ** A document that mirrors a query shape *)

(** A value answers a field when it is [null], or, where the field has a
    selection set, an object with exactly the selected names, in order, each
    answering its field, or a list of such objects and [null]s.  A field
    without a selection set is a leaf and is answered by any value. *)
Fixpoint field_mirrors (f : Selection) (v : JV) {struct f} : bool :=
  match f with
  | Field _ _ [] => true
  | Field _ _ sub =>
      let object := fun x =>
        match x with
        | JObj ps =>
            (fix each (l : list Selection) (ps : Props) : bool :=
               match l, ps with
               | [], [] => true
               | g :: l', (k, y) :: ps' =>
                   String.eqb k (sel_name g) && field_mirrors g y && each l' ps'
               | _, _ => false
               end) sub ps
        | _ => false
        end in
      match v with
      | JNull => true
      | JArr items =>
          forallb (fun x => match x with JNull => true | _ => object x end) items
      | _ => object v
      end
  end.

Definition object_mirrors : list Selection -> Props -> bool :=
  fix each (l : list Selection) (ps : Props) : bool :=
    match l, ps with
    | [], [] => true
    | g :: l', (k, y) :: ps' =>
        String.eqb k (sel_name g) && field_mirrors g y && each l' ps'
    | _, _ => false
    end.

(** Sibling selections answer to distinct names, at every level: the shape
    is a collected field set. *)
Fixpoint distinct_names (names : list string) : bool :=
  match names with
  | [] => true
  | n :: rest => negb (existsb (String.eqb n) rest) && distinct_names rest
  end.

Fixpoint distinct_siblings (f : Selection) : bool :=
  match f with
  | Field _ _ sub =>
      distinct_names (map sel_name sub) && forallb distinct_siblings sub
  end.

Definition collected (sels : list Selection) : bool :=
  distinct_names (map sel_name sels) && forallb distinct_siblings sels.

(** The request was answered with a document that mirrors the shape, and
    every error in the list belongs to a field. *)
Definition answered_in_shape (o : Outcome) (sels : list Selection) : Prop :=
  exists ps es,
    o = Sent (mkResult (Some (JObj ps)) es) /\
    object_mirrors sels ps = true /\
    Forall (fun e => path e <> None) es.

(** ** Fetches of one kind *)

(** A call is a fetch of users through a relation: the entity type and the
    lookup kind of the call, whatever the value looked up. *)
Definition users_through (rel col : string) (c : Call) : bool :=
  match c with
  | Read (Prisma.findMany Prisma.user (Prisma.Some_ r k _) _) =>
      String.eqb r rel && String.eqb k col
  | _ => false
  end.

Definition fetches (kind : Call -> bool) (cs : list Call) : nat :=
  List.length (filter kind cs).

(** [{ users { userSubscribedTo { id } } }] *)
Definition users_with_subscriptions : Document :=
  mkDocument query_
    [Field "users" [] [Field "userSubscribedTo" [] [Field "id" [] []]]].

(** The fetch [User.userSubscribedTo] of part_001 issues for a source. *)
Definition subscriptions_of (source : JV) : Call :=
  Read (Prisma.findMany Prisma.user
          (Prisma.Some_ "subscribedToUser" "subscriberId" (prop "id" source))
          Prisma.plain).

(** The fetch of [Query.users]. *)
Definition all_users : Prisma.ReadOp :=
  Prisma.findMany Prisma.user Prisma.Everything (Prisma.Inc profile_and_posts).

(** ** Looking into a document *)

(** The value at a path, outermost segment first; [undefined] where the
    document has nothing. *)
Fixpoint walk (v : JV) (segs : list Seg) : JV :=
  match segs with
  | [] => v
  | Key k :: rest => walk (prop k v) rest
  | Index i :: rest =>
      match v with
      | JArr items => walk (nth i items JUndefined) rest
      | _ => JUndefined
      end
  end.

(** The two subscription fields of [User]. *)
Definition relation_fields : list string := ["userSubscribedTo"; "subscribedToUser"].

(** [{ users { f { sub } } }] *)
Definition of_all_users (f : string) (sub : list Selection) : Document :=
  mkDocument query_ [Field "users" [] [Field f [] sub]].

(** The fetch of [Query.user] in part_001. *)
Definition one_user (u : string) : Prisma.ReadOp :=
  Prisma.findUnique Prisma.user (JStr u) Part001.user_include.

(** ** Failures and what they touch *)

Definition seg_eqb (a b : Seg) : bool :=
  match a, b with
  | Key x, Key y => String.eqb x y
  | Index i, Index j => Nat.eqb i j
  | _, _ => false
  end.

Fixpoint path_eqb (p q : Path) : bool :=
  match p, q with
  | [], [] => true
  | a :: p', b :: q' => seg_eqb a b && path_eqb p' q'
  | _, _ => false
  end.

(** The error list has an entry at this path. *)
Definition hit (es : list GraphQLError) (q : Path) : bool :=
  existsb (fun e => match path e with
                    | Some q' => path_eqb q' q
                    | None => false
                    end) es.

(** A value with [null] put at every position that [bad] marks; [p] is the
    path of the value itself. *)
Fixpoint nullify (bad : Path -> bool) (p : Path) (v : JV) {struct v} : JV :=
  if bad p then JNull
  else
    match v with
    | JObj ps =>
        JObj ((fix props (l : Props) : Props :=
                 match l with
                 | [] => []
                 | (k, x) :: rest => (k, nullify bad (Key k :: p) x) :: props rest
                 end) ps)
    | JArr items =>
        JArr ((fix each (l : list JV) (i : nat) : list JV :=
                 match l with
                 | [] => []
                 | x :: rest => nullify bad (Index i :: p) x :: each rest (Datatypes.S i)
                 end) items 0)
    | _ => v
    end.

Definition nullify_props (bad : Path -> bool) (p : Path) : Props -> Props :=
  fix props (l : Props) : Props :=
    match l with
    | [] => []
    | (k, x) :: rest => (k, nullify bad (Key k :: p) x) :: props rest
    end.

Definition nullify_items (bad : Path -> bool) (p : Path) : list JV -> nat -> list JV :=
  fix each (l : list JV) (i : nat) : list JV :=
    match l with
    | [] => []
    | x :: rest => nullify bad (Index i :: p) x :: each rest (Datatypes.S i)
    end.

(** The same environment with a storage engine that fails the reads [bad]
    marks. *)
Definition with_failures (E : Env) (bad : Prisma.ReadOp -> bool) : Env :=
  mkEnv bad (write E) (serialize E) (accepts E).

(** A run with failing fetches against the run without: both are rejected
    alike, or the faulty document is the sound one with [null] at exactly
    the paths of the faulty error list, that list has one entry per path,
    an entry is an error of the sound run or a storage failure, and the
    faulty document is [null] at the path of every entry. *)
Definition isolated (sound faulty : Outcome) : Prop :=
  match sound, faulty with
  | Sent b, Sent f =>
      match data b, data f with
      | Some doc, Some doc' =>
          doc' = nullify (hit (errors f)) [] doc /\
          NoDup (map path (errors f)) /\
          Forall (fun e => In e (errors b) \/ message e = storage_failure) (errors f) /\
          Forall (fun e => exists q, path e = Some q /\ walk doc' (rev q) = JNull)
                 (errors f)
      | None, None => errors f = errors b
      | _, _ => False
      end
  | _, _ => False
  end.

(** ** Presence in the store *)

(** No row of the model's table has this id. *)
Definition absent (d : Prisma.Db) (m : Prisma.Model) (u : string) : Prop :=
  Forall (fun row => prop "id" (JObj row) <> JStr u) (Prisma.table d m).

(** No subscription edge has this user at the given end. *)
Definition no_edge (d : Prisma.Db) (col : string) (u : string) : Prop :=
  Forall (fun edge => prop col (JObj edge) <> JStr u) (Prisma.subscriptions d).

(** No post has this user row for its author. *)
Definition no_posts (d : Prisma.Db) (row : Prisma.Row) : Prop :=
  Forall (fun t => strict_eqb (prop "authorId" (JObj t)) (prop "id" (JObj row)) = false)
         (Prisma.posts d).

(** The storage engine answers every read. *)
Definition answers_all (E : Env) : Prop := forall op, fails E op = false.

(** The root fields that look one entity up by its id. *)
Definition single_lookups : list (string * Prisma.Model) :=
  [ ("memberType", Prisma.memberType); ("post", Prisma.post);
    ("user", Prisma.user); ("profile", Prisma.profile) ].

(** [{ name(id: u) { sub } }] *)
Definition by_id (name u : string) (sub : list Selection) : Document :=
  mkDocument query_ [Field name [("id", JStr u)] sub].

(** ** A subscription chain *)

Definition user_row (id : string) (columns : Prisma.Row) : Prisma.Row :=
  ("id", JStr id) :: columns.

Definition edge (subscriber author : string) : Prisma.Row :=
  [("subscriberId", JStr subscriber); ("authorId", JStr author)].

(** Users [a], [b], [c], with whatever other columns; [a] is subscribed to
    [b] and [b] to [c]; the other tables hold anything. *)
Definition two_hops (a b c : string) (ra rb rc : Prisma.Row)
    (mts ps pfs : list Prisma.Row) : Prisma.Db :=
  Prisma.mkDb mts ps pfs
    [user_row a ra; user_row b rb; user_row c rc]
    [edge a b; edge b c].

(** [{ user(id: u) { userSubscribedTo { id userSubscribedTo { id } } } }] *)
Definition two_levels (u : string) : Document :=
  by_id "user" u
    [Field "userSubscribedTo" []
       [Field "id" [] []; Field "userSubscribedTo" [] [Field "id" [] []]]].

(** [UUIDType] serializes this id as it is. *)
Definition serializes_id (E : Env) (u : string) : Prop :=
  serialize E UUID (JStr u) = Returned (JStr u).

(** ** Sample data *)

Module Sample.

(** A storage engine that answers every read and refuses every write;
    scalars that serialize as they are and accept every argument. *)
Definition calm : Env :=
  mkEnv (fun _ => false)
        (fun _ d => (Threw "read-only replica", d))
        (fun _ v => Returned v)
        (fun _ _ => true).

Definition a_user (id name : string) : Prisma.Row :=
  [("id", JStr id); ("name", JStr name); ("balance", JNum (Qmake 10 1))].

(** Users A, B, C; A is subscribed to B, B to C. *)
Definition abc : Prisma.Db :=
  Prisma.mkDb [] [] []
    [a_user "A" "Ann"; a_user "B" "Bob"; a_user "C" "Cid"]
    [edge "A" "B"; edge "B" "C"].

Definition fresh (d : Prisma.Db) : World := mkWorld d [].

Definition leaf (name : string) : Selection := Field name [] [].

Definition node (name : string) (sub : list Selection) : Selection :=
  Field name [] sub.

Definition query (sels : list Selection) : Source :=
  Parsed (mkDocument query_ sels).

(** [n] levels of [userSubscribedTo { ... }] around a selection set. *)
Fixpoint chain (n : nat) (inner : list Selection) : list Selection :=
  match n with
  | 0 => inner
  | Datatypes.S k => [node "userSubscribedTo" (chain k inner)]
  end.

(** [{ users { userSubscribedTo { userSubscribedTo { userSubscribedTo {
        userSubscribedTo { userSubscribedTo { id name } } } } } } }] *)
Definition six_deep : list Selection :=
  [node "users" (chain 5 [leaf "id"; leaf "name"])].

(** The same with [{ id }] innermost. *)
Definition six_deep_id : list Selection :=
  [node "users" (chain 5 [leaf "id"])].

(** A storage engine that fails one fetch: the users B is subscribed to. *)
Definition fails_for_B (op : Prisma.ReadOp) : bool :=
  match op with
  | Prisma.findMany Prisma.user (Prisma.Some_ rel col (JStr u)) _ =>
      String.eqb rel "subscribedToUser" && String.eqb col "subscriberId"
      && String.eqb u "B"
  | _ => false
  end.

(** [{ users { id userSubscribedTo { id } } }] *)
Definition users_and_authors : list Selection :=
  [node "users" [leaf "id"; node "userSubscribedTo" [leaf "id"]]].

(** A storage engine that creates users by appending the row it is given
    (and refuses the other writes). *)
Definition appending : Env :=
  mkEnv (fun _ => false)
        (fun op d =>
           match op with
           | Prisma.create Prisma.user data =>
               (Returned data,
                Prisma.mkDb (Prisma.memberTypes d) (Prisma.posts d) (Prisma.profiles d)
                            (Prisma.users d ++ [spread data]) (Prisma.subscriptions d))
           | _ => (Threw "not supported", d)
           end)
        (fun _ v => Returned v)
        (fun _ _ => true).

(** [mutation { createUser(dto: { id: "D", name: "Dan" }) { id } }] *)
Definition create_Dan : Source :=
  Parsed (mkDocument mutation_
            [Field "createUser"
               [("dto", JObj [("id", JStr "D"); ("name", JStr "Dan")])]
               [leaf "id"]]).

End Sample.

(** ** Mutations *)

(** The three mutations that delete a row by its id. *)
Definition deletions : list (string * Prisma.Model) :=
  [ ("deletePost", Prisma.post); ("deleteUser", Prisma.user);
    ("deleteProfile", Prisma.profile) ].

(** [mutation { name(id: u) }] *)
Definition delete_by_id (name u : string) : Document :=
  mkDocument mutation_ [Field name [("id", JStr u)] []].

(** [prisma.m.delete({ where: { id: u } })] *)
Definition delete_op (m : Prisma.Model) (u : string) : Prisma.WriteOp :=
  Prisma.delete m (JObj [("id", JStr u)]).

(** The error list of a root field whose one storage call completed so. *)
Definition root_errors {A} (name : string) (c : Completion A) : list GraphQLError :=
  match c with
  | Returned _ => []
  | Threw m => [mkError m (Some [Key name])]
  end.

(** [mutation { unsubscribeFrom(userId: s, authorId: a) }] *)
Definition unsubscribe (s a : string) : Document :=
  mkDocument mutation_
    [Field "unsubscribeFrom" [("userId", JStr s); ("authorId", JStr a)] []].

(** [prisma.subscribersOnAuthors.delete({ where: { subscriberId_authorId:
      { subscriberId: s, authorId: a } } })] *)
Definition unsubscribe_op (s a : string) : Prisma.WriteOp :=
  Prisma.delete Prisma.subscribersOnAuthors
    (JObj [("subscriberId_authorId",
            JObj [("subscriberId", JStr s); ("authorId", JStr a)])]).

(** [mutation { subscribeTo(userId: s, authorId: a) { id } }] *)
Definition subscribe (s a : string) : Document :=
  mkDocument mutation_
    [Field "subscribeTo" [("userId", JStr s); ("authorId", JStr a)]
       [Field "id" [] []]].

(** [prisma.subscribersOnAuthors.create({ data: { subscriber: { connect:
      { id: s } }, author: { connect: { id: a } } } })] *)
Definition subscribe_op (s a : string) : Prisma.WriteOp :=
  Prisma.create Prisma.subscribersOnAuthors
    (JObj [("subscriber", Part001.connect (JStr s));
           ("author", Part001.connect (JStr a))]).

(** [{ users { id posts { id } } memberTypes { id } }] *)
Definition users_and_memberTypes : Document :=
  mkDocument query_
    [ Field "users" [] [Field "id" [] []; Field "posts" [] [Field "id" [] []]];
      Field "memberTypes" [] [Field "id" [] []] ].

(** The value is a list that holds [x]. *)
Definition listed (x : JV) (c : Completion JV) : Prop :=
  exists items, c = Returned (JArr items) /\ In x items.

(** The storage engine refuses every write with the message [m] and leaves
    the store as it is. *)
Definition refuses_writes (E : Env) (m : string) : Prop :=
  forall op d, write E op d = (Threw m, d).

(** ** Relations the list queries do not load *)

(** A query of depth 6 whose sixth level selects [id] 101 times. *)
Definition six_deep_many : list Selection :=
  [Sample.node "users" (Sample.chain 5 (repeat (Sample.leaf "id") 101))].

(** One member type, and nothing else. *)
Definition one_tier : Prisma.Db :=
  Prisma.mkDb [[("id", JStr "basic"); ("postsLimitPerMonth", JNum (Qmake 20 1))]]
              [] [] [] [].

(** A list query, the model it reads, and a relation field of its type that
    its [include] leaves out. *)
Definition unloaded : list (string * Prisma.Model * string) :=
  [ ("memberTypes", Prisma.memberType, "profiles");
    ("posts", Prisma.post, "author");
    ("profiles", Prisma.profile, "user");
    ("profiles", Prisma.profile, "memberType");
    ("users", Prisma.user, "userSubscribedTo");
    ("users", Prisma.user, "subscribedToUser") ].

(** [{ name { f { sub } } }] *)
Definition through (name f : string) (sub : list Selection) : Document :=
  mkDocument query_ [Field name [] [Field f [] sub]].

(** The fetch of a list query. *)
Definition all_of (m : Prisma.Model) : Prisma.ReadOp :=
  Prisma.findMany m Prisma.Everything
    match m with
    | Prisma.user => Prisma.Inc profile_and_posts
    | _ => Prisma.plain
    end.

(** ** A store with sound subscription edges *)

(** A user row with this id is in the store. *)
Definition has_user (d : Prisma.Db) (u : string) : Prop :=
  Exists (fun row => prop "id" (JObj row) = JStr u) (Prisma.users d).

(** Every subscription edge is a (subscriberId, authorId) pair whose two
    users are in the store. *)
Definition sound_edges (d : Prisma.Db) : Prop :=
  Forall (fun e => exists s c, e = edge s c /\ has_user d s /\ has_user d c)
         (Prisma.subscriptions d).

(** No user row has a column named like a subscription relation. *)
Definition scalar_rows (d : Prisma.Db) : Prop :=
  Forall (fun row => forall k, In k relation_fields -> assoc k row = None)
         (Prisma.users d).

(** The two subscription fields as [transformedEntry] builds them: the field,
    the far end of its edges, the far end's list of edges back, and the end
    those edges are read at. *)
Definition sides : list (string * string * string * string) :=
  [ ("userSubscribedTo", "author", "subscribedToUser", "subscriber");
    ("subscribedToUser", "subscriber", "userSubscribedTo", "author") ].

(** The id an edge has at one of its ends: [subscriberId] or [authorId]. *)
Definition column (end_ : string) (e : Prisma.Row) : JV :=
  prop (end_ ++ "Id") (JObj e).

(** The edges that have [v] at this end, in the order of the store. *)
Definition edges_at (d : Prisma.Db) (end_ : string) (v : JV) : list Prisma.Row :=
  filter (fun t => strict_eqb (column end_ t) v) (Prisma.subscriptions d).

(** [{ id }] for every edge, read at this end. *)
Definition ids_at (end_ : string) (es : list Prisma.Row) : JV :=
  JArr (map (fun e => JObj [("id", column end_ e)]) es).

(** One entry for every edge that has [v] at the near end: the id of the far
    end and, under [back], the ids at the near end of all edges with that
    far end. *)
Definition reshaped (d : Prisma.Db) (far back end_ : string) (v : JV) : JV :=
  JArr (map (fun e => JObj [ ("id", column far e);
                             (back, ids_at end_ (edges_at d far (column far e))) ])
            (edges_at d end_ v)).

(** [{ user(id: a) { field { id back { id } } } }] *)
Definition user_with (a field back : string) : Document :=
  by_id "user" a
    [Field field [] [Field "id" [] []; Field back [] [Field "id" [] []]]].

(** What [include] adds to a row for one relation. *)
Definition included (d : Prisma.Db) (r : Prisma.Relation) (sub : Prisma.Include)
    (row : Prisma.Row) : JV :=
  let targets := map (Prisma.load d (Prisma.rel_target r) sub) (Prisma.related d r row) in
  if Prisma.rel_many r then JArr targets
  else match targets with t :: _ => t | [] => JNull end.

(** [{ id: u }] *)
Definition id_object (P : string -> Prop) (x : JV) : Prop :=
  exists u, P u /\ x = JObj [("id", JStr u)].

(** [{ id: u, back: [{ id }, ...] }] *)
Definition entry_object (P : string -> Prop) (back : string) (x : JV) : Prop :=
  exists u inner,
    P u /\ x = JObj [("id", JStr u); (back, JArr inner)] /\
    Forall (id_object P) inner.

(** The fetch of [Query.user] in index.ts and part_000. *)
Definition reshaping_user (u : string) : Prisma.ReadOp :=
  Prisma.findUnique Prisma.user (JStr u) Part000.user_include.

(** ** Writes of a request *)

Definition is_write (c : Call) : bool :=
  match c with Write _ => true | Read _ => false end.

(** A storage engine that creates a subscription edge by appending it, and
    returns the edge (and refuses the other writes). *)
Definition linking : Env :=
  mkEnv (fun _ => false)
        (fun op d =>
           match op with
           | Prisma.create Prisma.subscribersOnAuthors data =>
               let e := [ ("subscriberId", prop "id" (prop "connect" (prop "subscriber" data)));
                          ("authorId", prop "id" (prop "connect" (prop "author" data))) ] in
               (Returned (JObj e),
                Prisma.mkDb (Prisma.memberTypes d) (Prisma.posts d) (Prisma.profiles d)
                            (Prisma.users d) (Prisma.subscriptions d ++ [e]))
           | _ => (Threw "not supported", d)
           end)
        (fun _ v => Returned v)
        (fun _ _ => true).

(** * The relations the proofs are stated with *)

Unset Implicit Arguments.

Definition is_read (c : Call) : bool :=
  match c with Read _ => true | Write _ => false end.

(** From [w] to [w'] the store has not changed and every call made was a
    read. *)
Definition reads_since (w w' : World) : Prop :=
  store w' = store w /\
  exists l, calls w' = calls w ++ l /\ forallb is_read l = true.

Definition read_only (fn : Resolver) : Prop :=
  forall src args w, reads_since w (snd (fn src args w)).

(** No field outside the Mutation root leads back into it, and every
    resolver outside it only reads. *)
Definition read_only_schema (S : Schema) : Prop :=
  forall t name d,
    t <> Mutation ->
    field_def name (fields S t) = Some d ->
    (forall t', ftype d = Object t' \/ ftype d = ListOf t' -> t' <> Mutation) /\
    (forall fn, resolve d = Some fn -> read_only fn).

Definition sub_reads (sub : SubFields) : Prop :=
  forall t src q w, t <> Mutation -> reads_since w (world (sub t src q w)).

Definition job_reads {A} (j : Job A) : Prop :=
  forall w, reads_since w (snd (j w)).

(** A job whose answer and whose effect on the store do not depend on the
    calls made before it. *)
Definition job_steady {A} (j : Job A) : Prop :=
  forall w w', store w = store w' ->
    fst (j w) = fst (j w') /\ store (snd (j w)) = store (snd (j w')).

Definition steady (fn : Resolver) : Prop :=
  forall src args, job_steady (fn src args).

Definition steady_schema (S : Schema) : Prop :=
  forall t name d fn,
    field_def name (fields S t) = Some d -> resolve d = Some fn -> steady fn.

(** Two runs of one step, at paths [p] and [p'], from worlds that hold the
    same store: the same value and the same store afterwards, and the same
    errors when the paths are the same. *)
Definition agree {A} (p p' : Path) (a b : Done A) : Prop :=
  value a = value b /\
  (p = p' -> errs a = errs b) /\
  store (world a) = store (world b).

Definition sub_steady (sub : SubFields) : Prop :=
  forall t src q q' w w',
    store w = store w' -> agree q q' (sub t src q w) (sub t src q' w').

Definition field_steady (E : Env) (S : Schema) (g : Selection) : Prop :=
  forall t src p p' w w', store w = store w' ->
    agree p p' (executeField E S t src p g w) (executeField E S t src p' g w').

Definition located_error (e : GraphQLError) : Prop := path e <> None.

Definition sub_mirrors (E : Env) (S : Schema) (sub : SubFields)
    (sels : list Selection) : Prop :=
  forall t src q w,
    validate_fields E S t sels = [] ->
    object_mirrors sels (value (sub t src q w)) = true /\
    Forall located_error (errs (sub t src q w)).

Definition item_mirrors (sels : list Selection) (x : JV) : bool :=
  match x with
  | JNull => true
  | JObj ps => object_mirrors sels ps
  | _ => false
  end.

Definition field_mirrors_run (E : Env) (S : Schema) (g : Selection) : Prop :=
  forall t src p w,
    validate_field E S t g = [] ->
    (exists v, value (executeField E S t src p g w) = Some (sel_name g, v) /\
               field_mirrors g v = true) /\
    Forall located_error (errs (executeField E S t src p g w)).

(** [q] lies at or below [p]: [p] is what [q] ends with. *)
Definition under (q p : Path) : Prop := exists pre, q = pre ++ p.

(** The errors of a run all lie below children of [p] that [C] admits. *)
Definition within (es : list GraphQLError) (p : Path) (C : Seg -> Prop) : Prop :=
  forall e, In e es -> exists q s, path e = Some q /\ C s /\ under q (s :: p).

(** [bad] marks, below the children of [p] that [C] admits, exactly the
    paths of the error list. *)
Definition agrees (bad : Path -> bool) (es : list GraphQLError) (p : Path)
    (C : Seg -> Prop) : Prop :=
  forall s q, C s -> under q (s :: p) -> bad q = hit es q.

(** An error of the faulty run is an error of the sound run or a storage
    failure. *)
Definition same_or_failed (es es' : list GraphQLError) : Prop :=
  forall e, In e es' -> In e es \/ message e = storage_failure.

(** The faulty result [(v', es')] of a step against the sound one [(v, es)],
    for a step whose errors lie below the children [C] of [p]: the faulty
    value is the sound one nulled where the faulty errors are. *)
Definition simulates {A} (p : Path) (C : Seg -> Prop)
    (nul : (Path -> bool) -> A -> A)
    (v : A) (es : list GraphQLError) (v' : A) (es' : list GraphQLError) : Prop :=
  (forall bad, agrees bad es' p C -> v' = nul bad v) /\
  within es' p C /\
  NoDup (map path es') /\
  same_or_failed es es'.

Definition keys_of (l : list Selection) (s : Seg) : Prop :=
  exists k, s = Key k /\ In k (map sel_name l).

Definition from_index (i : nat) (s : Seg) : Prop :=
  exists j, s = Index j /\ i <= j.

Definition nullify_field (bad : Path -> bool) (p : Path)
    (o : option (string * JV)) : option (string * JV) :=
  match o with
  | Some (k, x) => Some (k, nullify bad (Key k :: p) x)
  | None => None
  end.

Definition resolver_of (name : string) (d : FieldDef) : Resolver :=
  match resolve d with
  | Some fn => fn
  | None => defaultFieldResolver name
  end.

(** The faulty resolver answers as the sound one does, or reports a storage
    failure. *)
Definition fails_only (fn fn' : Resolver) : Prop :=
  forall src args w w',
    store w = store w' ->
    fst (fn' src args w') = fst (fn src args w) \/
    fst (fn' src args w') = Threw storage_failure.

Definition fails_only_schema (S S' : Schema) : Prop :=
  forall t name,
    t <> Mutation ->
    match field_def name (fields S t), field_def name (fields S' t) with
    | Some d, Some d' =>
        ftype d' = ftype d /\ fargs d' = fargs d /\
        fails_only (resolver_of name d) (resolver_of name d')
    | None, None => True
    | _, _ => False
    end.

Definition sub_sim (sub sub' : SubFields) (sels : list Selection) : Prop :=
  forall t src q w w',
    t <> Mutation -> store w = store w' ->
    simulates q (keys_of sels) (fun bad => nullify_props bad q)
              (value (sub t src q w)) (errs (sub t src q w))
              (value (sub' t src q w')) (errs (sub' t src q w')).

Definition field_sim (E : Env) (S : Schema) (E' : Env) (S' : Schema)
    (g : Selection) : Prop :=
  distinct_siblings g = true ->
  forall t src p w w',
    t <> Mutation -> store w = store w' ->
    simulates p (eq (Key (sel_name g))) (fun bad => nullify_field bad p)
              (value (executeField E S t src p g w))
              (errs (executeField E S t src p g w))
              (value (executeField E' S' t src p g w'))
              (errs (executeField E' S' t src p g w')).

Definition job_fails_only {A} (j j' : Job A) : Prop :=
  forall w w',
    store w = store w' ->
    fst (j' w') = fst (j w) \/ fst (j' w') = Threw storage_failure.

(** Every error of a step sits at a path where the value the step produced
    is [null]: for a field at path [fp], for the fields of a selection set
    on an object at [p], and for the items of a list from index [i] on. *)
Definition nulls_at_field (fp : Path) (v : JV) (es : list GraphQLError) : Prop :=
  forall e, In e es ->
    exists pre, path e = Some (pre ++ fp) /\ walk v (rev pre) = JNull.

Definition nulls_at_fields (p : Path) (l : list Selection) (ps : Props)
    (es : list GraphQLError) : Prop :=
  forall e, In e es ->
    exists k pre,
      In k (map sel_name l) /\ path e = Some (pre ++ Key k :: p) /\
      walk (prop k (JObj ps)) (rev pre) = JNull.

Definition nulls_at_items (p : Path) (i : nat) (vs : list JV)
    (es : list GraphQLError) : Prop :=
  forall e, In e es ->
    exists j pre,
      path e = Some (pre ++ Index (i + j) :: p) /\
      walk (nth j vs JUndefined) (rev pre) = JNull.

Definition sub_nulls (sub : SubFields) (sels : list Selection) : Prop :=
  forall t src q w,
    nulls_at_fields q sels (value (sub t src q w)) (errs (sub t src q w)).

Definition field_nulls (E : Env) (S : Schema) (g : Selection) : Prop :=
  distinct_siblings g = true ->
  forall t src p w,
    match value (executeField E S t src p g w) with
    | Some (k, v) =>
        k = sel_name g /\
        nulls_at_field (Key k :: p) v (errs (executeField E S t src p g w))
    | None => errs (executeField E S t src p g w) = []
    end.

(** The two roots, and the entity types below them. *)
Definition is_root (t : TypeName) : bool :=
  match t with Query | Mutation => true | _ => false end.

Definition entity (t : TypeName) : Prop := is_root t = false.

(** No field of an entity type has a resolver of its own, and none leads
    back to a root. *)
Definition resolver_free (S : Schema) : Prop :=
  forall t name d,
    entity t -> field_def name (fields S t) = Some d ->
    resolve d = None /\
    (forall t', ftype d = Object t' \/ ftype d = ListOf t' -> entity t').

(** A resolver that calls the client once, for a read or for a write. *)
Definition one_call (reading : bool) (fn : Resolver) : Prop :=
  forall src args w,
    exists c, calls (snd (fn src args w)) = calls w ++ [c] /\ is_read c = reading.

Definition reads_at (root : TypeName) : bool :=
  match root with Mutation => false | _ => true end.

(** Every field of a root has a resolver that calls the client once, a read
    on the Query root and a write on the Mutation root, and leads to an
    entity type or a leaf. *)
Definition one_call_roots (S : Schema) : Prop :=
  forall root name d,
    is_root root = true -> field_def name (fields S root) = Some d ->
    (exists fn, resolve d = Some fn /\ one_call (reads_at root) fn) /\
    (forall t', ftype d = Object t' \/ ftype d = ListOf t' -> entity t').

Definition sub_still (sub : SubFields) : Prop :=
  forall t src q w, entity t -> world (sub t src q w) = w.

Definition job_one_call {A} (reading : bool) (j : Job A) : Prop :=
  forall w, exists c, calls (snd (j w)) = calls w ++ [c] /\ is_read c = reading.

Definition job_still {A} (j : Job A) : Prop := forall w, snd (j w) = w.

(** A resolver that rejects with [m] and leaves the store as it was. *)
Definition rejects_with (m : string) (fn : Resolver) : Prop :=
  forall src args w,
    fst (fn src args w) = Threw m /\ store (snd (fn src args w)) = store w.

Definition mutations_reject_with (m : string) (S : Schema) : Prop :=
  forall name d,
    field_def name (fields S Mutation) = Some d ->
    exists fn, resolve d = Some fn /\ rejects_with m fn.

(** What the depth rule reports on a node when nothing stops it. *)
Fixpoint reported (maxDepth depthSoFar : nat) (operationName : string)
    (node : Selection) {struct node} : list GraphQLError :=
  match node with
  | Field name _ sub =>
      if Nat.ltb maxDepth depthSoFar then [DepthLimit.exceeds operationName maxDepth]
      else if DepthLimit.ignored name || match sub with [] => true | _ => false end
      then []
      else flat_map (reported maxDepth (Datatypes.S depthSoFar) operationName) sub
  end.

Definition reports (maxDepth : nat) (doc : Document) : list GraphQLError :=
  flat_map (reported maxDepth 0 EmptyString) (selections doc).

(** The errors collected, or the abort once there are more than [maxErrors]. *)
Definition collect (errors : list GraphQLError) : Completion (list GraphQLError) :=
  if Nat.leb (List.length errors) maxErrors then Returned errors else Threw abortObj.

(** ** A document that accounts for the data *)

Definition is_null (v : JV) : bool :=
  match v with JNull => true | _ => false end.

(** The same value, structurally. *)
Fixpoint jv_eqb (a b : JV) {struct a} : bool :=
  match a, b with
  | JUndefined, JUndefined => true
  | JNull, JNull => true
  | JBool x, JBool y => Bool.eqb x y
  | JNum x, JNum y => Z.eqb (Qnum x) (Qnum y) && Pos.eqb (Qden x) (Qden y)
  | JStr x, JStr y => String.eqb x y
  | JArr xs, JArr ys =>
      (fix each (xs ys : list JV) : bool :=
         match xs, ys with
         | [], [] => true
         | x :: xs', y :: ys' => jv_eqb x y && each xs' ys'
         | _, _ => false
         end) xs ys
  | JObj ps, JObj qs =>
      (fix each (ps qs : Props) : bool :=
         match ps, qs with
         | [], [] => true
         | (k, x) :: ps', (l, y) :: qs' =>
             String.eqb k l && jv_eqb x y && each ps' qs'
         | _, _ => false
         end) ps qs
  | _, _ => false
  end.

(** The value [v] of a field in the response accounts for what the field's
    resolver returns on the store of [w0], given the error list [es] of the
    response: it is [null] where the resolver returned [null] or [undefined];
    it is [null] with an error of the list at its path where the resolver
    threw or the value could not be completed; otherwise it is the
    serialized value for a leaf, an object with exactly the selected names in
    order, each accounting for its field on that object, or a list with one
    such object for every item the resolver returned and [null] for a nullish
    item. *)
Fixpoint accounts (E : Env) (S : Schema) (w0 : World) (es : list GraphQLError)
    (parent : TypeName) (source : JV) (p : Path) (f : Selection) (v : JV)
    {struct f} : bool :=
  match f with
  | Field name args sub =>
      match field_def name (fields S parent) with
      | None => false
      | Some d =>
          let here := Key name :: p in
          let object := fun (t : TypeName) (x : JV) (q : Path) (y : JV) =>
            match y with
            | JObj ps =>
                (fix each (l : list Selection) (ps : Props) : bool :=
                   match l, ps with
                   | [], [] => true
                   | g :: l', (k, z) :: ps' =>
                       String.eqb k (sel_name g) && accounts E S w0 es t x q g z
                       && each l' ps'
                   | _, _ => false
                   end) sub ps
            | _ => false
            end in
          match fst (resolver_of name d source args w0) with
          | Threw _ => is_null v && hit es here
          | Returned x =>
              if nullish x then is_null v
              else
                match ftype d with
                | Leaf s =>
                    match serialize_leaf E s x with
                    | Returned y => jv_eqb v y
                    | Threw _ => is_null v && hit es here
                    end
                | Object t => object t x here v
                | ListOf t =>
                    match x, v with
                    | JArr xs, JArr vs =>
                        (fix items (xs vs : list JV) (i : nat) : bool :=
                           match xs, vs with
                           | [], [] => true
                           | x :: xs', y :: vs' =>
                               (if nullish x then is_null y
                                else object t x (Index i :: here) y)
                               && items xs' vs' (Datatypes.S i)
                           | _, _ => false
                           end) xs vs 0
                    | JArr _, _ => false
                    | _, _ => is_null v && hit es here
                    end
                end
          end
      end
  end.

(** The fields of an object of type [t] at path [q], each accounting for its
    selection on the source [x]. *)
Definition accounts_all (E : Env) (S : Schema) (w0 : World) (es : list GraphQLError)
    (t : TypeName) (x : JV) (q : Path) : list Selection -> Props -> bool :=
  fix each (l : list Selection) (ps : Props) : bool :=
    match l, ps with
    | [], [] => true
    | g :: l', (k, z) :: ps' =>
        String.eqb k (sel_name g) && accounts E S w0 es t x q g z && each l' ps'
    | _, _ => false
    end.

Definition accounts_object (E : Env) (S : Schema) (w0 : World) (es : list GraphQLError)
    (sub : list Selection) (t : TypeName) (x : JV) (q : Path) (y : JV) : bool :=
  match y with
  | JObj ps => accounts_all E S w0 es t x q sub ps
  | _ => false
  end.

Definition accounts_items (E : Env) (S : Schema) (w0 : World) (es : list GraphQLError)
    (sub : list Selection) (t : TypeName) (here : Path)
    : list JV -> list JV -> nat -> bool :=
  fix items (xs vs : list JV) (i : nat) : bool :=
    match xs, vs with
    | [], [] => true
    | x :: xs', y :: vs' =>
        (if nullish x then is_null y
         else accounts_object E S w0 es sub t x (Index i :: here) y)
        && items xs' vs' (Datatypes.S i)
    | _, _ => false
    end.

(** The request was answered with a document that mirrors the shape and
    accounts for the data of the store the request found, and every error in
    the list belongs to a field. *)
Definition answered_from_data (E : Env) (S : Schema) (w : World) (o : Outcome)
    (sels : list Selection) : Prop :=
  exists ps es,
    o = Sent (mkResult (Some (JObj ps)) es) /\
    object_mirrors sels ps = true /\
    accounts_all E S w es Query JUndefined [] sels ps = true /\
    Forall (fun e => path e <> None) es.

(** A value that mirrors a field's selection set with nothing left out: an
    object with the selected names, or a list of such objects. *)
Fixpoint mirrors_exactly (f : Selection) (v : JV) {struct f} : bool :=
  match f with
  | Field _ _ [] => true
  | Field _ _ sub =>
      let object := fun x =>
        match x with
        | JObj ps =>
            (fix each (l : list Selection) (ps : Props) : bool :=
               match l, ps with
               | [], [] => true
               | g :: l', (k, y) :: ps' =>
                   String.eqb k (sel_name g) && mirrors_exactly g y && each l' ps'
               | _, _ => false
               end) sub ps
        | _ => false
        end in
      match v with
      | JArr items => forallb object items
      | _ => object v
      end
  end.

Definition object_mirrors_exactly : list Selection -> Props -> bool :=
  fix each (l : list Selection) (ps : Props) : bool :=
    match l, ps with
    | [], [] => true
    | g :: l', (k, y) :: ps' =>
        String.eqb k (sel_name g) && mirrors_exactly g y && each l' ps'
    | _, _ => false
    end.

Definition sub_accounts (E : Env) (S : Schema) (w0 : World) (sub : SubFields)
    (sels : list Selection) : Prop :=
  forall t src q w es,
    t <> Mutation -> store w = store w0 ->
    validate_fields E S t sels = [] ->
    incl (errs (sub t src q w)) es ->
    accounts_all E S w0 es t src q sels (value (sub t src q w)) = true.

Definition field_accounts (E : Env) (S : Schema) (w0 : World) (g : Selection) : Prop :=
  forall t src p w es,
    t <> Mutation -> store w = store w0 ->
    validate_field E S t g = [] ->
    incl (errs (executeField E S t src p g w)) es ->
    exists v, value (executeField E S t src p g w) = Some (sel_name g, v) /\
              accounts E S w0 es t src p g v = true.

(** ** The field a failure belongs to *)

Definition sel_args (f : Selection) : Props :=
  match f with Field _ args _ => args end.

(** The first field named [k] of a selection set, with the world the fields
    before it leave. *)
Definition seek {X} (k : string) (found : Selection -> World -> option X)
    (pass : Selection -> World -> World) : list Selection -> World -> option X :=
  fix go (sels : list Selection) (w : World) : option X :=
    match sels with
    | [] => None
    | g :: more =>
        if String.eqb (sel_name g) k then found g w else go more (pass g w)
    end.

(** The item at an index of a list, with the world the items before it
    leave; [n] is the index of the head of the list. *)
Definition at_index {X} (found : JV -> World -> option X)
    (pass : nat -> JV -> World -> World)
    : list JV -> nat -> nat -> World -> option X :=
  fix go (items : list JV) (i n : nat) (w : World) : option X :=
    match items, i with
    | [], _ => None
    | x :: _, O => found x w
    | x :: more, Datatypes.S i' => go more i' (Datatypes.S n) (pass n x w)
    end.

Definition item_world (sub : SubFields) (t : TypeName) (p : Path) (n : nat)
    (x : JV) (w : World) : World :=
  world (if nullish x then mkDone JNull [] w
         else completeObjectValue sub t (Index n :: p) x w).

(** The resolver call the executor makes for the field at a path of the
    response, and the world it makes it in: the run is followed from the root
    (the path is read outermost segment first) through the fields before the
    one named, into the value its resolver returns, and through the items
    before the one indexed.  [None] where the run does not get to the path:
    an ancestor was rejected or came back nullish, or the query or the value
    has nothing there. *)
Fixpoint reached (E : Env) (S : Schema) (t : TypeName) (source : JV)
    (sels : list Selection) (p : Path) (w : World) (segs : list Seg) {struct segs}
    : option (Job JV * World) :=
  match segs with
  | Key k :: rest =>
      seek k
        (fun g w0 =>
           match field_def k (fields S t) with
           | None => None
           | Some fd =>
               let job := resolver_of k fd source (sel_args g) in
               match rest with
               | [] => Some (job, w0)
               | Key _ :: _ =>
                   match job w0, ftype fd with
                   | (Returned x, w1), Object t' =>
                       if nullish x then None
                       else reached E S t' x (sel_set g) (Key k :: p) w1 rest
                   | _, _ => None
                   end
               | Index i :: rest' =>
                   match job w0, ftype fd with
                   | (Returned (JArr items), w1), ListOf t' =>
                       at_index
                         (fun x w2 =>
                            if nullish x then None
                            else reached E S t' x (sel_set g)
                                         (Index i :: Key k :: p) w2 rest')
                         (item_world
                            (fun t src q => executeFields E S t src q (sel_set g))
                            t' (Key k :: p))
                         items i 0 w1
                   | _, _ => None
                   end
               end
           end)
        (fun g w0 => world (executeField E S t source p g w0))
        sels w
  | _ => None
  end.

(** What [reached] does at the field it has found. *)
Definition found (E : Env) (S : Schema) (t : TypeName) (source : JV) (p : Path)
    (k : string) (rest : list Seg) (g : Selection) (w0 : World)
    : option (Job JV * World) :=
  match field_def k (fields S t) with
  | None => None
  | Some fd =>
      let job := resolver_of k fd source (sel_args g) in
      match rest with
      | [] => Some (job, w0)
      | Key _ :: _ =>
          match job w0, ftype fd with
          | (Returned x, w1), Object t' =>
              if nullish x then None
              else reached E S t' x (sel_set g) (Key k :: p) w1 rest
          | _, _ => None
          end
      | Index i :: rest' =>
          match job w0, ftype fd with
          | (Returned (JArr items), w1), ListOf t' =>
              at_index
                (fun x w2 =>
                   if nullish x then None
                   else reached E S t' x (sel_set g) (Index i :: Key k :: p) w2 rest')
                (item_world (fun t src q => executeFields E S t src q (sel_set g))
                            t' (Key k :: p))
                items i 0 w1
          | _, _ => None
          end
      end
  end.

(** The calls a job makes to the client from a world, each with its position
    in the log of the request. *)
Definition made (job : Job JV) (w : World) : list (nat * Call) :=
  let before := List.length (calls w) in
  let new := skipn before (calls (snd (job w))) in
  combine (seq before (List.length new)) new.

(** One of the calls the job makes from [w] is a call that [failing] marks:
    [failing] picks calls by their position in the log and by what they
    ask. *)
Definition failed (failing : nat -> Call -> bool) (job : Job JV) (w : World)
    : Prop :=
  existsb (fun nc => failing (fst nc) (snd nc)) (made job w) = true.

Definition is_bad_read (bad : Prisma.ReadOp -> bool) (c : Call) : bool :=
  match c with Read op => bad op | Write _ => false end.

(** The calls that fail under [with_failures E bad]: the reads [bad] marks,
    wherever they are in the log. *)
Definition bad_reads (bad : Prisma.ReadOp -> bool) : nat -> Call -> bool :=
  fun _ c => is_bad_read bad c.

(** A resolver under a storage engine that fails the calls [failing] marks:
    its promise rejects with the storage failure when one of the calls it
    made is marked. *)
Definition interrupted (failing : nat -> Call -> bool) (fn : Resolver) : Resolver :=
  fun source args w =>
    let r := fn source args w in
    if existsb (fun nc => failing (fst nc) (snd nc)) (made (fn source args) w)
    then (Threw storage_failure, snd r)
    else r.

(** The schema under such a storage engine: a fetch that the request makes
    more than once can fail one time and be answered the others. *)
Definition with_outages (failing : nat -> Call -> bool) (S : Schema) : Schema :=
  mkSchema
    (fun t =>
       map (fun kd : string * FieldDef =>
              (fst kd,
               mkField (ftype (snd kd)) (fargs (snd kd))
                       (option_map (interrupted failing) (resolve (snd kd)))))
           (fields S t))
    (mutationType S).

(** Every entry of the faulty error list is an entry of the sound list, or a
    storage failure at the path of a field the faulty run got to and whose
    resolver made a failed call. *)
Definition blamed (failing : nat -> Call -> bool) (E : Env) (S : Schema)
    (sels : list Selection) (w : World) (sound faulty : Outcome) : Prop :=
  match sound, faulty with
  | Sent b, Sent f =>
      forall e, In e (errors f) ->
        In e (errors b) \/
        (message e = storage_failure /\
         exists segs job w0,
           path e = Some (rev segs) /\
           reached E S Query JUndefined sels [] w segs = Some (job, w0) /\
           failed failing job w0)
  | _, _ => False
  end.

(** Every field the faulty run got to and whose resolver made a failed call
    has its entry, a storage failure at the path of the field. *)
Definition recorded (failing : nat -> Call -> bool) (E : Env) (S : Schema)
    (sels : list Selection) (w : World) (faulty : Outcome) : Prop :=
  match faulty with
  | Sent f =>
      data f <> None ->
      forall segs job w0,
        reached E S Query JUndefined sels [] w segs = Some (job, w0) ->
        failed failing job w0 ->
        In (mkError storage_failure (Some (rev segs))) (errors f)
  | Raised _ => False
  end.

(** The failures stay with the fields that made the failed calls.  The
    faulty response is [isolated] against the sound one: the sound document
    with [null] at the paths of the faulty error list, one entry per path.
    Its new entries are [blamed] on fields whose resolver made a failed call,
    and every such field is [recorded]. *)
Definition confined (failing : nat -> Call -> bool) (E : Env) (S : Schema)
    (sels : list Selection) (w : World) (sound faulty : Outcome) : Prop :=
  isolated sound faulty /\
  blamed failing E S sels w sound faulty /\
  recorded failing E S sels w faulty.

Definition blamed_fields (T : Job JV -> World -> Prop) (E : Env) (S : Schema)
    (t : TypeName) (source : JV) (sels : list Selection) (p : Path)
    (es es' : list GraphQLError) (w : World) : Prop :=
  forall e, In e es' ->
    In e es \/
    (message e = storage_failure /\
     exists segs job w0,
       path e = Some (rev segs ++ p) /\
       reached E S t source sels p w segs = Some (job, w0) /\ T job w0).

Definition blamed_items (T : Job JV -> World -> Prop) (E : Env) (S : Schema)
    (sub : SubFields) (t : TypeName) (items : list JV) (sels : list Selection)
    (n : nat) (p : Path) (es es' : list GraphQLError) (w : World) : Prop :=
  forall e, In e es' ->
    In e es \/
    (message e = storage_failure /\
     exists i j segs job w0,
       j = n + i /\
       path e = Some (rev segs ++ Index j :: p) /\
       at_index (fun x w2 => if nullish x then None
                             else reached E S t x sels (Index j :: p) w2 segs)
                (item_world sub t p) items i n w = Some (job, w0) /\
       T job w0).

Definition sub_blame (T : Job JV -> World -> Prop) (E : Env) (S : Schema)
    (sub sub' : SubFields) (sels : list Selection) : Prop :=
  forall t src q w w',
    t <> Mutation -> store w = store w' ->
    blamed_fields T E S t src sels q
                  (errs (sub t src q w)) (errs (sub' t src q w')) w'.

Definition field_blame (T : Job JV -> World -> Prop) (E : Env) (S : Schema)
    (E' : Env) (S' : Schema) (g : Selection) : Prop :=
  distinct_siblings g = true ->
  forall t src p w w',
    t <> Mutation -> store w = store w' ->
    blamed_fields T E' S' t src [g] p
                  (errs (executeField E S t src p g w))
                  (errs (executeField E' S' t src p g w')) w'.

(** A faulty resolver that rejects with the storage failure where the sound
    one does not has made a failed call. *)
Definition ties (T : Job JV -> World -> Prop) (S S' : Schema) : Prop :=
  forall t name fd fd' src args w w',
    t <> Mutation ->
    field_def name (fields S t) = Some fd ->
    field_def name (fields S' t) = Some fd' ->
    store w = store w' ->
    fst (resolver_of name fd' src args w') = Threw storage_failure ->
    fst (resolver_of name fd src args w) = Threw storage_failure \/
    T (resolver_of name fd' src args) w'.

(** A resolver that has made a failed call rejects with the storage
    failure. *)
Definition fails_when (T : Job JV -> World -> Prop) (S : Schema) : Prop :=
  forall t name fd src args w,
    t <> Mutation ->
    field_def name (fields S t) = Some fd ->
    T (resolver_of name fd src args) w ->
    fst (resolver_of name fd src args w) = Threw storage_failure.

Definition recorded_fields (T : Job JV -> World -> Prop) (E : Env) (S : Schema)
    (t : TypeName) (source : JV) (sels : list Selection) (p : Path)
    (es : list GraphQLError) (w : World) : Prop :=
  forall segs job w0,
    reached E S t source sels p w segs = Some (job, w0) -> T job w0 ->
    In (located (rev segs ++ p) storage_failure) es.

Definition sub_recorded (T : Job JV -> World -> Prop) (E : Env) (S : Schema)
    (sub : SubFields) (sels : list Selection) : Prop :=
  forall t src q w,
    t <> Mutation ->
    recorded_fields T E S t src sels q (errs (sub t src q w)) w.

Definition field_recorded (T : Job JV -> World -> Prop) (E : Env) (S : Schema)
    (g : Selection) : Prop :=
  forall t src p w,
    t <> Mutation ->
    recorded_fields T E S t src [g] p (errs (executeField E S t src p g w)) w.

(** [{ user(id: B) { id userSubscribedTo { id } }
       users { id userSubscribedTo { id } } }]: on [Sample.abc] the users B
    is subscribed to are fetched twice, for the user B of the first root
    field and for B in the list of the second. *)
Definition user_and_users : list Selection :=
  [Field "user" [("id", JStr "B")]
     [Sample.leaf "id"; Sample.node "userSubscribedTo" [Sample.leaf "id"]];
   Sample.node "users"
     [Sample.leaf "id"; Sample.node "userSubscribedTo" [Sample.leaf "id"]]].

(** A storage engine that fails the fifth call of the request and no
    other. *)
Definition fifth_call (n : nat) (c : Call) : bool := Nat.eqb n 4.

(** * Properties *)

(** ** The executor, unfolded *)

Lemma executeField_eq E S parent source p name args sub w :
  executeField E S parent source p (Field name args sub) w =
  resolveField E S (fun t src q => executeFields E S t src q sub)
               parent source p name args w.
Proof. reflexivity. Qed.

Lemma executeFields_nil E S parent source p w :
  executeFields E S parent source p [] w = mkDone [] [] w.
Proof. reflexivity. Qed.

Lemma executeFields_cons E S parent source p g rest w :
  executeFields E S parent source p (g :: rest) w =
  let a := executeField E S parent source p g w in
  let b := executeFields E S parent source p rest (world a) in
  mkDone (keep (value a) (value b)) (errs a ++ errs b) (world b).
Proof. reflexivity. Qed.

Global Opaque executeField executeFields.

(** Induction on a query shape, with the property in hand for every field of
    the selection set below. *)
Lemma Selection_rect' (P : Selection -> Prop) :
  (forall name args sub, Forall P sub -> P (Field name args sub)) ->
  forall f, P f.
Proof.
  intros step.
  fix IH 1.
  intros [name args sub].
  apply step.
  induction sub as [|g rest IHrest]; constructor.
  - apply IH.
  - exact IHrest.
Qed.

(** ** Reading leaves the store alone *)

Lemma reads_since_refl w : reads_since w w.
Proof.
  split; [reflexivity|]. exists []. now rewrite app_nil_r.
Qed.

Lemma reads_since_trans w1 w2 w3 :
  reads_since w1 w2 -> reads_since w2 w3 -> reads_since w1 w3.
Proof.
  intros [H1 (l1 & C1 & F1)] [H2 (l2 & C2 & F2)].
  split; [congruence|].
  exists (l1 ++ l2). split.
  - now rewrite C2, C1, app_assoc.
  - now rewrite forallb_app, F1, F2.
Qed.

Lemma prisma_read_reads E op w : reads_since w (snd (prisma_read E op w)).
Proof.
  unfold prisma_read; simpl. split; [reflexivity|].
  exists [Read op]. now split.
Qed.

Section Frame.

Variable E : Env.
Variable S : Schema.
Hypothesis HS : read_only_schema S.

Lemma completeListItems_reads sub t p items :
  sub_reads sub -> t <> Mutation ->
  forall i w, reads_since w (world (completeListItems sub t p items i w)).
Proof.
  intros Hsub Ht.
  induction items as [|item rest IH]; intros i w; simpl.
  - apply reads_since_refl.
  - eapply reads_since_trans; [|apply IH].
    destruct (nullish item); simpl.
    + apply reads_since_refl.
    + now apply Hsub.
Qed.

Lemma completeValue_reads sub ty name p result w :
  sub_reads sub ->
  (forall t', ty = Object t' \/ ty = ListOf t' -> t' <> Mutation) ->
  reads_since w (world (completeValue E sub ty name p result w)).
Proof.
  intros Hsub Hty. unfold completeValue.
  destruct (nullish result); [apply reads_since_refl|].
  destruct ty as [s|t'|t'].
  - destruct (serialize_leaf E s result); apply reads_since_refl.
  - simpl. apply Hsub. apply Hty. now left.
  - destruct result; try apply reads_since_refl.
    simpl. apply completeListItems_reads; [exact Hsub|]. apply Hty. now right.
Qed.

Lemma resolveField_reads sub parent source p name args w :
  sub_reads sub -> parent <> Mutation ->
  reads_since w (world (resolveField E S sub parent source p name args w)).
Proof.
  intros Hsub Hp. unfold resolveField.
  destruct (field_def name (fields S parent)) as [d|] eqn:Hd;
    [|apply reads_since_refl].
  destruct (HS _ name _ Hp Hd) as [Hty Hfn].
  assert (Hr : read_only (match resolve d with
                          | Some fn => fn
                          | None => defaultFieldResolver name
                          end)).
  { destruct (resolve d) as [fn|]; [now apply Hfn|].
    intros src a w0. apply reads_since_refl. }
  specialize (Hr source args w).
  destruct (match resolve d with Some fn => fn | None => defaultFieldResolver name end
              source args w) as [[result|m] w1]; simpl in *.
  - eapply reads_since_trans; [exact Hr|]. now apply completeValue_reads.
  - exact Hr.
Qed.

Lemma executeFields_reads_from l :
  Forall (fun g => forall t src p w, t <> Mutation ->
                   reads_since w (world (executeField E S t src p g w))) l ->
  forall t src p w, t <> Mutation ->
    reads_since w (world (executeFields E S t src p l w)).
Proof.
  induction 1 as [|g rest Hg _ IH]; intros t src p w Ht.
  - rewrite executeFields_nil. apply reads_since_refl.
  - rewrite executeFields_cons. simpl.
    eapply reads_since_trans; [exact (Hg t src p w Ht)|exact (IH t src p _ Ht)].
Qed.

Lemma executeField_reads f :
  forall t src p w, t <> Mutation ->
    reads_since w (world (executeField E S t src p f w)).
Proof.
  induction f as [name args sub IH] using Selection_rect'.
  intros t src p w Ht. rewrite executeField_eq.
  apply resolveField_reads; [|exact Ht].
  intros t' src' q w' Ht'. now apply executeFields_reads_from.
Qed.

Lemma executeFields_reads l t src p w :
  t <> Mutation -> reads_since w (world (executeFields E S t src p l w)).
Proof.
  apply executeFields_reads_from.
  apply Forall_forall. intros g _. apply executeField_reads.
Qed.

(** A query, whatever its shape, leaves the store as it was and calls the
    client for reads only. *)
Lemma graphql_query_reads sels w :
  reads_since w (snd (graphql E S (Parsed (mkDocument query_ sels)) w)).
Proof.
  unfold graphql.
  destruct (validate E S (mkDocument query_ sels)); [|apply reads_since_refl].
  unfold execute; simpl.
  destruct (mutationType S); simpl; now apply executeFields_reads.
Qed.

End Frame.

(** ** The Query side of the three revisions only reads *)

Lemma resolved_reads A (a : A) : job_reads (resolved a).
Proof. intros w. apply reads_since_refl. Qed.

Lemma lift_reads A (c : Completion A) : job_reads (lift c).
Proof. intros w. apply reads_since_refl. Qed.

Lemma await_reads A B (j : Job A) (k : A -> Job B) :
  job_reads j -> (forall a, job_reads (k a)) -> job_reads (await j k).
Proof.
  intros Hj Hk w. unfold await.
  specialize (Hj w). destruct (j w) as [[a|m] w1]; simpl in *.
  - eapply reads_since_trans; [exact Hj|apply Hk].
  - exact Hj.
Qed.

Lemma prisma_read_job E op : job_reads (prisma_read E op).
Proof. intros w. apply prisma_read_reads. Qed.

Create HintDb reads.
#[export] Hint Resolve resolved_reads lift_reads prisma_read_job : reads.
#[export] Hint Extern 2 (job_reads (await _ _)) =>
  apply await_reads; [|intro] : reads.

Ltac resolver_reads fn :=
  let src := fresh "src" in
  let args := fresh "args" in
  intros src args;
  match goal with
  | |- forall w, reads_since w (snd (?j w)) => change (job_reads j)
  end;
  unfold fn; auto 6 with reads.

Lemma Query_memberTypes_reads E : read_only (Query_memberTypes E).
Proof. resolver_reads Query_memberTypes. Qed.

Lemma Query_posts_reads E : read_only (Query_posts E).
Proof. resolver_reads Query_posts. Qed.

Lemma Query_users_reads E : read_only (Query_users E).
Proof. resolver_reads Query_users. Qed.

Lemma Query_profiles_reads E : read_only (Query_profiles E).
Proof. resolver_reads Query_profiles. Qed.

Lemma Query_memberType_reads E : read_only (Query_memberType E).
Proof. resolver_reads Query_memberType. Qed.

Lemma Query_post_reads E : read_only (Query_post E).
Proof. resolver_reads Query_post. Qed.

Lemma Query_profile_reads E : read_only (Query_profile E).
Proof. resolver_reads Query_profile. Qed.

Lemma Part000_Query_user_reads E : read_only (Part000.Query_user E).
Proof. resolver_reads Part000.Query_user. Qed.

Lemma Part001_Query_user_reads E : read_only (Part001.Query_user E).
Proof. resolver_reads Part001.Query_user. Qed.

Lemma User_userSubscribedTo_reads E : read_only (Part001.User_userSubscribedTo E).
Proof. resolver_reads Part001.User_userSubscribedTo. Qed.

Lemma User_subscribedToUser_reads E : read_only (Part001.User_subscribedToUser E).
Proof. resolver_reads Part001.User_subscribedToUser. Qed.

#[export] Hint Resolve Query_memberTypes_reads Query_posts_reads Query_users_reads
  Query_profiles_reads Query_memberType_reads Query_post_reads Query_profile_reads
  Part000_Query_user_reads Part001_Query_user_reads User_userSubscribedTo_reads
  User_subscribedToUser_reads : reads.

(** Case analysis on the field a name selects in a field table. *)
Ltac field_loop Hd :=
  lazymatch type of Hd with
  | context [String.eqb ?a ?b] =>
      destruct (String.eqb a b); [injection Hd as <-|field_loop Hd]
  | _ => try discriminate Hd
  end.

Ltac each_field Hd := simpl in Hd; field_loop Hd.

Ltac read_only_field :=
  simpl; split;
  [ intros ? [H|H]; inversion H; discriminate
  | intros ? H; inversion H; subst; auto with reads ].

Lemma Part000_read_only E : read_only_schema (Part000.executableSchema E).
Proof.
  intros t name d Ht Hd.
  destruct t; try contradiction; each_field Hd; read_only_field.
Qed.

Lemma Index_read_only E : read_only_schema (Index.executableSchema E).
Proof.
  intros t name d Ht Hd.
  destruct t; try contradiction; each_field Hd; read_only_field.
Qed.

Lemma Part001_read_only E : read_only_schema (Part001.executableSchema E).
Proof.
  intros t name d Ht Hd.
  destruct t; try contradiction; each_field Hd; read_only_field.
Qed.

(** ** What a request answers depends on the store alone *)

Lemma resolved_steady A (a : A) : job_steady (resolved a).
Proof. intros w w' H. now split. Qed.

Lemma lift_steady A (c : Completion A) : job_steady (lift c).
Proof. intros w w' H. now split. Qed.

Lemma prisma_read_steady E op : job_steady (prisma_read E op).
Proof. intros w w' H. unfold prisma_read; simpl. now rewrite H. Qed.

Lemma prisma_write_steady E op : job_steady (prisma_write E op).
Proof. intros w w' H. unfold prisma_write; simpl. now rewrite H. Qed.

Lemma await_steady A B (j : Job A) (k : A -> Job B) :
  job_steady j -> (forall a, job_steady (k a)) -> job_steady (await j k).
Proof.
  intros Hj Hk w w' H. unfold await.
  destruct (Hj w w' H) as [H1 H2].
  destruct (j w) as [[a|m] w1], (j w') as [[a'|m'] w1']; simpl in *;
    try discriminate; inversion H1; subst.
  - now apply Hk.
  - now split.
Qed.

Create HintDb steady.
#[export] Hint Resolve resolved_steady lift_steady prisma_read_steady
  prisma_write_steady : steady.
#[export] Hint Extern 2 (job_steady (await _ _)) =>
  apply await_steady; [|intro] : steady.

Ltac agreed :=
  repeat split; cbn [value errs world];
  try (intros ?Hp;
       repeat match goal with
              | R : _ = _ -> _ |- _ => specialize (R ltac:(congruence))
              end);
  congruence.

Section Steady.

Variable E : Env.
Variable S : Schema.
Hypothesis HS : steady_schema S.

Lemma completeListItems_steady sub t p p' items :
  sub_steady sub ->
  forall i w w', store w = store w' ->
    agree p p' (completeListItems sub t p items i w)
               (completeListItems sub t p' items i w').
Proof.
  intros Hsub.
  induction items as [|item rest IH]; intros i w w' H; simpl.
  - agreed.
  - destruct (nullish item); simpl.
    + destruct (IH (Datatypes.S i) w w' H) as (V & R & W).
      agreed.
    + destruct (Hsub t item (Index i :: p) (Index i :: p') w w' H) as (V1 & R1 & W1).
      destruct (IH (Datatypes.S i) _ _ W1) as (V & R & W).
      agreed.
Qed.

Lemma completeValue_steady sub ty name p p' result w w' :
  sub_steady sub -> store w = store w' ->
  agree p p' (completeValue E sub ty name p result w)
             (completeValue E sub ty name p' result w').
Proof.
  intros Hsub H. unfold completeValue.
  destruct (nullish result); [agreed|].
  destruct ty as [s|t'|t'].
  - destruct (serialize_leaf E s result); agreed.
  - destruct (Hsub t' result p p' w w' H) as (V & R & W).
    unfold completeObjectValue. agreed.
  - destruct result; try agreed.
    destruct (completeListItems_steady sub t' p p' items Hsub 0 w w' H) as (V & R & W).
    agreed.
Qed.

Lemma resolveField_steady sub parent source p p' name args w w' :
  sub_steady sub -> store w = store w' ->
  agree p p' (resolveField E S sub parent source p name args w)
             (resolveField E S sub parent source p' name args w').
Proof.
  intros Hsub H. unfold resolveField.
  destruct (field_def name (fields S parent)) as [d|] eqn:Hd;
    [|agreed].
  assert (Hr : steady (match resolve d with
                       | Some fn => fn
                       | None => defaultFieldResolver name
                       end)).
  { destruct (resolve d) as [fn|] eqn:Hfn; [exact (HS _ _ _ _ Hd Hfn)|].
    intros src a. apply resolved_steady. }
  destruct (Hr source args w w' H) as [H1 H2].
  destruct (match resolve d with Some fn => fn | None => defaultFieldResolver name end
              source args w) as [[result|m] w1];
  destruct (match resolve d with Some fn => fn | None => defaultFieldResolver name end
              source args w') as [[result'|m'] w1'];
    cbn [fst snd] in *; try discriminate; inversion H1; subst.
  - destruct (completeValue_steady sub (ftype d) (type_name parent ++ "." ++ name)
                (Key name :: p) (Key name :: p') result' _ _ Hsub H2) as (V & R & W).
    agreed.
  - agreed.
Qed.

Lemma executeFields_steady_from l :
  Forall (field_steady E S) l ->
  forall t src p p' w w', store w = store w' ->
    agree p p' (executeFields E S t src p l w) (executeFields E S t src p' l w').
Proof.
  induction 1 as [|g rest Hg _ IH]; intros t src p p' w w' H.
  - rewrite !executeFields_nil. agreed.
  - rewrite !executeFields_cons. simpl.
    destruct (Hg t src p p' w w' H) as (V1 & R1 & W1).
    destruct (IH t src p p' _ _ W1) as (V & R & W).
    agreed.
Qed.

Lemma executeField_steady f : field_steady E S f.
Proof.
  induction f as [name args sub IH] using Selection_rect'.
  intros t src p p' w w' H. rewrite !executeField_eq.
  apply resolveField_steady; [|exact H].
  intros t' src' q q' v v' Hv. now apply executeFields_steady_from.
Qed.

Lemma executeFields_steady l t src p p' w w' :
  store w = store w' ->
  agree p p' (executeFields E S t src p l w) (executeFields E S t src p' l w').
Proof.
  apply executeFields_steady_from.
  apply Forall_forall. intros g _. apply executeField_steady.
Qed.

Lemma graphql_steady source w w' :
  store w = store w' ->
  fst (graphql E S source w) = fst (graphql E S source w') /\
  store (snd (graphql E S source w)) = store (snd (graphql E S source w')).
Proof.
  intros H. unfold graphql.
  destruct source as [m|doc]; [now split|].
  destruct (validate E S doc); [|now split].
  unfold execute.
  destruct (operation doc), (mutationType S); simpl; try now split.
  all: match goal with
       | |- context [executeFields E S ?t ?s ?p ?l _] =>
           destruct (executeFields_steady l t s p p w w' H) as (V & R & W)
       end; split; [rewrite V, R by reflexivity; reflexivity|exact W].
Qed.

End Steady.

Ltac resolver_steady fn :=
  let src := fresh "src" in
  let args := fresh "args" in
  intros src args; unfold fn; auto 6 with steady.

Lemma Query_memberTypes_steady E : steady (Query_memberTypes E).
Proof. resolver_steady Query_memberTypes. Qed.

Lemma Query_posts_steady E : steady (Query_posts E).
Proof. resolver_steady Query_posts. Qed.

Lemma Query_users_steady E : steady (Query_users E).
Proof. resolver_steady Query_users. Qed.

Lemma Query_profiles_steady E : steady (Query_profiles E).
Proof. resolver_steady Query_profiles. Qed.

Lemma Query_memberType_steady E : steady (Query_memberType E).
Proof. resolver_steady Query_memberType. Qed.

Lemma Query_post_steady E : steady (Query_post E).
Proof. resolver_steady Query_post. Qed.

Lemma Query_profile_steady E : steady (Query_profile E).
Proof. resolver_steady Query_profile. Qed.

Lemma Part000_Query_user_steady E : steady (Part000.Query_user E).
Proof. resolver_steady Part000.Query_user. Qed.

Lemma Part001_Query_user_steady E : steady (Part001.Query_user E).
Proof. resolver_steady Part001.Query_user. Qed.

Lemma User_userSubscribedTo_steady E : steady (Part001.User_userSubscribedTo E).
Proof. resolver_steady Part001.User_userSubscribedTo. Qed.

Lemma User_subscribedToUser_steady E : steady (Part001.User_subscribedToUser E).
Proof. resolver_steady Part001.User_subscribedToUser. Qed.

Lemma Index_created_steady E m : steady (Index.created E m).
Proof. resolver_steady Index.created. Qed.

Lemma Index_deleted_steady E m : steady (Index.deleted E m).
Proof. resolver_steady Index.deleted. Qed.

Lemma Part001_created_steady E m : steady (Part001.created E m).
Proof. resolver_steady Part001.created. Qed.

Lemma Part001_deleted_steady E m : steady (Part001.deleted E m).
Proof. resolver_steady Part001.deleted. Qed.

Lemma Part001_changed_steady E m : steady (Part001.changed E m).
Proof. resolver_steady Part001.changed. Qed.

Lemma Mutation_subscribeTo_steady E : steady (Part001.Mutation_subscribeTo E).
Proof. resolver_steady Part001.Mutation_subscribeTo. Qed.

Lemma Mutation_unsubscribeFrom_steady E : steady (Part001.Mutation_unsubscribeFrom E).
Proof. resolver_steady Part001.Mutation_unsubscribeFrom. Qed.

#[export] Hint Resolve Query_memberTypes_steady Query_posts_steady Query_users_steady
  Query_profiles_steady Query_memberType_steady Query_post_steady
  Query_profile_steady Part000_Query_user_steady Part001_Query_user_steady
  User_userSubscribedTo_steady User_subscribedToUser_steady Index_created_steady
  Index_deleted_steady Part001_created_steady Part001_deleted_steady
  Part001_changed_steady Mutation_subscribeTo_steady
  Mutation_unsubscribeFrom_steady : steady.

Ltac steady_field Hfn := simpl in Hfn; inversion Hfn; subst; auto with steady.

Lemma Part000_steady E : steady_schema (Part000.executableSchema E).
Proof.
  intros t name d fn Hd Hfn.
  destruct t; each_field Hd; steady_field Hfn.
Qed.

Lemma Index_steady E : steady_schema (Index.executableSchema E).
Proof.
  intros t name d fn Hd Hfn.
  destruct t; each_field Hd; steady_field Hfn.
Qed.

Lemma Part001_steady E : steady_schema (Part001.executableSchema E).
Proof.
  intros t name d fn Hd Hfn.
  destruct t; each_field Hd; steady_field Hfn.
Qed.

(** The handler on a query: reads only, and an answer that depends on the
    store alone. *)
Lemma handler_query_reads E S sels w :
  read_only_schema S ->
  reads_since w (snd (handler E S (Parsed (mkDocument query_ sels)) w)).
Proof.
  intros HS. unfold handler; simpl. now apply graphql_query_reads.
Qed.

Lemma handler_steady E S source w w' :
  steady_schema S -> store w = store w' ->
  fst (handler E S source w) = fst (handler E S source w').
Proof.
  intros HS H. unfold handler; simpl.
  destruct (graphql_steady E S HS source w w' H) as [H1 _]. now rewrite H1.
Qed.

Lemma Part001_route_query_reads E sels w :
  reads_since w (snd (Part001.route E (Parsed (mkDocument query_ sels)) w)).
Proof.
  unfold Part001.route.
  destruct (Part001.preHandler _) as [[body|]|m]; try apply reads_since_refl.
  apply handler_query_reads, Part001_read_only.
Qed.

Lemma Part001_route_steady E source w w' :
  store w = store w' ->
  fst (Part001.route E source w) = fst (Part001.route E source w').
Proof.
  intros H. unfold Part001.route.
  destruct (Part001.preHandler source) as [[body|]|m]; try reflexivity.
  apply handler_steady; [apply Part001_steady|exact H].
Qed.

(** ** C10 and C9: queries do not write, and answer the same twice *)

(** C10.  Every Query-root operation leaves the data store unchanged: in each
    of the three revisions, for every starting world and every selection set
    on the Query root, the store after the request is the store before it,
    and every call the request made to the storage client is a read
    ([findMany] or [findUnique]), never a create, update or delete. *)
Theorem query_root_leaves_store_unchanged (E : Env) (sels : list Selection) (w : World) :
  let q := Parsed (mkDocument query_ sels) in
  reads_since w (snd (Part000.route E q w)) /\
  reads_since w (snd (Index.route E q w)) /\
  reads_since w (snd (Part001.route E q w)).
Proof.
  intros q. split; [|split].
  - apply handler_query_reads, Part000_read_only.
  - apply handler_query_reads, Index_read_only.
  - apply Part001_route_query_reads.
Qed.

(** C9.  Idempotence of queries: in each of the three revisions, sending the
    same query a second time, to the world the first request left behind and
    with the storage collaborator held fixed, is answered with the same
    response (document and error list) as the first time. *)
Theorem same_query_twice_same_response (E : Env) (sels : list Selection) (w : World) :
  let q := Parsed (mkDocument query_ sels) in
  fst (Part000.route E q (snd (Part000.route E q w))) = fst (Part000.route E q w) /\
  fst (Index.route E q (snd (Index.route E q w))) = fst (Index.route E q w) /\
  fst (Part001.route E q (snd (Part001.route E q w))) = fst (Part001.route E q w).
Proof.
  intros q. repeat split.
  - apply handler_steady; [apply Part000_steady|].
    apply (handler_query_reads E _ sels w (Part000_read_only E)).
  - apply handler_steady; [apply Index_steady|].
    apply (handler_query_reads E _ sels w (Index_read_only E)).
  - apply Part001_route_steady. apply Part001_route_query_reads.
Qed.

(** A mutation, by contrast, writes: the store is threaded through the
    request and comes out changed. *)
Example mutation_changes_store :
  fst (Index.route Sample.appending Sample.create_Dan (Sample.fresh Sample.abc))
  = Sent (mkResult (Some (JObj [("createUser", JObj [("id", JStr "D")])])) []) /\
  List.length (Prisma.users
                 (store (snd (Index.route Sample.appending Sample.create_Dan
                                          (Sample.fresh Sample.abc))))) = 4.
Proof. split; vm_compute; reflexivity. Qed.

(** ** C8: a malformed query in part_001 *)

(** The handler always replies. *)
Lemma handler_sends E S source w :
  exists body, fst (handler E S source w) = Sent body.
Proof. unfold handler; simpl. eauto. Qed.

(** C8, at the failing input.  In part_001 the [preHandler] parses the query
    outside any [try]: a request whose query does not parse leaves the route
    as an exception raised to Fastify, not as a reply with an error list. *)
Theorem Part001_malformed_query_raises (E : Env) (m : string) (w : World) :
  Part001.route E (Malformed m) w = (Raised m, w).
Proof. reflexivity. Qed.

(** ** C2: the depth limit of part_001 *)

Lemma list_sum_pos l : 0 < list_sum l <-> Exists (fun x => 0 < x) l.
Proof.
  induction l as [|x l IH]; simpl.
  - split; [lia|]. intros H; inversion H.
  - rewrite Exists_cons, <- IH. lia.
Qed.

Lemma list_max_reaches j l :
  0 < j -> (j <= list_max l <-> Exists (fun x => j <= x) l).
Proof.
  intros Hj. induction l as [|x l IH]; simpl.
  - split; [lia|]. intros H; inversion H.
  - rewrite Exists_cons, <- IH. lia.
Qed.

Lemma Exists_map_iff {A B} (f : A -> B) (P : B -> Prop) l :
  Exists P (map f l) <-> Exists (fun a => P (f a)) l.
Proof.
  induction l as [|a l IH]; simpl.
  - split; intros H; inversion H.
  - now rewrite !Exists_cons, IH.
Qed.

Lemma Exists_iff_Forall {A} (P Q : A -> Prop) l :
  Forall (fun a => P a <-> Q a) l -> (Exists P l <-> Exists Q l).
Proof.
  induction 1 as [|a l Ha _ IH].
  - split; intros H; inversion H.
  - now rewrite !Exists_cons, Ha, IH.
Qed.

(** There is a selection [k] levels below a field exactly when the field
    nests at least [k] deep. *)
Lemma at_level_pos f : forall k, 0 < at_level k f <-> k <= nesting f.
Proof.
  induction f as [name args sub IH] using Selection_rect'.
  intros [|j].
  - simpl. lia.
  - change (at_level (Datatypes.S j) (Field name args sub))
      with (list_sum (map (at_level j) sub)).
    destruct sub as [|g rest]; [simpl; lia|].
    change (nesting (Field name args (g :: rest)))
      with (Datatypes.S (list_max (map nesting (g :: rest)))).
    rewrite list_sum_pos, Exists_map_iff.
    destruct j as [|j'].
    + split; [lia|]. intros _. constructor. destruct g; simpl; lia.
    + rewrite <- Nat.succ_le_mono, list_max_reaches, Exists_map_iff by lia.
      apply Exists_iff_Forall.
      eapply Forall_impl; [|exact IH]. intros a Ha. apply Ha.
Qed.

Lemma selections_at_pos k sels :
  0 < k -> (0 < selections_at k sels <-> k <= depth sels).
Proof.
  intros Hk. unfold selections_at, depth.
  rewrite list_sum_pos, list_max_reaches, !Exists_map_iff by exact Hk.
  apply Exists_iff_Forall, Forall_forall. intros f _. apply at_level_pos.
Qed.

Lemma length_flat_map {A B} (f : A -> list B) l :
  List.length (flat_map f l) = list_sum (map (fun a => List.length (f a)) l).
Proof.
  induction l as [|a l IH]; simpl; [reflexivity|].
  now rewrite length_app, IH.
Qed.

Lemma list_sum_map_ext {A} (f g : A -> nat) l :
  Forall (fun a => f a = g a) l -> list_sum (map f l) = list_sum (map g l).
Proof. induction 1; simpl; congruence. Qed.

(** On a shape over the entity schema the rule reports one error for each
    selection it finds one level below the limit. *)
Lemma reported_length maxDepth name f :
  forall k, plain_shape f = true -> k <= Datatypes.S maxDepth ->
    List.length (reported maxDepth k name f)
    = at_level (Datatypes.S maxDepth - k) f.
Proof.
  induction f as [fname args sub IH] using Selection_rect'.
  intros k Hplain Hk. simpl in Hplain.
  apply andb_prop in Hplain as [Hname Hsub].
  apply negb_true_iff in Hname.
  cbn [reported].
  destruct (Nat.ltb maxDepth k) eqn:Hlt.
  - apply Nat.ltb_lt in Hlt.
    replace (Datatypes.S maxDepth - k) with 0 by lia. reflexivity.
  - apply Nat.ltb_ge in Hlt. rewrite Hname. simpl orb.
    replace (Datatypes.S maxDepth - k) with (Datatypes.S (maxDepth - k)) by lia.
    change (at_level (Datatypes.S (maxDepth - k)) (Field fname args sub))
      with (list_sum (map (at_level (maxDepth - k)) sub)).
    destruct sub as [|g rest]; [reflexivity|].
    rewrite length_flat_map. apply list_sum_map_ext.
    rewrite forallb_forall in Hsub. rewrite Forall_forall in IH |- *.
    intros a Ha. rewrite (IH a Ha (Datatypes.S k)); [|now apply Hsub|lia].
    f_equal.
Qed.

Lemma reports_length maxDepth doc :
  forallb plain_shape (selections doc) = true ->
  List.length (reports maxDepth doc)
  = selections_at (Datatypes.S maxDepth) (selections doc).
Proof.
  intros Hplain. unfold reports, selections_at.
  rewrite length_flat_map. apply list_sum_map_ext.
  rewrite forallb_forall in Hplain. apply Forall_forall. intros f Hf.
  rewrite reported_length; [|now apply Hplain|lia].
  now rewrite Nat.sub_0_r.
Qed.

(** Within the limit the rule reports nothing, whatever the field names. *)
Lemma reported_within maxDepth name f :
  forall k, k + nesting f <= maxDepth ->
    reported maxDepth k name f = [].
Proof.
  induction f as [fname args sub IH] using Selection_rect'.
  intros k Hk. cbn [reported].
  destruct (Nat.ltb maxDepth k) eqn:Hlt; [apply Nat.ltb_lt in Hlt; lia|].
  destruct sub as [|g rest]; [now rewrite orb_true_r|].
  destruct (DepthLimit.ignored fname); [reflexivity|]. simpl orb.
  change (nesting (Field fname args (g :: rest)))
    with (Datatypes.S (list_max (map nesting (g :: rest)))) in Hk.
  assert (Hall : Forall (fun n => n <= list_max (map nesting (g :: rest)))
                        (map nesting (g :: rest)))
    by now apply list_max_le.
  rewrite Forall_map in Hall.
  remember (list_max (map nesting (g :: rest))) as M eqn:HM. clear HM.
  revert IH Hall. generalize (g :: rest) as l.
  induction l as [|a l IHl]; intros IH Hall; [reflexivity|].
  cbn [flat_map]. inversion IH; subst. inversion Hall; subst.
  rewrite H1 by lia. simpl. apply IHl; assumption.
Qed.

Lemma reports_within maxDepth doc :
  depth (selections doc) <= maxDepth -> reports maxDepth doc = [].
Proof.
  unfold depth, reports. intros H.
  assert (Hall : Forall (fun n => n <= maxDepth) (map nesting (selections doc)))
    by now apply list_max_le.
  rewrite Forall_map in Hall. clear H.
  induction Hall as [|f l Hf _ IH]; [reflexivity|].
  cbn [flat_map]. rewrite reported_within by exact Hf. exact IH.
Qed.

(** The walk collects what the rule reports, up to the abort. *)
Lemma determineDepths_eq maxDepth k name g rest errors :
  DepthLimit.determineDepths maxDepth k name (g :: rest) errors
  = cbind (DepthLimit.determineDepth maxDepth k name g errors)
          (DepthLimit.determineDepths maxDepth k name rest).
Proof. reflexivity. Qed.

Lemma determineDepth_eq maxDepth k name fname args sub errors :
  DepthLimit.determineDepth maxDepth k name (Field fname args sub) errors
  = if Nat.ltb maxDepth k then reportError (DepthLimit.exceeds name maxDepth) errors
    else if DepthLimit.ignored fname || match sub with [] => true | _ => false end
    then Returned errors
    else DepthLimit.determineDepths maxDepth (Datatypes.S k) name sub errors.
Proof. reflexivity. Qed.

Lemma determineDepths_collect maxDepth k name l :
  Forall (fun g => forall errors,
            List.length errors <= maxErrors ->
            DepthLimit.determineDepth maxDepth k name g errors
            = collect (errors ++ reported maxDepth k name g)) l ->
  forall errors,
    List.length errors <= maxErrors ->
    DepthLimit.determineDepths maxDepth k name l errors
    = collect (errors ++ flat_map (reported maxDepth k name) l).
Proof.
  induction 1 as [|g rest Hg _ IH]; intros errors Hlen.
  - cbn [DepthLimit.determineDepths flat_map]. rewrite app_nil_r.
    unfold collect. apply Nat.leb_le in Hlen. now rewrite Hlen.
  - rewrite determineDepths_eq, (Hg errors Hlen). cbn [flat_map].
    unfold collect at 1.
    destruct (Nat.leb (List.length (errors ++ reported maxDepth k name g)) maxErrors)
      eqn:Hfit.
    + cbn [cbind]. apply Nat.leb_le in Hfit.
      rewrite (IH _ Hfit). now rewrite app_assoc.
    + cbn [cbind]. apply Nat.leb_gt in Hfit. unfold collect.
      replace (Nat.leb _ maxErrors) with false; [reflexivity|].
      symmetry. apply Nat.leb_gt. rewrite !length_app in *. lia.
Qed.

Lemma determineDepth_collect maxDepth name g :
  forall k errors,
    List.length errors <= maxErrors ->
    DepthLimit.determineDepth maxDepth k name g errors
    = collect (errors ++ reported maxDepth k name g).
Proof.
  induction g as [fname args sub IH] using Selection_rect'.
  intros k errors Hlen. rewrite determineDepth_eq. cbn [reported].
  destruct (Nat.ltb maxDepth k).
  - unfold reportError, collect. rewrite length_app. cbn [List.length].
    destruct (Nat.leb maxErrors (List.length errors)) eqn:Hfull.
    + apply Nat.leb_le in Hfull.
      replace (Nat.leb _ maxErrors) with false; [reflexivity|].
      symmetry. apply Nat.leb_gt. lia.
    + apply Nat.leb_gt in Hfull.
      replace (Nat.leb _ maxErrors) with true; [reflexivity|].
      symmetry. apply Nat.leb_le. lia.
  - destruct (DepthLimit.ignored fname || match sub with [] => true | _ => false end).
    + rewrite app_nil_r. unfold collect. apply Nat.leb_le in Hlen. now rewrite Hlen.
    + apply determineDepths_collect; [|exact Hlen].
      eapply Forall_impl; [|exact IH]. intros g Hg. apply Hg.
Qed.

Lemma depthLimit_collect maxDepth doc :
  DepthLimit.depthLimit maxDepth doc = collect (reports maxDepth doc).
Proof.
  unfold DepthLimit.depthLimit, reports.
  rewrite determineDepths_collect; [reflexivity| |cbn; unfold maxErrors; lia].
  apply Forall_forall. intros g _. apply determineDepth_collect.
Qed.




(** Beyond the error limit of [validate]: 101 selections at depth 6 make the
    [preHandler] of part_001 throw, and the request is not answered with a
    rejection; nothing has been fetched. *)
Example many_deep_selections_abort :
  selections_at 6 six_deep_many = 101 /\
  Part001.route Sample.calm (Sample.query six_deep_many) (Sample.fresh Sample.abc)
  = (Raised abortObj, Sample.fresh Sample.abc).
Proof. split; vm_compute; reflexivity. Qed.

(** ** C6: what is not there is null, or an empty list, and no error *)

Lemma strict_eqb_str v u : strict_eqb v (JStr u) = true <-> v = JStr u.
Proof.
  destruct v; simpl; try (split; [discriminate|intros H; inversion H]).
  rewrite String.eqb_eq. split; congruence.
Qed.

Lemma find_absent d m u :
  absent d m u ->
  find (fun row => strict_eqb (prop "id" (JObj row)) (JStr u)) (Prisma.table d m) = None.
Proof.
  unfold absent. induction 1 as [|row rows Hrow _ IH]; [reflexivity|].
  simpl. destruct (strict_eqb _ _) eqn:Heq; [|exact IH].
  apply strict_eqb_str in Heq. contradiction.
Qed.

Lemma findUnique_absent E d m u i cs :
  answers_all E -> absent d m u ->
  prisma_read E (Prisma.findUnique m (JStr u) i) (mkWorld d cs)
  = (Returned JNull, mkWorld d (cs ++ [Read (Prisma.findUnique m (JStr u) i)])).
Proof.
  intros HE Habs. unfold prisma_read, Prisma.answer. rewrite HE.
  cbn [store calls nullish]. now rewrite (find_absent d m u Habs).
Qed.

(** A root lookup of an absent id, run by the executor of any revision whose
    field [name] is one of the plain lookups. *)
Lemma executeFields_absent E S name u sub w r :
  (exists d, field_def name (fields S Query) = Some d /\ resolve d = Some r) ->
  (exists w', r JUndefined [("id", JStr u)] w = (Returned JNull, w')) ->
  value (executeFields E S Query JUndefined [] [Field name [("id", JStr u)] sub] w)
    = [(name, JNull)] /\
  errs (executeFields E S Query JUndefined [] [Field name [("id", JStr u)] sub] w) = [].
Proof.
  intros (d & Hd & Hr) (w' & Hrun).
  rewrite executeFields_cons. cbv zeta.
  rewrite executeField_eq, executeFields_nil.
  unfold resolveField. rewrite Hd, Hr, Hrun.
  unfold completeValue. simpl. now split.
Qed.

Lemma graphql_absent E S name u sub w r :
  validate E S (by_id name u sub) = [] ->
  (exists d, field_def name (fields S Query) = Some d /\ resolve d = Some r) ->
  (exists w', r JUndefined [("id", JStr u)] w = (Returned JNull, w')) ->
  fst (graphql E S (Parsed (by_id name u sub)) w)
  = mkResult (Some (JObj [(name, JNull)])) [].
Proof.
  intros Hvalid Hd Hrun. unfold graphql. rewrite Hvalid.
  unfold execute. cbn [operation by_id selections root_type].
  destruct (executeFields_absent E S name u sub w r Hd Hrun) as [Hv He].
  destruct (mutationType S); cbn [fst]; now rewrite Hv, He.
Qed.

Lemma Part000_Query_user_absent E u w :
  answers_all E -> absent (store w) Prisma.user u ->
  exists w', Part000.Query_user E JUndefined [("id", JStr u)] w = (Returned JNull, w').
Proof.
  intros HE Habs. destruct w as [d cs]. eexists.
  unfold Part000.Query_user, await.
  cbn [prop assoc String.eqb Ascii.eqb Bool.eqb].
  rewrite (findUnique_absent E d Prisma.user u _ cs HE Habs).
  reflexivity.
Qed.

Lemma plain_lookup_absent E m u w :
  answers_all E -> absent (store w) m u ->
  exists w', prisma_read E (Prisma.findUnique m (JStr u) Prisma.plain) w
             = (Returned JNull, w').
Proof.
  intros HE Habs. destruct w as [d cs]. eexists.
  now apply findUnique_absent.
Qed.

Lemma Part001_Query_user_absent E u w :
  answers_all E -> absent (store w) Prisma.user u ->
  exists w', Part001.Query_user E JUndefined [("id", JStr u)] w = (Returned JNull, w').
Proof.
  intros HE Habs. destruct w as [d cs]. eexists.
  now apply findUnique_absent.
Qed.

(** The relation lookups of part_001 on a user without edges. *)
Lemma findMany_no_edge E d rel col u cs :
  answers_all E ->
  (exists r, Prisma.relation Prisma.user rel = Some r /\
             Prisma.rel_target r = Prisma.subscribersOnAuthors) ->
  no_edge d col u ->
  prisma_read E (Prisma.findMany Prisma.user (Prisma.Some_ rel col (JStr u)) Prisma.plain)
              (mkWorld d cs)
  = (Returned (JArr []),
     mkWorld d (cs ++ [Read (Prisma.findMany Prisma.user
                               (Prisma.Some_ rel col (JStr u)) Prisma.plain)])).
Proof.
  intros HE (r & Hr & Ht) Hno. unfold prisma_read, Prisma.answer. rewrite HE.
  cbn [store calls]. do 3 f_equal.
  assert (Hnone : filter (Prisma.satisfies d Prisma.user (Prisma.Some_ rel col (JStr u)))
                         (Prisma.table d Prisma.user) = []).
  { induction (Prisma.table d Prisma.user) as [|row rows IH]; [reflexivity|].
    cbn [filter]. rewrite IH.
    replace (Prisma.satisfies d Prisma.user (Prisma.Some_ rel col (JStr u)) row)
      with false; [reflexivity|].
    unfold Prisma.satisfies. rewrite Hr. symmetry.
    apply not_true_is_false. intros Hex.
    apply existsb_exists in Hex as (t & Hin & Heq).
    apply strict_eqb_str in Heq.
    unfold Prisma.related in Hin. apply filter_In in Hin as [Hin _].
    rewrite Ht in Hin. cbn [Prisma.table] in Hin.
    unfold no_edge in Hno. rewrite Forall_forall in Hno.
    exact (Hno t Hin Heq). }
  now rewrite Hnone.
Qed.

Lemma relation_field_no_edge E rel col u sub source p w r name :
  answers_all E ->
  (exists rl, Prisma.relation Prisma.user rel = Some rl /\
              Prisma.rel_target rl = Prisma.subscribersOnAuthors) ->
  field_def name (fields (Part001.executableSchema E) User)
    = Some (mkField (ListOf User) [] (Some r)) ->
  (forall src args,
     r src args = await (lift (member "id" src))
                        (fun id => prisma_read E (Prisma.findMany Prisma.user
                                                    (Prisma.Some_ rel col id)
                                                    Prisma.plain))) ->
  prop "id" source = JStr u ->
  no_edge (store w) col u ->
  value (executeField E (Part001.executableSchema E) User source p
           (Field name [] sub) w) = Some (name, JArr []) /\
  errs (executeField E (Part001.executableSchema E) User source p
          (Field name [] sub) w) = [].
Proof.
  intros HE Hrel Hd Hr Hid Hno. destruct w as [d cs].
  rewrite executeField_eq. unfold resolveField. rewrite Hd.
  cbn [resolve ftype]. rewrite Hr. unfold await, lift, member.
  assert (Hsrc : nullish source = false) by (destruct source; try discriminate; reflexivity).
  rewrite Hsrc, Hid.
  rewrite (findMany_no_edge E d rel col u cs HE Hrel Hno).
  unfold completeValue. cbn. now split.
Qed.

Lemma assoc_app k l l' :
  assoc k (l ++ l') = match assoc k l with Some v => Some v | None => assoc k l' end.
Proof.
  induction l as [|[k' v] l IH]; [reflexivity|].
  cbn [app assoc]. now destruct (String.eqb k k').
Qed.

(** The posts Prisma includes for a user who has none. *)
Lemma load_no_posts d row :
  assoc "posts" row = None -> no_posts d row ->
  prop "posts" (Prisma.load d Prisma.user (Prisma.Inc profile_and_posts) row) = JArr [].
Proof.
  intros Hcol Hno. cbn [Prisma.load profile_and_posts]. unfold prop.
  rewrite assoc_app, Hcol.
  cbn [Prisma.relation String.eqb Ascii.eqb Bool.eqb assoc Prisma.rel_many
       Prisma.rel_target].
  replace (Prisma.related d (Prisma.mkRel Prisma.post true "id" "authorId") row)
    with (@nil Prisma.Row); [reflexivity|].
  unfold Prisma.related. cbn [Prisma.rel_target Prisma.rel_there Prisma.rel_here
                              Prisma.table].
  unfold no_posts in Hno. symmetry.
  induction Hno as [|t ts Ht _ IH]; [reflexivity|].
  cbn [filter]. now rewrite Ht.
Qed.

Lemma posts_field_no_posts E S row sub p w :
  field_def "posts" (fields S User) = Some (mkField (ListOf Post) [] None) ->
  assoc "posts" row = None -> no_posts (store w) row ->
  let r := executeField E S User
             (Prisma.load (store w) Prisma.user (Prisma.Inc profile_and_posts) row)
             p (Field "posts" [] sub) w in
  value r = Some ("posts", JArr []) /\ errs r = [].
Proof.
  intros Hd Hcol Hno r. subst r.
  rewrite executeField_eq. unfold resolveField. rewrite Hd.
  cbn [resolve ftype]. unfold defaultFieldResolver, resolved.
  rewrite (load_no_posts (store w) row Hcol Hno).
  unfold completeValue. cbn. now split.
Qed.

Lemma Part001_route_within E doc w :
  depth (selections doc) <= 5 ->
  Part001.route E (Parsed doc) w
  = handler E (Part001.executableSchema E) (Parsed doc) w.
Proof.
  intros H. unfold Part001.route, Part001.preHandler.
  rewrite depthLimit_collect. now rewrite (reports_within 5 doc H).
Qed.

(** A relation that nothing loads. *)

Lemma filter_everything d m rows :
  filter (Prisma.satisfies d m Prisma.Everything) rows = rows.
Proof.
  induction rows as [|row rows IH]; [reflexivity|]. cbn. now rewrite IH.
Qed.

Lemma load_is_object d m i row : nullish (Prisma.load d m i row) = false.
Proof. now destruct i. Qed.

Lemma load_plain d m row : Prisma.load d m Prisma.plain row = JObj row.
Proof. cbn. now rewrite app_nil_r. Qed.

Lemma unloaded_items E S t f sub p items :
  (exists d, field_def f (fields S t) = Some d /\ resolve d = None) ->
  Forall (fun x => nullish x = false /\ nullish (prop f x) = true) items ->
  forall i w,
    completeListItems (fun t src q => executeFields E S t src q [Field f [] sub])
                      t p items i w
    = mkDone (map (fun _ => JObj [(f, JNull)]) items) [] w.
Proof.
  intros (d & Hd & Hnone) Hitems.
  induction Hitems as [|x rest [Hx Hf] _ IH]; intros i w; [reflexivity|].
  cbn [completeListItems]. cbv zeta. rewrite Hx.
  unfold completeObjectValue.
  rewrite executeFields_cons. cbv zeta.
  rewrite executeField_eq, executeFields_nil.
  unfold resolveField. rewrite Hd, Hnone.
  unfold defaultFieldResolver, resolved, completeValue. rewrite Hf.
  cbn [value errs world keep app map]. now rewrite IH.
Qed.

Lemma loaded_without d m i f rows :
  (forall row, assoc f row = None -> prop f (Prisma.load d m i row) = JUndefined) ->
  Forall (fun row => assoc f row = None) rows ->
  Forall (fun x => nullish x = false /\ nullish (prop f x) = true)
         (map (Prisma.load d m i) rows).
Proof.
  intros Hload Hrows. apply Forall_map.
  eapply Forall_impl; [|exact Hrows].
  intros row Hrow. split; [apply load_is_object|].
  now rewrite Hload.
Qed.

Lemma plain_without d m f row :
  assoc f row = None -> prop f (Prisma.load d m Prisma.plain row) = JUndefined.
Proof. intros H. rewrite load_plain. unfold prop. now rewrite H. Qed.

Lemma users_without d f row :
  In f relation_fields -> assoc f row = None ->
  prop f (Prisma.load d Prisma.user (Prisma.Inc profile_and_posts) row) = JUndefined.
Proof.
  intros Hf H. cbn [Prisma.load profile_and_posts]. unfold prop.
  rewrite assoc_app, H.
  destruct Hf as [<-|[<-|[]]]; reflexivity.
Qed.

Lemma unloaded_run E S name m f sub w :
  In (name, m, f) unloaded ->
  S = Index.executableSchema E \/ S = Part000.executableSchema E \/
  (S = Part001.executableSchema E /\ ~ In f relation_fields) ->
  fails E (all_of m) = false ->
  Forall (fun row => assoc f row = None) (Prisma.table (store w) m) ->
  executeFields E S Query JUndefined [] [Field name [] [Field f [] sub]] w
  = mkDone [(name, JArr (map (fun _ => JObj [(f, JNull)])
                             (Prisma.table (store w) m)))] []
           (mkWorld (store w) (calls w ++ [Read (all_of m)])).
Proof.
  intros Hin HS HE Hrows.
  rewrite executeFields_cons. cbv zeta.
  rewrite executeField_eq, executeFields_nil. unfold resolveField.
  simpl in Hin.
  destruct Hin as [H|[H|[H|[H|[H|[H|[]]]]]]]; inversion H; subst name m f; clear H.
  all: destruct HS as [->|[->|[-> Hf]]]; try (exfalso; apply Hf; simpl; now auto).
  all: cbn [Index.executableSchema Part000.executableSchema Part001.executableSchema
            fields Part000.Query_root Part001.Query_root Query_fields field_def
            String.eqb Ascii.eqb Bool.eqb resolve ftype].
  all: unfold Query_memberTypes, Query_posts, Query_users, Query_profiles, prisma_read.
  all: unfold all_of in HE; rewrite HE; unfold Prisma.answer; rewrite filter_everything.
  all: unfold completeValue; cbn [nullish]; cbv zeta.
  all: rewrite unloaded_items;
    [ cbn [value errs world keep app]; now rewrite map_map
    | eexists; split; reflexivity
    | apply loaded_without; [|exact Hrows];
      first [ apply plain_without
            | intros row; apply users_without; simpl; now auto ] ].
Qed.

(** C6, as the code has it.  Absence is not an error.  With a storage
    engine that answers:
    (a) in each of the three revisions, a valid request for a single entity
    ([memberType], [post], [user] or [profile]) by an id that no row of the
    store has is answered with [null] at that node and an empty error list;
    (b) the relation lookups ([userSubscribedTo], [subscribedToUser] of
    part_001) on a user that has no subscription edge at its end resolve to
    the empty sequence, again without an error;
    (c) in each revision, the [posts] of a user loaded by [Query.users], who
    has no post, are the empty sequence as well;
    (d) a relation that neither a resolver nor the [include] of the list
    query above it loads is not looked up at all: it is [null] on every
    item, not the empty sequence, whether or not anything is related
    ([profiles] under [memberTypes] in every revision, the two subscription
    fields under [users] in index.ts and part_000). *)
Theorem absent_resolves_to_null_or_empty (E : Env) (w : World) (u : string) :
  answers_all E ->
  (forall name m sub,
     In (name, m) single_lookups ->
     absent (store w) m u ->
     let doc := by_id name u sub in
     let answer := Sent (mkResult (Some (JObj [(name, JNull)])) []) in
     (validate E (Part000.executableSchema E) doc = [] ->
      fst (Part000.route E (Parsed doc) w) = answer) /\
     (validate E (Index.executableSchema E) doc = [] ->
      fst (Index.route E (Parsed doc) w) = answer) /\
     (validate E (Part001.executableSchema E) doc = [] ->
      depth (selections doc) <= 5 ->
      fst (Part001.route E (Parsed doc) w) = answer)) /\
  (forall source p sub,
     prop "id" source = JStr u ->
     (no_edge (store w) "subscriberId" u ->
      let r := executeField E (Part001.executableSchema E) User source p
                            (Field "userSubscribedTo" [] sub) w in
      value r = Some ("userSubscribedTo", JArr []) /\ errs r = []) /\
     (no_edge (store w) "authorId" u ->
      let r := executeField E (Part001.executableSchema E) User source p
                            (Field "subscribedToUser" [] sub) w in
      value r = Some ("subscribedToUser", JArr []) /\ errs r = [])) /\
  (forall S row p sub,
     In S [Part000.executableSchema E; Index.executableSchema E;
           Part001.executableSchema E] ->
     assoc "posts" row = None ->
     no_posts (store w) row ->
     let r := executeField E S User
                (Prisma.load (store w) Prisma.user (Prisma.Inc profile_and_posts) row)
                p (Field "posts" [] sub) w in
     value r = Some ("posts", JArr []) /\ errs r = []) /\
  (forall S name m f sub,
     In (name, m, f) unloaded ->
     S = Index.executableSchema E \/ S = Part000.executableSchema E \/
     (S = Part001.executableSchema E /\ ~ In f relation_fields) ->
     Forall (fun row => assoc f row = None) (Prisma.table (store w) m) ->
     let r := executeFields E S Query JUndefined [] (selections (through name f sub)) w in
     value r = [(name, JArr (map (fun _ => JObj [(f, JNull)])
                                 (Prisma.table (store w) m)))] /\
     errs r = []).
Proof.
  intros HE. split; [|split; [|split]].
  - intros name m sub Hin Habs doc answer.
    assert (H000 : exists r,
               (exists d, field_def name (fields (Part000.executableSchema E) Query)
                          = Some d /\ resolve d = Some r) /\
               (exists w', r JUndefined [("id", JStr u)] w = (Returned JNull, w'))).
    { simpl in Hin.
      destruct Hin as [H|[H|[H|[H|[]]]]]; inversion H; subst; eexists; split;
        try (eexists; split; reflexivity);
        first [ now apply plain_lookup_absent
              | now apply Part000_Query_user_absent ]. }
    assert (H001 : exists r,
               (exists d, field_def name (fields (Part001.executableSchema E) Query)
                          = Some d /\ resolve d = Some r) /\
               (exists w', r JUndefined [("id", JStr u)] w = (Returned JNull, w'))).
    { simpl in Hin.
      destruct Hin as [H|[H|[H|[H|[]]]]]; inversion H; subst; eexists; split;
        try (eexists; split; reflexivity);
        first [ now apply plain_lookup_absent
              | now apply Part001_Query_user_absent ]. }
    destruct H000 as (r0 & Hd0 & Hrun0). destruct H001 as (r1 & Hd1 & Hrun1).
    subst doc answer. split; [|split].
    + intros Hvalid. unfold Part000.route, handler. cbn [fst].
      now rewrite (graphql_absent E _ name u sub w r0 Hvalid Hd0 Hrun0).
    + intros Hvalid. unfold Index.route, handler. cbn [fst].
      now rewrite (graphql_absent E (Index.executableSchema E) name u sub w r0
                     Hvalid Hd0 Hrun0).
    + intros Hvalid Hdepth. rewrite (Part001_route_within E _ w Hdepth).
      unfold handler. cbn [fst].
      now rewrite (graphql_absent E _ name u sub w r1 Hvalid Hd1 Hrun1).
  - intros source p sub Hid. split; intros Hno r.
    + apply (relation_field_no_edge E "subscribedToUser" "subscriberId" u sub source p w
               (Part001.User_userSubscribedTo E) "userSubscribedTo" HE);
        try assumption; try reflexivity.
      eexists; split; reflexivity.
    + apply (relation_field_no_edge E "userSubscribedTo" "authorId" u sub source p w
               (Part001.User_subscribedToUser E) "subscribedToUser" HE);
        try assumption; try reflexivity.
      eexists; split; reflexivity.
  - intros S row p sub HS Hcol Hno.
    apply posts_field_no_posts; try assumption.
    destruct HS as [<-|[<-|[<-|[]]]]; reflexivity.
  - intros S name m f sub Hin HS Hrows r. subst r.
    unfold through. cbn [selections].
    rewrite (unloaded_run E S name m f sub w Hin HS (HE _) Hrows).
    now split.
Qed.

Lemma absent_resolves_witness :
  answers_all Sample.calm /\
  (let doc := by_id "user" "Z" [Sample.leaf "id"] in
   let answer := Sent (mkResult (Some (JObj [("user", JNull)])) []) in
   fst (Part000.route Sample.calm (Parsed doc) (Sample.fresh Sample.abc)) = answer /\
   fst (Index.route Sample.calm (Parsed doc) (Sample.fresh Sample.abc)) = answer /\
   fst (Part001.route Sample.calm (Parsed doc) (Sample.fresh Sample.abc)) = answer) /\
  (let r := executeField Sample.calm (Part001.executableSchema Sample.calm) User
                         (JObj (Sample.a_user "Z" "Zoe")) []
                         (Field "userSubscribedTo" [] [Sample.leaf "id"])
                         (Sample.fresh Sample.abc) in
   value r = Some ("userSubscribedTo", JArr []) /\ errs r = []).
Proof.
  assert (HE : answers_all Sample.calm) by (intros op; reflexivity).
  destruct (absent_resolves_to_null_or_empty
              Sample.calm (Sample.fresh Sample.abc) "Z" HE) as (Ha & Hb & _).
  split; [exact HE|]. split.
  - assert (Hin : In ("user", Prisma.user) single_lookups)
      by (simpl; auto).
    assert (Habs : absent (store (Sample.fresh Sample.abc)) Prisma.user "Z")
      by (unfold absent; simpl; repeat constructor; discriminate).
    destruct (Ha "user" Prisma.user [Sample.leaf "id"] Hin Habs) as (H0 & H1 & H2).
    cbv zeta. split; [|split].
    + apply H0. reflexivity.
    + apply H1. reflexivity.
    + apply H2; [reflexivity|]. vm_compute. lia.
  - destruct (Hb (JObj (Sample.a_user "Z" "Zoe")) [] [Sample.leaf "id"] eq_refl)
      as [H _].
    apply H. unfold no_edge; simpl; repeat constructor; discriminate.
Defined.

(** C6 as stated fails in its second half: a to-many relation with nothing
    on the other side is not always the empty sequence.  In part_001 the
    [profiles] of a member type that no profile refers to are [null]; in
    index.ts the [userSubscribedTo] of a user who is subscribed to nobody is
    [null] (as it is for every user). *)
Lemma to_many_relation_counterexample :
  Prisma.profiles one_tier = [] /\
  fst (Part001.route Sample.calm
         (Parsed (through "memberTypes" "profiles" [Sample.leaf "id"]))
         (Sample.fresh one_tier))
  = Sent (mkResult
            (Some (JObj [("memberTypes", JArr [JObj [("profiles", JNull)]])])) []) /\
  no_edge Sample.abc "subscriberId" "C" /\
  fst (Index.route Sample.calm
         (Parsed (through "users" "userSubscribedTo" [Sample.leaf "id"]))
         (Sample.fresh Sample.abc))
  = Sent (mkResult
            (Some (JObj [("users", JArr [ JObj [("userSubscribedTo", JNull)];
                                          JObj [("userSubscribedTo", JNull)];
                                          JObj [("userSubscribedTo", JNull)] ])])) []) /\
  JNull <> JArr [].
Proof.
  split; [reflexivity|]. split; [vm_compute; reflexivity|].
  split; [unfold no_edge; simpl; repeat constructor; discriminate|].
  split; [vm_compute; reflexivity|discriminate].
Qed.

(** ** C4: two levels of [userSubscribedTo] *)

(** C4, as the code has it.  In part_001, where [User.userSubscribedTo] has
    a resolver of its own: on a store with users a, b, c (distinct ids that
    [UUIDType] accepts and serializes as they are) in which a is subscribed
    to b and b to c, and a storage engine that answers, the query for a's
    [userSubscribedTo], two levels down, is answered with
    [[{ id: b, userSubscribedTo: [{ id: c }] }]] and no error. *)
Theorem two_levels_of_userSubscribedTo
    (E : Env) (a b c : string) (ra rb rc : Prisma.Row)
    (mts ps pfs : list Prisma.Row) (cs : list Call) :
  answers_all E ->
  accepts E (ArgScalar UUID) (JStr a) = true ->
  serializes_id E b -> serializes_id E c ->
  a <> b -> b <> c -> a <> c ->
  fst (Part001.route E (Parsed (two_levels a))
         (mkWorld (two_hops a b c ra rb rc mts ps pfs) cs))
  = Sent (mkResult
            (Some (JObj [("user", JObj [("userSubscribedTo",
               JArr [JObj [("id", JStr b);
                           ("userSubscribedTo", JArr [JObj [("id", JStr c)]])]])])]))
            []).
Proof.
  intros HE Hacc Hb Hc Hab Hbc Hac. unfold serializes_id in Hb, Hc.
  assert (Eab : (a =? b) = false) by now apply String.eqb_neq.
  assert (Eba : (b =? a) = false) by (apply String.eqb_neq; congruence).
  assert (Ebc : (b =? c) = false) by now apply String.eqb_neq.
  assert (Ecb : (c =? b) = false) by (apply String.eqb_neq; congruence).
  assert (Eac : (a =? c) = false) by now apply String.eqb_neq.
  assert (Eca : (c =? a) = false) by (apply String.eqb_neq; congruence).
  rewrite Part001_route_within by (vm_compute; lia).
  unfold handler, graphql, two_levels, by_id, two_hops, user_row, edge.
  cbn [fst].
  with_strategy transparent [executeField executeFields]
    (repeat (progress (cbn; unfold prisma_read;
                       rewrite ?Hacc, ?HE, ?Hb, ?Hc, ?String.eqb_refl,
                               ?Eab, ?Eba, ?Ebc, ?Ecb, ?Eac, ?Eca))).
  reflexivity.
Qed.

Lemma two_levels_witness :
  answers_all Sample.calm /\
  fst (Part001.route Sample.calm (Parsed (two_levels "A"))
         (mkWorld (two_hops "A" "B" "C" [] [] [] [] [] []) []))
  = Sent (mkResult
            (Some (JObj [("user", JObj [("userSubscribedTo",
               JArr [JObj [("id", JStr "B");
                           ("userSubscribedTo", JArr [JObj [("id", JStr "C")]])]])])]))
            []).
Proof.
  assert (HE : answers_all Sample.calm) by (intros op; reflexivity).
  split; [exact HE|].
  apply (two_levels_of_userSubscribedTo Sample.calm "A" "B" "C" [] [] [] [] [] [] []
           HE eq_refl eq_refl eq_refl);
    discriminate.
Defined.

(** C4 as stated fails in index.ts, where [Query.user] reshapes the entry:
    an item of [userSubscribedTo] carries its id and [subscribedToUser], so
    the inner [userSubscribedTo] of the two-level query is [null], not
    [[{ id: C }]]. *)
Lemma two_levels_counterexample :
  fst (Index.route Sample.calm (Parsed (two_levels "A")) (Sample.fresh Sample.abc))
  = Sent (mkResult
            (Some (JObj [("user", JObj [("userSubscribedTo",
               JArr [JObj [("id", JStr "B"); ("userSubscribedTo", JNull)]])])]))
            []) /\
  fst (Index.route Sample.calm (Parsed (two_levels "A")) (Sample.fresh Sample.abc))
  <> Sent (mkResult
             (Some (JObj [("user", JObj [("userSubscribedTo",
                JArr [JObj [("id", JStr "B");
                            ("userSubscribedTo", JArr [JObj [("id", JStr "C")]])]])])]))
             []).
Proof.
  split; [vm_compute; reflexivity|]. vm_compute. discriminate.
Qed.

(** ** C7: the document mirrors a valid query *)

Lemma seg_eqb_eq a b : seg_eqb a b = true <-> a = b.
Proof.
  destruct a, b; simpl; try (split; [discriminate|intros H; inversion H]).
  - rewrite String.eqb_eq. split; congruence.
  - rewrite Nat.eqb_eq. split; congruence.
Qed.

Lemma path_eqb_eq p : forall q, path_eqb p q = true <-> p = q.
Proof.
  induction p as [|a p IH]; intros [|b q]; simpl;
    try (split; [discriminate|intros H; inversion H]); [tauto|].
  rewrite andb_true_iff, seg_eqb_eq, IH. split.
  - intros [-> ->]. reflexivity.
  - intros H. inversion H. now split.
Qed.

Lemma hit_iff es q : hit es q = true <-> exists e, In e es /\ path e = Some q.
Proof.
  unfold hit. rewrite existsb_exists. split.
  - intros (e & Hin & He). exists e. split; [exact Hin|].
    destruct (path e) as [q'|]; [|discriminate].
    apply path_eqb_eq in He. now subst.
  - intros (e & Hin & He). exists e. split; [exact Hin|].
    rewrite He. now apply path_eqb_eq.
Qed.

Lemma JV_rect' (P : JV -> Prop) :
  P JUndefined -> P JNull -> (forall b, P (JBool b)) -> (forall q, P (JNum q)) ->
  (forall s, P (JStr s)) ->
  (forall items, Forall P items -> P (JArr items)) ->
  (forall ps, Forall (fun kv => P (snd kv)) ps -> P (JObj ps)) ->
  forall v, P v.
Proof.
  intros Hu Hn Hb Hq Hs Ha Ho.
  fix IH 1.
  intros [| |b|q|s|items|ps];
    [exact Hu|exact Hn|apply Hb|apply Hq|apply Hs| |].
  - apply Ha. induction items as [|x rest IHrest]; constructor; [apply IH|exact IHrest].
  - apply Ho. induction ps as [|[k x] rest IHrest]; constructor;
      [apply IH|exact IHrest].
Qed.

Lemma field_mirrors_eq name args sub v :
  field_mirrors (Field name args sub) v =
  match sub with
  | [] => true
  | _ =>
      match v with
      | JNull => true
      | JArr items =>
          forallb (fun x => match x with
                            | JNull => true
                            | JObj ps => object_mirrors sub ps
                            | _ => false
                            end) items
      | JObj ps => object_mirrors sub ps
      | _ => false
      end
  end.
Proof.
  destruct sub as [|g rest]; [reflexivity|].
  destruct v; try reflexivity.
  cbn [field_mirrors]. induction items as [|x xs IHx]; [reflexivity|].
  cbn [forallb]. rewrite IHx. f_equal. destruct x; reflexivity.
Qed.

Lemma validate_field_eq E S parent name args sub :
  validate_field E S parent (Field name args sub) =
  match field_def name (fields S parent) with
  | None =>
      [invalid ("Cannot query field " ++ quoted name ++ " on type "
                ++ quoted (type_name parent) ++ ".")]
  | Some d =>
      validate_args E parent name (fargs d) args ++
      match ftype d, sub with
      | Leaf _, [] => []
      | Leaf s, _ :: _ =>
          [invalid ("Field " ++ quoted name ++ " must not have a selection since type "
                    ++ quoted (scalar_name s) ++ " has no subfields.")]
      | (Object t | ListOf t), [] =>
          [invalid ("Field " ++ quoted name ++ " of type " ++ quoted (out_name (ftype d))
                    ++ " must have a selection of subfields.")]
      | (Object t | ListOf t), _ :: _ => validate_fields E S t sub
      end
  end.
Proof. reflexivity. Qed.

Section Mirror.

Variable E : Env.
Variable S : Schema.

Lemma completeListItems_mirrors sub sels t p items :
  sub_mirrors E S sub sels -> validate_fields E S t sels = [] ->
  forall i w,
    forallb (item_mirrors sels) (value (completeListItems sub t p items i w)) = true /\
    Forall located_error (errs (completeListItems sub t p items i w)).
Proof.
  intros Hsub Hvalid.
  induction items as [|item rest IH]; intros i w.
  - split; [reflexivity|constructor].
  - cbn [completeListItems]. cbv zeta. cbn [value errs world forallb].
    destruct (nullish item).
    + destruct (IH (Datatypes.S i) w) as [Hv He].
      cbn [value errs world]. split; [exact Hv|exact He].
    + unfold completeObjectValue. cbn [value errs world].
      destruct (Hsub t item (Index i :: p) w Hvalid) as [Hv1 He1].
      destruct (IH (Datatypes.S i) (world (sub t item (Index i :: p) w))) as [Hv He].
      split.
      * cbn [item_mirrors]. now rewrite Hv1, Hv.
      * apply Forall_app. now split.
Qed.

Lemma resolveField_mirrors sub parent source p name args sels w :
  sub_mirrors E S sub sels ->
  validate_field E S parent (Field name args sels) = [] ->
  let r := resolveField E S sub parent source p name args w in
  (exists v, value r = Some (name, v) /\
             field_mirrors (Field name args sels) v = true) /\
  Forall located_error (errs r).
Proof.
  intros Hsub Hvalid. rewrite validate_field_eq in Hvalid.
  unfold resolveField. cbv zeta.
  destruct (field_def name (fields S parent)) as [d|]; [|discriminate].
  apply app_eq_nil in Hvalid as [_ Hvalid].
  destruct (match resolve d with Some fn => fn | None => defaultFieldResolver name end
              source args w) as [[result|m] w1].
  - unfold completeValue.
    destruct (nullish result).
    { cbn [value errs]. split; [|constructor].
      eexists; split; [reflexivity|].
      rewrite field_mirrors_eq. now destruct sels. }
    destruct (ftype d) as [s|t'|t'].
    + destruct sels; [|discriminate].
      destruct (serialize_leaf E s result); cbn [value errs];
        (split; [eexists; split; reflexivity|]);
        repeat constructor; discriminate.
    + destruct sels as [|g rest]; [discriminate|].
      destruct (Hsub t' result (Key name :: p) w1 Hvalid) as [Hv He].
      unfold completeObjectValue. cbn [value errs].
      split; [|exact He].
      eexists; split; [reflexivity|]. rewrite field_mirrors_eq. exact Hv.
    + destruct sels as [|g rest]; [discriminate|].
      destruct result;
        try (cbn [value errs]; split;
             [eexists; split; reflexivity|repeat constructor; discriminate]).
      destruct (completeListItems_mirrors sub (g :: rest) t' (Key name :: p) items
                  Hsub Hvalid 0 w1) as [Hv He].
      cbv zeta. cbn [value errs]. split; [|exact He].
      eexists; split; [reflexivity|]. rewrite field_mirrors_eq. exact Hv.
  - cbn [value errs]. split.
    + eexists; split; [reflexivity|]. rewrite field_mirrors_eq. now destruct sels.
    + repeat constructor. discriminate.
Qed.

Lemma executeFields_mirrors_from l :
  Forall (field_mirrors_run E S) l ->
  forall t src p w,
    validate_fields E S t l = [] ->
    object_mirrors l (value (executeFields E S t src p l w)) = true /\
    Forall located_error (errs (executeFields E S t src p l w)).
Proof.
  induction 1 as [|g rest Hg _ IH]; intros t src p w Hvalid.
  - rewrite executeFields_nil. split; [reflexivity|constructor].
  - unfold validate_fields in Hvalid. cbn [flat_map] in Hvalid.
    apply app_eq_nil in Hvalid as [Hvg Hvrest].
    rewrite executeFields_cons. cbv zeta. cbn [value errs world].
    destruct (Hg t src p w Hvg) as [(v & Hv & Hm) He].
    destruct (IH t src p (world (executeField E S t src p g w)) Hvrest) as [Hvr Her].
    rewrite Hv. cbn [keep object_mirrors]. split.
    + now rewrite String.eqb_refl, Hm, Hvr.
    + apply Forall_app. now split.
Qed.

Lemma executeField_mirrors g : field_mirrors_run E S g.
Proof.
  induction g as [name args sub IH] using Selection_rect'.
  intros t src p w Hvalid. rewrite executeField_eq.
  apply resolveField_mirrors; [|exact Hvalid].
  intros t' src' q w' Hv. now apply executeFields_mirrors_from.
Qed.

Lemma graphql_mirrors sels w :
  validate E S (mkDocument query_ sels) = [] ->
  answered_in_shape (fst (handler E S (Parsed (mkDocument query_ sels)) w)) sels.
Proof.
  intros Hvalid. unfold handler, graphql. rewrite Hvalid.
  unfold execute. cbn [operation selections root_type fst].
  unfold validate in Hvalid. cbn [operation selections] in Hvalid.
  destruct (executeFields_mirrors_from sels
              ltac:(apply Forall_forall; intros g _; apply executeField_mirrors)
              Query JUndefined [] w Hvalid) as [Hv He].
  destruct (mutationType S); cbn [fst];
    (do 2 eexists; split; [reflexivity|]; split; [exact Hv|exact He]).
Qed.

End Mirror.

(** The document accounts for the data. *)

Lemma jv_eqb_refl v : jv_eqb v v = true.
Proof.
  induction v as [| |b|q|s|items IH|ps IH] using JV_rect'; cbn [jv_eqb];
    try reflexivity.
  - apply Bool.eqb_reflx.
  - now rewrite Z.eqb_refl, Pos.eqb_refl.
  - apply String.eqb_refl.
  - induction IH as [|x rest Hx _ IHrest]; [reflexivity|]. now rewrite Hx, IHrest.
  - induction IH as [|[k x] rest Hx _ IHrest]; [reflexivity|].
    cbn [snd] in Hx. now rewrite String.eqb_refl, Hx, IHrest.
Qed.

Lemma accounts_eq E S w0 es parent source p name args sub v :
  accounts E S w0 es parent source p (Field name args sub) v =
  match field_def name (fields S parent) with
  | None => false
  | Some d =>
      let here := Key name :: p in
      match fst (resolver_of name d source args w0) with
      | Threw _ => is_null v && hit es here
      | Returned x =>
          if nullish x then is_null v
          else
            match ftype d with
            | Leaf s =>
                match serialize_leaf E s x with
                | Returned y => jv_eqb v y
                | Threw _ => is_null v && hit es here
                end
            | Object t => accounts_object E S w0 es sub t x here v
            | ListOf t =>
                match x, v with
                | JArr xs, JArr vs => accounts_items E S w0 es sub t here xs vs 0
                | JArr _, _ => false
                | _, _ => is_null v && hit es here
                end
            end
      end
  end.
Proof. reflexivity. Qed.

Lemma hit_member es e q : In e es -> path e = Some q -> hit es q = true.
Proof. intros Hin Hq. apply hit_iff. now exists e. Qed.

Section Accounting.

Variable E : Env.
Variable S : Schema.
Variable w0 : World.
Hypothesis HS : read_only_schema S.
Hypothesis Hst : steady_schema S.

Lemma resolver_of_steady parent name d source args w :
  field_def name (fields S parent) = Some d ->
  store w = store w0 ->
  fst (resolver_of name d source args w) = fst (resolver_of name d source args w0).
Proof.
  intros Hd Hw. unfold resolver_of.
  destruct (resolve d) as [fn|] eqn:Hfn; [|reflexivity].
  now apply (Hst parent name d fn Hd Hfn source args w w0).
Qed.

Lemma completeListItems_accounts sub sels t here items :
  sub_accounts E S w0 sub sels -> sub_reads sub -> t <> Mutation ->
  validate_fields E S t sels = [] ->
  forall i w es,
    store w = store w0 ->
    incl (errs (completeListItems sub t here items i w)) es ->
    accounts_items E S w0 es sels t here items
                   (value (completeListItems sub t here items i w)) i = true.
Proof.
  intros Hsub Hr Ht Hvalid.
  induction items as [|item rest IH]; intros i w es Hw Hes; [reflexivity|].
  cbn [completeListItems] in *. cbv zeta in *. cbn [value errs world] in *.
  cbn [accounts_items].
  apply incl_app_inv in Hes as [Ha Hb].
  destruct (nullish item) eqn:Hitem; cbn [value errs world] in *.
  - cbn [is_null andb]. now apply IH.
  - unfold completeObjectValue in *. cbn [value errs world] in *.
    cbn [accounts_object].
    rewrite (Hsub t item (Index i :: here) w es Ht Hw Hvalid Ha). cbn [andb].
    apply IH; [|exact Hb].
    destruct (Hr t item (Index i :: here) w Ht) as [Hstore _]. congruence.
Qed.

Lemma resolveField_accounts sub parent source p name args sels w es :
  sub_accounts E S w0 sub sels -> sub_reads sub ->
  parent <> Mutation -> store w = store w0 ->
  validate_field E S parent (Field name args sels) = [] ->
  incl (errs (resolveField E S sub parent source p name args w)) es ->
  exists v,
    value (resolveField E S sub parent source p name args w) = Some (name, v) /\
    accounts E S w0 es parent source p (Field name args sels) v = true.
Proof.
  intros Hsub Hr Hp Hw Hvalid. rewrite validate_field_eq in Hvalid.
  unfold resolveField. cbv zeta.
  destruct (field_def name (fields S parent)) as [d|] eqn:Hd; [|discriminate].
  apply app_eq_nil in Hvalid as [_ Hvalid].
  destruct (HS parent name d Hp Hd) as [Hclosed Hread].
  pose proof (resolver_of_steady parent name d source args w Hd Hw) as Hans.
  assert (Hstore : store (snd (resolver_of name d source args w)) = store w0).
  { rewrite <- Hw. unfold resolver_of.
    destruct (resolve d) as [fn|]; [|reflexivity]. apply (Hread fn eq_refl). }
  fold (resolver_of name d).
  destruct (resolver_of name d source args w) as [[result|m] w1];
    cbn [fst snd] in *.
  - unfold completeValue.
    destruct (nullish result) eqn:Hnull.
    { cbn [value errs]. intros _. eexists. split; [reflexivity|].
      now rewrite accounts_eq, Hd, <- Hans, Hnull. }
    destruct (ftype d) as [s|t'|t'] eqn:Hty.
    + destruct (serialize_leaf E s result) as [y|m] eqn:Hser; cbn [value errs];
        intros Hes; (eexists; split; [reflexivity|]);
        rewrite accounts_eq, Hd; cbv zeta; rewrite <- Hans, Hnull, Hty, Hser.
      * apply jv_eqb_refl.
      * cbn [is_null andb].
        apply (hit_member es (located (Key name :: p) m)); [|reflexivity].
        apply Hes. now left.
    + destruct sels as [|g rest]; [discriminate|].
      unfold completeObjectValue. cbn [value errs]. intros Hes.
      eexists. split; [reflexivity|].
      rewrite accounts_eq, Hd. cbv zeta. rewrite <- Hans, Hnull, Hty.
      cbn [accounts_object].
      apply Hsub; try assumption. apply Hclosed. now left.
    + destruct sels as [|g rest]; [discriminate|].
      destruct result; cbn [nullish] in Hnull; try discriminate;
        try (cbn [value errs]; intros Hes; eexists; split; [reflexivity|];
             rewrite accounts_eq, Hd; cbv zeta; rewrite <- Hans, Hty;
             cbn [nullish is_null andb];
             eapply hit_member; [apply Hes; now left|reflexivity]).
      cbv zeta. cbn [value errs]. intros Hes.
      eexists. split; [reflexivity|].
      rewrite accounts_eq, Hd. cbv zeta. rewrite <- Hans, Hty. cbn [nullish].
      apply completeListItems_accounts; try assumption.
      apply Hclosed. now right.
  - cbn [value errs]. intros Hes. eexists. split; [reflexivity|].
    rewrite accounts_eq, Hd. cbv zeta. rewrite <- Hans.
    cbn [is_null andb].
    eapply hit_member; [apply Hes; now left|reflexivity].
Qed.

Lemma executeFields_accounts_from l :
  Forall (field_accounts E S w0) l ->
  sub_accounts E S w0 (fun t src q => executeFields E S t src q l) l.
Proof.
  induction 1 as [|g rest Hg _ IH]; intros t src q w es Ht Hw Hvalid Hes.
  - now rewrite executeFields_nil.
  - unfold validate_fields in Hvalid. cbn [flat_map] in Hvalid.
    apply app_eq_nil in Hvalid as [Hvg Hvrest].
    rewrite executeFields_cons in *. cbv zeta in *. cbn [value errs world] in *.
    apply incl_app_inv in Hes as [Ha Hb].
    destruct (Hg t src q w es Ht Hw Hvg Ha) as (v & Hv & Hacc).
    rewrite Hv. cbn [keep accounts_all].
    rewrite String.eqb_refl, Hacc. cbn [andb].
    apply IH; try assumption.
    destruct (executeField_reads E S HS g t src q w Ht) as [Hstore _]. congruence.
Qed.

Lemma executeField_accounts g : field_accounts E S w0 g.
Proof.
  induction g as [name args sub IH] using Selection_rect'.
  intros t src p w es Ht Hw Hvalid. rewrite executeField_eq. cbn [sel_name].
  apply resolveField_accounts; try assumption.
  - now apply executeFields_accounts_from.
  - intros t' src' q w' Ht'. now apply executeFields_reads.
Qed.

Lemma executeFields_accounts l :
  sub_accounts E S w0 (fun t src q => executeFields E S t src q l) l.
Proof.
  apply executeFields_accounts_from.
  apply Forall_forall. intros g _. apply executeField_accounts.
Qed.

End Accounting.

Lemma handler_accounts E S sels w :
  read_only_schema S -> steady_schema S ->
  validate E S (mkDocument query_ sels) = [] ->
  answered_from_data E S w (fst (handler E S (Parsed (mkDocument query_ sels)) w)) sels.
Proof.
  intros HS Hst Hvalid.
  destruct (graphql_mirrors E S sels w Hvalid) as (ps & es & Hsent & Hmirror & Hloc).
  exists ps, es. split; [exact Hsent|]. split; [exact Hmirror|]. split; [|exact Hloc].
  revert Hsent. unfold handler, graphql. rewrite Hvalid.
  unfold execute. cbn [operation selections root_type fst].
  unfold validate in Hvalid. cbn [operation selections] in Hvalid.
  intros Hsent.
  assert (Hrun : ps = value (executeFields E S Query JUndefined [] sels w) /\
                 es = errs (executeFields E S Query JUndefined [] sels w)).
  { destruct (mutationType S); cbn [fst] in Hsent; inversion Hsent; now split. }
  destruct Hrun as [-> ->].
  apply (executeFields_accounts E S w HS Hst sels Query JUndefined [] w);
    first [easy | apply incl_refl].
Qed.




(** ** C1: one fetch per sibling *)

Section OneFetchEach.

Variable E : Env.

Let S := Part001.executableSchema E.

Lemma id_field_no_call source p w :
  world (executeFields E S User source p [Field "id" [] []] w) = w.
Proof.
  rewrite executeFields_cons. cbv zeta.
  rewrite executeField_eq, executeFields_nil. cbn [world].
  unfold resolveField. cbn. unfold completeValue.
  destruct (nullish (prop "id" source)); [reflexivity|].
  cbn. destruct (serialize E UUID (prop "id" source)); reflexivity.
Qed.

Lemma ids_of_items_no_call p items :
  forall i w,
    world (completeListItems (fun t src q => executeFields E S t src q [Field "id" [] []])
                             User p items i w) = w.
Proof.
  induction items as [|item rest IH]; intros i w; [reflexivity|].
  cbn [completeListItems]. cbv zeta. cbn [world]. rewrite IH.
  destruct (nullish item); [reflexivity|].
  unfold completeObjectValue. cbn [world]. apply id_field_no_call.
Qed.

(** The relation field on one user: exactly its fetch, answered or not. *)
Lemma subscriptions_field_one_call source p w :
  nullish source = false ->
  world (executeFields E S User source p
           [Field "userSubscribedTo" [] [Field "id" [] []]] w)
  = mkWorld (store w) (calls w ++ [subscriptions_of source]).
Proof.
  intros Hsrc.
  rewrite executeFields_cons. cbv zeta.
  rewrite executeField_eq, executeFields_nil. cbn [world].
  unfold resolveField. cbn [S Part001.executableSchema fields].
  cbn [Part001.User_fields field_def String.eqb Ascii.eqb Bool.eqb resolve ftype].
  unfold Part001.User_userSubscribedTo, await, lift, member. rewrite Hsrc.
  unfold prisma_read.
  match goal with
  | |- context [if ?c then Threw storage_failure else ?a] =>
      destruct (if c then Threw storage_failure else a) as [result|m]
  end; cbn [world]; [|reflexivity].
  unfold completeValue.
  destruct (nullish result); [reflexivity|].
  destruct result; try reflexivity.
  cbv zeta. cbn [world]. apply ids_of_items_no_call.
Qed.

Lemma subscriptions_of_items p items :
  forallb (fun x => negb (nullish x)) items = true ->
  forall i w,
    world (completeListItems
             (fun t src q => executeFields E S t src q
                               [Field "userSubscribedTo" [] [Field "id" [] []]])
             User p items i w)
    = mkWorld (store w) (calls w ++ map subscriptions_of items).
Proof.
  induction items as [|item rest IH]; intros Hitems i w.
  - cbn. rewrite app_nil_r. now destruct w.
  - cbn [forallb] in Hitems. apply andb_prop in Hitems as [Hitem Hrest].
    apply negb_true_iff in Hitem.
    cbn [completeListItems]. cbv zeta. cbn [world]. rewrite (IH Hrest).
    rewrite Hitem. unfold completeObjectValue. cbn [world].
    rewrite (subscriptions_field_one_call item (Index i :: p) w Hitem).
    cbn [store calls map]. now rewrite <- app_assoc.
Qed.

End OneFetchEach.

Lemma load_not_nullish d m i rows :
  forallb (fun x => negb (nullish x)) (map (Prisma.load d m i) rows) = true.
Proof.
  induction rows as [|row rows IH]; [reflexivity|].
  cbn [map forallb]. rewrite IH. now destruct i.
Qed.

Lemma fetches_app kind cs cs' :
  fetches kind (cs ++ cs') = fetches kind cs + fetches kind cs'.
Proof. unfold fetches. now rewrite filter_app, length_app. Qed.

Lemma fetches_subscriptions_of items :
  fetches (users_through "subscribedToUser" "subscriberId")
          (map subscriptions_of items) = List.length items.
Proof.
  unfold fetches. induction items as [|x items IH]; [reflexivity|].
  cbn [map filter subscriptions_of users_through]. cbn. now rewrite IH.
Qed.

(** C1, as the code has it.  part_001 has no batching: when [Query.users]
    is answered, the request [{ users { userSubscribedTo { id } } }] calls the
    storage client once for the users and then once for every user returned,
    each call a [findMany] of the same entity type and lookup kind with that
    user's id.  The number of fetches of that kind the request issues is the
    number N of sibling users. *)
Theorem one_fetch_per_sibling (E : Env) (d : Prisma.Db) (cs : list Call) :
  fails E all_users = false ->
  let after := snd (Part001.route E (Parsed users_with_subscriptions) (mkWorld d cs)) in
  let siblings := map (Prisma.load d Prisma.user (Prisma.Inc profile_and_posts))
                      (Prisma.users d) in
  calls after = cs ++ Read all_users :: map subscriptions_of siblings /\
  fetches (users_through "subscribedToUser" "subscriberId") (calls after)
  = fetches (users_through "subscribedToUser" "subscriberId") cs
    + List.length (Prisma.users d).
Proof.
  intros Hfails after siblings.
  assert (Hcalls : calls after = cs ++ Read all_users :: map subscriptions_of siblings).
  { subst after siblings.
    rewrite Part001_route_within by (vm_compute; lia).
    unfold handler, graphql. cbn [snd].
    change (validate E (Part001.executableSchema E) users_with_subscriptions)
      with (@nil GraphQLError).
    unfold execute, users_with_subscriptions.
    cbn [operation selections root_type Part001.executableSchema mutationType snd].
    rewrite executeFields_cons. cbv zeta.
    rewrite executeField_eq, executeFields_nil. cbn [world].
    unfold resolveField.
    cbn [Part001.executableSchema fields Part001.Query_root Query_fields field_def
         String.eqb Ascii.eqb Bool.eqb resolve ftype].
    unfold Query_users, prisma_read. fold all_users. rewrite Hfails.
    unfold Prisma.answer, all_users. cbn [store calls Prisma.table].
    rewrite filter_everything.
    unfold completeValue. cbn [nullish]. cbv zeta. cbn [world].
    rewrite subscriptions_of_items by apply load_not_nullish.
    cbn [calls]. now rewrite <- app_assoc. }
  split; [exact Hcalls|].
  rewrite Hcalls. rewrite fetches_app. f_equal.
  change (Read all_users :: map subscriptions_of siblings)
    with ([Read all_users] ++ map subscriptions_of siblings).
  rewrite fetches_app, fetches_subscriptions_of.
  subst siblings. now rewrite length_map.
Qed.

Lemma one_fetch_per_sibling_witness :
  fails Sample.calm all_users = false /\
  fetches (users_through "subscribedToUser" "subscriberId")
          (calls (snd (Part001.route Sample.calm (Parsed users_with_subscriptions)
                                     (mkWorld Sample.abc []))))
  = 0 + 3.
Proof.
  split; [reflexivity|].
  apply (one_fetch_per_sibling Sample.calm Sample.abc [] eq_refl).
Defined.

(** C1 as stated fails: on a store of three users the request
    [{ users { userSubscribedTo { id } } }] issues three fetches of users
    through [subscribedToUser.subscriberId], one per sibling, not one. *)
Lemma batching_counterexample :
  fetches (users_through "subscribedToUser" "subscriberId")
          (calls (snd (Part001.route Sample.calm (Parsed users_with_subscriptions)
                                     (Sample.fresh Sample.abc)))) = 3 /\
  fetches (users_through "subscribedToUser" "subscriberId")
          (calls (snd (Part001.route Sample.calm (Parsed users_with_subscriptions)
                                     (Sample.fresh Sample.abc)))) <> 1.
Proof.
  split; [vm_compute; reflexivity|]. vm_compute. discriminate.
Qed.

(** ** C5: one way of resolving the subscription fields *)

(** Loading a row keeps the id it has. *)
Lemma load_id d m i row u :
  prop "id" (JObj row) = JStr u -> prop "id" (Prisma.load d m i row) = JStr u.
Proof.
  intros H. destruct i as [rels]. cbn [Prisma.load]. unfold prop in *.
  rewrite assoc_app. destruct (assoc "id" row); [exact H|discriminate].
Qed.

Lemma find_present u rows i row :
  nth_error rows i = Some row -> prop "id" (JObj row) = JStr u ->
  exists row',
    find (fun r => strict_eqb (prop "id" (JObj r)) (JStr u)) rows = Some row' /\
    prop "id" (JObj row') = JStr u.
Proof.
  intros Hnth Hid.
  destruct (find (fun r => strict_eqb (prop "id" (JObj r)) (JStr u)) rows)
    as [row'|] eqn:Hfind.
  - exists row'. split; [reflexivity|].
    apply find_some in Hfind as [_ Heq]. now apply strict_eqb_str.
  - exfalso. apply nth_error_In in Hnth.
    pose proof (find_none _ _ Hfind row Hnth) as Hno. cbv beta in Hno.
    rewrite Hid in Hno. cbn in Hno. now rewrite String.eqb_refl in Hno.
Qed.

(** The item of a completed list at a position: the selection set run on
    the item of that position, in a world that holds the same store. *)
Lemma completeListItems_nth (sub : SubFields) t p items :
  (forall src q w, store (world (sub t src q w)) = store w) ->
  forall k i w item,
    nth_error items k = Some item ->
    exists w',
      store w' = store w /\
      nth k (value (completeListItems sub t p items i w)) JUndefined
      = if nullish item then JNull
        else JObj (value (sub t item (Index (i + k) :: p) w')).
Proof.
  intros Hframe.
  induction items as [|x rest IH]; intros k i w item Hnth.
  - destruct k; discriminate.
  - cbn [completeListItems]. cbv zeta. cbn [value].
    destruct k as [|k].
    + inversion Hnth; subst. exists w. split; [reflexivity|].
      cbn [nth]. rewrite Nat.add_0_r.
      destruct (nullish item); reflexivity.
    + cbn [nth_error] in Hnth. cbn [nth].
      destruct (IH k (Datatypes.S i)
                   (world (if nullish x then mkDone JNull [] w
                           else completeObjectValue sub t (Index i :: p) x w))
                   item Hnth) as (w' & Hw' & Hv).
      exists w'. split.
      * rewrite Hw'. destruct (nullish x); [reflexivity|].
        unfold completeObjectValue. cbn [world]. apply Hframe.
      * rewrite Hv. now rewrite Nat.add_succ_r.
Qed.

Section Uniform.

Variable E : Env.

Let S := Part001.executableSchema E.

(** What a subscription field resolves to depends on the id of the user it
    is resolved on and on the store, not on how the user was reached. *)
Lemma relation_field_by_id f sub src1 src2 p1 p2 w1 w2 :
  In f relation_fields ->
  prop "id" src1 = prop "id" src2 ->
  nullish src1 = false -> nullish src2 = false ->
  store w1 = store w2 ->
  value (executeFields E S User src1 p1 [Field f [] sub] w1)
  = value (executeFields E S User src2 p2 [Field f [] sub] w2).
Proof.
  intros Hf Hid Hn1 Hn2 Hw.
  assert (Hsub : sub_steady
                   (fun t src q => executeFields E S t src q sub)).
  { intros t src q q' w w' H.
    apply executeFields_steady; [apply Part001_steady|exact H]. }
  rewrite !executeFields_cons. cbv zeta.
  rewrite !executeField_eq, !executeFields_nil. cbn [value].
  unfold resolveField. cbn [S Part001.executableSchema fields].
  destruct Hf as [<-|[<-|[]]];
    cbn [Part001.User_fields field_def String.eqb Ascii.eqb Bool.eqb resolve ftype];
    unfold Part001.User_userSubscribedTo, Part001.User_subscribedToUser,
           await, lift, member;
    rewrite Hn1, Hn2, Hid; unfold prisma_read; rewrite Hw;
    match goal with
    | |- context [if ?c then Threw storage_failure else ?a] =>
        destruct (if c then Threw storage_failure else a) as [result|m]
    end; cbn [value keep]; try reflexivity.
  all: do 2 f_equal;
    apply (completeValue_steady E); [exact Hsub|reflexivity].
Qed.

End Uniform.

(** A query that part_001 answers with a document went through the
    executor. *)
Lemma Part001_answered E sels w document es :
  fst (Part001.route E (Parsed (mkDocument query_ sels)) w)
    = Sent (mkResult (Some document) es) ->
  document = JObj (value (executeFields E (Part001.executableSchema E)
                                        Query JUndefined [] sels w)).
Proof.
  unfold Part001.route, Part001.preHandler.
  destruct (DepthLimit.depthLimit 5 _) as [errors|m]; cbn [cbind fst];
    [|discriminate].
  destruct (Nat.ltb 0 _); cbn [fst]; [discriminate|].
  unfold handler, graphql. cbn [fst].
  destruct (validate _ _ _); cbn [fst]; [|discriminate].
  unfold execute. cbn [operation selections root_type Part001.executableSchema
                       mutationType fst].
  intros H. now inversion H.
Qed.

(** C5, as the code has it.  In part_001, where the subscription fields of
    [User] have resolvers of their own: for every user id, either
    subscription field and every selection under it, when the store answers
    the two root fetches, the value of the field in the answer to
    [user(id)] is the value of the field on that user in the answer to
    [users]. *)
Theorem subscription_fields_same_from_either_root
    (E : Env) (d : Prisma.Db) (cs cs' : list Call) (u f : string)
    (sub : list Selection) (i : nat) (row : Prisma.Row)
    (doc1 doc2 : JV) (es1 es2 : list GraphQLError) :
  In f relation_fields ->
  fails E (one_user u) = false ->
  fails E all_users = false ->
  nth_error (Prisma.users d) i = Some row ->
  prop "id" (JObj row) = JStr u ->
  fst (Part001.route E (Parsed (by_id "user" u [Field f [] sub])) (mkWorld d cs))
    = Sent (mkResult (Some doc1) es1) ->
  fst (Part001.route E (Parsed (of_all_users f sub)) (mkWorld d cs'))
    = Sent (mkResult (Some doc2) es2) ->
  walk doc1 [Key "user"; Key f] = walk doc2 [Key "users"; Index i; Key f].
Proof.
  intros Hf Hone Hall Hnth Hid H1 H2.
  apply Part001_answered in H1. apply Part001_answered in H2. subst doc1 doc2.
  destruct (find_present u (Prisma.users d) i row Hnth Hid) as (row' & Hfind & Hid').
  (* user(id) *)
  rewrite (executeFields_cons E _ Query JUndefined [] (Field "user" _ _) []).
  cbv zeta. rewrite executeField_eq, executeFields_nil. cbn [value].
  unfold resolveField at 1.
  cbn [Part001.executableSchema fields Part001.Query_root Query_fields field_def
       String.eqb Ascii.eqb Bool.eqb resolve ftype].
  unfold Part001.Query_user at 1.
  cbn [prop assoc String.eqb Ascii.eqb Bool.eqb].
  unfold prisma_read at 1. fold (one_user u). rewrite Hone.
  unfold Prisma.answer, one_user. cbn [nullish store calls Prisma.table].
  rewrite Hfind.
  unfold completeValue at 1. rewrite load_is_object.
  unfold completeObjectValue. cbn [value keep walk prop assoc String.eqb
                                   Ascii.eqb Bool.eqb].
  (* users *)
  unfold of_all_users.
  rewrite (executeFields_cons E _ Query JUndefined [] (Field "users" _ _) []).
  cbv zeta. rewrite executeField_eq, executeFields_nil. cbn [value].
  unfold resolveField.
  cbn [Part001.executableSchema fields Part001.Query_root Query_fields field_def
       String.eqb Ascii.eqb Bool.eqb resolve ftype].
  unfold Query_users. unfold prisma_read at 1. fold all_users. rewrite Hall.
  unfold Prisma.answer, all_users. cbn [store calls Prisma.table].
  rewrite filter_everything.
  unfold completeValue. cbn [nullish]. cbv zeta.
  cbn [value keep walk prop assoc String.eqb Ascii.eqb Bool.eqb].
  destruct (completeListItems_nth
              (fun t src q => executeFields E (Part001.executableSchema E) t src q
                                            [Field f [] sub])
              User [Key "users"]
              (map (Prisma.load d Prisma.user (Prisma.Inc profile_and_posts))
                   (Prisma.users d))
              ltac:(intros src q w0;
                    apply (executeFields_reads E _ (Part001_read_only E));
                    discriminate)
              i 0
              (mkWorld d (cs' ++ [Read (Prisma.findMany Prisma.user Prisma.Everything
                                          (Prisma.Inc profile_and_posts))]))
              (Prisma.load d Prisma.user (Prisma.Inc profile_and_posts) row)
              ltac:(now apply map_nth_error))
    as (w' & Hw' & Hitem).
  rewrite Hitem, load_is_object. cbn [walk].
  change (prop f (JObj ?x)) with (match assoc f x with
                                  | Some y => y
                                  | None => JUndefined
                                  end).
  rewrite (relation_field_by_id E f sub
             (Prisma.load d Prisma.user Part001.user_include row')
             (Prisma.load d Prisma.user (Prisma.Inc profile_and_posts) row)
             [Key "user"] [Index (0 + i); Key "users"] _ w');
    try reflexivity; try exact Hf; try apply load_is_object.
  - rewrite (load_id d Prisma.user _ row' u Hid').
    now rewrite (load_id d Prisma.user _ row u Hid).
  - now rewrite Hw'.
Qed.

Lemma subscription_fields_same_witness :
  walk (JObj [("user", JObj [("userSubscribedTo", JArr [JObj [("id", JStr "B")]])])])
       [Key "user"; Key "userSubscribedTo"]
  = walk (JObj [("users",
                 JArr [JObj [("userSubscribedTo", JArr [JObj [("id", JStr "B")]])];
                       JObj [("userSubscribedTo", JArr [JObj [("id", JStr "C")]])];
                       JObj [("userSubscribedTo", JArr [])]])])
         [Key "users"; Index 0; Key "userSubscribedTo"].
Proof.
  apply (subscription_fields_same_from_either_root
           Sample.calm Sample.abc [] [] "A" "userSubscribedTo" [Sample.leaf "id"]
           0 (Sample.a_user "A" "Ann") _ _ [] []).
  - simpl; auto.
  - reflexivity.
  - reflexivity.
  - reflexivity.
  - reflexivity.
  - vm_compute. reflexivity.
  - vm_compute. reflexivity.
Defined.

(** C5 as stated fails in index.ts, where [Query.user] reshapes the
    subscriptions itself and [Query.users] does not load them: for user A,
    subscribed to B, [userSubscribedTo] is [[{ id: B }]] under [user(id)] and
    [null] under [users]. *)
Lemma uniform_resolution_counterexample :
  exists doc1 doc2,
    fst (Index.route Sample.calm
           (Parsed (by_id "user" "A" [Field "userSubscribedTo" [] [Sample.leaf "id"]]))
           (Sample.fresh Sample.abc))
      = Sent (mkResult (Some doc1) []) /\
    fst (Index.route Sample.calm
           (Parsed (of_all_users "userSubscribedTo" [Sample.leaf "id"]))
           (Sample.fresh Sample.abc))
      = Sent (mkResult (Some doc2) []) /\
    walk doc1 [Key "user"; Key "userSubscribedTo"] = JArr [JObj [("id", JStr "B")]] /\
    walk doc2 [Key "users"; Index 0; Key "userSubscribedTo"] = JNull.
Proof.
  do 2 eexists. split; [vm_compute; reflexivity|].
  split; [vm_compute; reflexivity|]. split; reflexivity.
Qed.

(** ** C3: a failed fetch nulls its own fields only *)

Lemma hit_app es1 es2 q : hit (es1 ++ es2) q = hit es1 q || hit es2 q.
Proof. unfold hit. apply existsb_app. Qed.

Lemma hit_none es q :
  (forall e, In e es -> path e <> Some q) -> hit es q = false.
Proof.
  intros H. apply not_true_is_false. intros Hhit.
  apply hit_iff in Hhit as (e & Hin & He). exact (H e Hin He).
Qed.

Lemma under_refl p : under p p.
Proof. now exists []. Qed.

Lemma under_cons q s p : under q (s :: p) -> under q p.
Proof.
  intros (pre & ->). exists (pre ++ [s]). now rewrite <- app_assoc.
Qed.

Lemma under_longer q s p : under q (s :: p) -> q <> p.
Proof.
  intros (pre & ->) H. apply (f_equal (@List.length Seg)) in H.
  rewrite length_app in H. simpl in H. lia.
Qed.

(** Two children of one node: what lies below one does not lie below the
    other. *)
Lemma under_one_child q s1 s2 p :
  under q (s1 :: p) -> under q (s2 :: p) -> s1 = s2.
Proof.
  intros (pre1 & H1) (pre2 & H2). subst q.
  assert (Hlen : List.length pre1 = List.length pre2).
  { apply (f_equal (@List.length Seg)) in H2.
    rewrite !length_app in H2. simpl in H2. lia. }
  revert pre2 H2 Hlen. induction pre1 as [|a pre1 IH]; intros [|b pre2] H2 Hlen;
    simpl in *; try discriminate.
  - now inversion H2.
  - inversion H2; subst. eapply IH; eauto.
Qed.

Lemma within_nil p C : within [] p C.
Proof. intros e []. Qed.

Lemma within_app es1 es2 p (C1 C2 C : Seg -> Prop) :
  within es1 p C1 -> within es2 p C2 ->
  (forall s, C1 s -> C s) -> (forall s, C2 s -> C s) ->
  within (es1 ++ es2) p C.
Proof.
  intros H1 H2 I1 I2 e Hin. apply in_app_or in Hin as [Hin|Hin].
  - destruct (H1 e Hin) as (q & s & ? & ? & ?). exists q, s. auto.
  - destruct (H2 e Hin) as (q & s & ? & ? & ?). exists q, s. auto.
Qed.

Lemma within_miss es p (C : Seg -> Prop) s q :
  within es p C -> ~ C s -> under q (s :: p) -> hit es q = false.
Proof.
  intros Hw Hs Hq. apply hit_none. intros e Hin He.
  destruct (Hw e Hin) as (q' & s' & Hq' & Hs' & Hu).
  rewrite He in Hq'. inversion Hq'; subst q'.
  apply Hs. now rewrite (under_one_child q s s' p Hq Hu).
Qed.

Lemma agrees_split bad es1 es2 p (C1 C2 C : Seg -> Prop) :
  agrees bad (es1 ++ es2) p C ->
  within es1 p C1 -> within es2 p C2 ->
  (forall s, C1 s -> C s) -> (forall s, C2 s -> C s) ->
  (forall s, C1 s -> C2 s -> False) ->
  agrees bad es1 p C1 /\ agrees bad es2 p C2.
Proof.
  intros Ha H1 H2 I1 I2 Hdis. split; intros s q Hs Hq.
  - rewrite (Ha s q (I1 s Hs) Hq), hit_app.
    rewrite (within_miss es2 p C2 s q H2 (fun H => Hdis s Hs H) Hq).
    apply orb_false_r.
  - rewrite (Ha s q (I2 s Hs) Hq), hit_app.
    now rewrite (within_miss es1 p C1 s q H1 (fun H => Hdis s H Hs) Hq).
Qed.

Lemma NoDup_paths_app es1 es2 p (C1 C2 : Seg -> Prop) :
  within es1 p C1 -> within es2 p C2 ->
  (forall s, C1 s -> C2 s -> False) ->
  NoDup (map path es1) -> NoDup (map path es2) ->
  NoDup (map path (es1 ++ es2)).
Proof.
  intros H1 H2 Hdis N1 N2. rewrite map_app.
  apply NoDup_app; try assumption.
  intros x Hx1 Hx2.
  apply in_map_iff in Hx1 as (e1 & <- & Hin1).
  apply in_map_iff in Hx2 as (e2 & Heq & Hin2).
  destruct (H1 e1 Hin1) as (q1 & s1 & Hq1 & Hs1 & Hu1).
  destruct (H2 e2 Hin2) as (q2 & s2 & Hq2 & Hs2 & Hu2).
  rewrite Hq1, Hq2 in Heq. inversion Heq; subst q2.
  rewrite (under_one_child q1 s1 s2 p Hu1 Hu2) in Hs1.
  exact (Hdis s2 Hs1 Hs2).
Qed.

(** Induction on a value, with the property in hand for the items of an
    array and the values of an object. *)
Lemma nullify_eq bad p v :
  nullify bad p v =
  if bad p then JNull
  else match v with
       | JObj ps => JObj (nullify_props bad p ps)
       | JArr items => JArr (nullify_items bad p items 0)
       | _ => v
       end.
Proof. destruct v; reflexivity. Qed.

(** Where nothing is marked at or below a value, the value stays. *)
Lemma nullify_none bad v :
  forall p, (forall q, under q p -> bad q = false) -> nullify bad p v = v.
Proof.
  induction v as [| | | | |items IH|ps IH] using JV_rect'; intros p Hbad;
    rewrite nullify_eq, (Hbad p (under_refl p)); try reflexivity.
  - f_equal. generalize 0.
    induction IH as [|x rest Hx _ IHrest]; intros i; [reflexivity|].
    cbn [nullify_items]. f_equal.
    + apply Hx. intros q Hq. apply Hbad. now apply under_cons in Hq.
    + apply IHrest.
  - f_equal.
    induction IH as [|[k x] rest Hx _ IHrest]; [reflexivity|].
    cbn [nullify_props]. f_equal; [|exact IHrest]. f_equal.
    apply Hx. intros q Hq. apply Hbad. now apply under_cons in Hq.
Qed.

Lemma nullify_null bad p : nullify bad p JNull = JNull.
Proof. rewrite nullify_eq. now destruct (bad p). Qed.

Lemma within_deeper es s0 p (C : Seg -> Prop) :
  within es (s0 :: p) C -> within es p (eq s0).
Proof.
  intros H e Hin. destruct (H e Hin) as (q & s & Hq & _ & Hu).
  exists q, s0. split; [exact Hq|]. split; [reflexivity|].
  now apply under_cons in Hu.
Qed.

Lemma agrees_deeper bad es s0 p (C : Seg -> Prop) :
  agrees bad es p (eq s0) -> agrees bad es (s0 :: p) C.
Proof.
  intros H s q _ Hq. apply (H s0 q eq_refl). now apply under_cons in Hq.
Qed.

Lemma own_path_clear es s0 p (C : Seg -> Prop) :
  within es (s0 :: p) C -> hit es (s0 :: p) = false.
Proof.
  intros H. apply hit_none. intros e Hin He.
  destruct (H e Hin) as (q & s & Hq & _ & Hu).
  rewrite He in Hq. inversion Hq; subst q.
  exact (under_longer _ _ _ Hu eq_refl).
Qed.

Lemma simulates_quiet {A} p C (nul : (Path -> bool) -> A -> A) v :
  (forall bad, agrees bad [] p C -> nul bad v = v) ->
  simulates p C nul v [] v [].
Proof.
  intros H. repeat split.
  - intros bad Hb. symmetry. now apply H.
  - apply within_nil.
  - constructor.
  - intros e [].
Qed.

(** One step after another. *)
Lemma simulates_app {A B D} p (C1 C2 C : Seg -> Prop)
    (nul1 : (Path -> bool) -> A -> A) (nul2 : (Path -> bool) -> B -> B)
    (nul : (Path -> bool) -> D -> D) (f : A -> B -> D)
    a ea a' ea' b eb b' eb' :
  simulates p C1 nul1 a ea a' ea' ->
  simulates p C2 nul2 b eb b' eb' ->
  (forall s, C1 s -> C s) -> (forall s, C2 s -> C s) ->
  (forall s, C1 s -> C2 s -> False) ->
  (forall bad x y, nul bad (f x y) = f (nul1 bad x) (nul2 bad y)) ->
  simulates p C nul (f a b) (ea ++ eb) (f a' b') (ea' ++ eb').
Proof.
  intros (Va & Wa & Na & Fa) (Vb & Wb & Nb & Fb) I1 I2 Hdis Hnul.
  repeat split.
  - intros bad Hbad.
    destruct (agrees_split bad ea' eb' p C1 C2 C Hbad Wa Wb I1 I2 Hdis) as [H1 H2].
    now rewrite Hnul, <- (Va bad H1), <- (Vb bad H2).
  - eapply within_app; eauto.
  - eapply NoDup_paths_app; eauto.
  - intros e Hin. apply in_app_or in Hin as [Hin|Hin].
    + destruct (Fa e Hin); [left; apply in_or_app|]; auto.
    + destruct (Fb e Hin); [left; apply in_or_app|]; auto.
Qed.

(** A step that ends in an error at its own path. *)
Lemma simulates_failed p s0 v es m :
  In (located (s0 :: p) m) es \/ m = storage_failure ->
  simulates p (eq s0) (fun bad x => nullify bad (s0 :: p) x)
            v es JNull [located (s0 :: p) m].
Proof.
  intros Hm. repeat split.
  - intros bad Hbad. rewrite nullify_eq.
    rewrite (Hbad s0 (s0 :: p) eq_refl (under_refl _)).
    replace (hit [located (s0 :: p) m] (s0 :: p)) with true; [reflexivity|].
    symmetry. apply hit_iff. eexists. split; [left; reflexivity|reflexivity].
  - intros e [<-|[]]. exists (s0 :: p), s0.
    split; [reflexivity|]. split; [reflexivity|apply under_refl].
  - repeat constructor. intros [].
  - intros e [<-|[]]. destruct Hm as [Hm|Hm]; [now left|now right].
Qed.

(** From the children of a node to the node. *)
Lemma simulates_node {A} p s0 (C : Seg -> Prop)
    (nul : (Path -> bool) -> A -> A) (wrap : A -> JV) v es v' es' :
  simulates (s0 :: p) C nul v es v' es' ->
  (forall bad x, bad (s0 :: p) = false ->
                 nullify bad (s0 :: p) (wrap x) = wrap (nul bad x)) ->
  simulates p (eq s0) (fun bad x => nullify bad (s0 :: p) x)
            (wrap v) es (wrap v') es'.
Proof.
  intros (V & W & N & F) Hwrap. repeat split.
  - intros bad Hbad.
    rewrite Hwrap.
    + f_equal. apply V. now apply agrees_deeper.
    + rewrite (Hbad s0 (s0 :: p) eq_refl (under_refl _)).
      now apply (own_path_clear es' s0 p C).
  - now apply within_deeper in W.
  - exact N.
  - exact F.
Qed.

Lemma simulates_map {A B} p (C : Seg -> Prop)
    (nul : (Path -> bool) -> A -> A) (nul2 : (Path -> bool) -> B -> B)
    (g : A -> B) v es v' es' :
  simulates p C nul v es v' es' ->
  (forall bad x, nul2 bad (g x) = g (nul bad x)) ->
  simulates p C nul2 (g v) es (g v') es'.
Proof.
  intros (V & W & N & F) Hg. repeat split; try assumption.
  intros bad Hbad. now rewrite Hg, <- (V bad Hbad).
Qed.

Section NullAtErrors.

Variable E : Env.
Variable S : Schema.

Lemma completeListItems_nulls sub sels t p items :
  sub_nulls sub sels ->
  forall i w,
    nulls_at_items p i (value (completeListItems sub t p items i w))
                   (errs (completeListItems sub t p items i w)).
Proof.
  intros Hsub.
  induction items as [|item rest IH]; intros i w e Hin; [destruct Hin|].
  cbn [completeListItems] in *. cbv zeta in *. cbn [value errs world] in *.
  apply in_app_or in Hin as [Hin|Hin].
  - destruct (nullish item); [destruct Hin|].
    unfold completeObjectValue in *. cbn [value errs] in *.
    destruct (Hsub t item (Index i :: p) w e Hin) as (k & pre & _ & Hp & Hv).
    exists 0, (pre ++ [Key k]). rewrite Nat.add_0_r, <- app_assoc. split; [exact Hp|].
    rewrite rev_app_distr. exact Hv.
  - destruct (IH (Datatypes.S i) _ e Hin) as (j & pre & Hp & Hv).
    exists (Datatypes.S j), pre. rewrite Nat.add_succ_r. split; [exact Hp|exact Hv].
Qed.

Lemma completeValue_nulls sub sels ty name fp result w :
  sub_nulls sub sels ->
  nulls_at_field fp (value (completeValue E sub ty name fp result w))
                 (errs (completeValue E sub ty name fp result w)).
Proof.
  intros Hsub. unfold completeValue.
  assert (Hown : forall m, nulls_at_field fp JNull [located fp m]).
  { intros m e [<-|[]]. exists []. split; reflexivity. }
  destruct (nullish result); [intros e []|].
  destruct ty as [s|t'|t'].
  - destruct (serialize_leaf E s result); [intros e []|apply Hown].
  - unfold completeObjectValue. cbn [value errs]. intros e Hin.
    destruct (Hsub t' result fp w e Hin) as (k & pre & _ & Hp & Hv).
    exists (pre ++ [Key k]). rewrite <- app_assoc. split; [exact Hp|].
    rewrite rev_app_distr. exact Hv.
  - destruct result; try apply Hown.
    cbv zeta. cbn [value errs]. intros e Hin.
    destruct (completeListItems_nulls sub sels t' fp items Hsub 0 w e Hin)
      as (j & pre & Hp & Hv).
    exists (pre ++ [Index j]). rewrite <- app_assoc. split; [exact Hp|].
    rewrite rev_app_distr. exact Hv.
Qed.

Lemma resolveField_nulls sub sels parent source p name args w :
  sub_nulls sub sels ->
  match value (resolveField E S sub parent source p name args w) with
  | Some (k, v) =>
      k = name /\
      nulls_at_field (Key k :: p) v
                     (errs (resolveField E S sub parent source p name args w))
  | None => errs (resolveField E S sub parent source p name args w) = []
  end.
Proof.
  intros Hsub. unfold resolveField.
  destruct (field_def name (fields S parent)) as [d|]; [|reflexivity].
  cbv zeta.
  destruct (match resolve d with Some fn => fn | None => defaultFieldResolver name end
              source args w) as [[result|m] w1]; cbn [value errs].
  - split; [reflexivity|]. now apply (completeValue_nulls sub sels).
  - split; [reflexivity|]. intros e [<-|[]]. exists []. split; reflexivity.
Qed.

Lemma prop_other k k' v ps :
  String.eqb k k' = false -> prop k (JObj ((k', v) :: ps)) = prop k (JObj ps).
Proof. intros H. unfold prop. cbn [assoc]. now rewrite H. Qed.

Lemma prop_first k v ps : prop k (JObj ((k, v) :: ps)) = v.
Proof. unfold prop. cbn [assoc]. now rewrite String.eqb_refl. Qed.

Lemma executeFields_nulls_from l :
  Forall (field_nulls E S) l ->
  distinct_names (map sel_name l) = true ->
  forallb distinct_siblings l = true ->
  forall t src p w,
    nulls_at_fields p l (value (executeFields E S t src p l w))
                    (errs (executeFields E S t src p l w)).
Proof.
  induction 1 as [|g rest Hg _ IH]; intros Hnames Hall t src p w e Hin.
  - rewrite executeFields_nil in Hin. destruct Hin.
  - cbn [map distinct_names] in Hnames. apply andb_prop in Hnames as [Hfresh Hnames].
    cbn [forallb] in Hall. apply andb_prop in Hall as [Hgd Hall].
    rewrite executeFields_cons in *. cbv zeta in *. cbn [value errs world] in *.
    specialize (Hg Hgd t src p w).
    apply in_app_or in Hin as [Hin|Hin].
    + destruct (value (executeField E S t src p g w)) as [[k v]|];
        [|rewrite Hg in Hin; destruct Hin].
      destruct Hg as [-> Hg]. destruct (Hg e Hin) as (pre & Hp & Hv).
      exists (sel_name g), pre. split; [now left|]. split; [exact Hp|].
      cbn [keep]. now rewrite prop_first.
    + destruct (IH Hnames Hall t src p _ e Hin) as (k & pre & Hk & Hp & Hv).
      exists k, pre. split; [now right|]. split; [exact Hp|].
      destruct (value (executeField E S t src p g w)) as [[k' v]|];
        cbn [keep]; [|exact Hv].
      destruct Hg as [-> _]. rewrite prop_other; [exact Hv|].
      apply negb_true_iff in Hfresh.
      destruct (String.eqb k (sel_name g)) eqn:Heq; [|reflexivity].
      apply String.eqb_eq in Heq. subst k.
      assert (Hex : existsb (String.eqb (sel_name g)) (map sel_name rest) = true).
      { apply existsb_exists. exists (sel_name g). split; [exact Hk|].
        apply String.eqb_refl. }
      congruence.
Qed.

Lemma executeField_nulls g : field_nulls E S g.
Proof.
  induction g as [name args sub IH] using Selection_rect'.
  intros Hd t src p w. cbn [distinct_siblings] in Hd.
  apply andb_prop in Hd as [Hnames Hall].
  rewrite executeField_eq. cbn [sel_name].
  apply (resolveField_nulls _ sub).
  intros t' src' q w'. now apply executeFields_nulls_from.
Qed.

(** The document of a run is [null] at the path of each of its errors. *)
Lemma executeFields_nulls l t src w :
  collected l = true ->
  Forall (fun e => exists q,
                     path e = Some q /\
                     walk (JObj (value (executeFields E S t src [] l w))) (rev q) = JNull)
         (errs (executeFields E S t src [] l w)).
Proof.
  intros Hc. unfold collected in Hc. apply andb_prop in Hc as [Hnames Hall].
  apply Forall_forall. intros e Hin.
  destruct (executeFields_nulls_from l
              ltac:(apply Forall_forall; intros g _; apply executeField_nulls)
              Hnames Hall t src [] w e Hin) as (k & pre & _ & Hp & Hv).
  exists (pre ++ [Key k]). split; [exact Hp|].
  rewrite rev_app_distr. exact Hv.
Qed.

End NullAtErrors.

Section Isolation.

Variables E E' : Env.
Variables S S' : Schema.
Hypothesis HS : read_only_schema S.
Hypothesis HS' : read_only_schema S'.
Hypothesis Hser : forall s v, serialize E' s v = serialize E s v.
Hypothesis Hsim : fails_only_schema S S'.

Lemma completeListItems_sim sub sub' sels t p items :
  sub_sim sub sub' sels -> sub_reads sub -> sub_reads sub' -> t <> Mutation ->
  forall i w w',
    store w = store w' ->
    simulates p (from_index i) (fun bad l => nullify_items bad p l i)
              (value (completeListItems sub t p items i w))
              (errs (completeListItems sub t p items i w))
              (value (completeListItems sub' t p items i w'))
              (errs (completeListItems sub' t p items i w')).
Proof.
  intros Hsub Hr Hr' Ht.
  induction items as [|item rest IH]; intros i w w' Hw.
  - cbn [completeListItems value errs]. apply simulates_quiet. reflexivity.
  - cbn [completeListItems]. cbv zeta. cbn [value errs world].
    eapply (simulates_app p (eq (Index i)) (from_index (Datatypes.S i)) (from_index i)
              (fun bad x => nullify bad (Index i :: p) x)
              (fun bad l => nullify_items bad p l (Datatypes.S i))
              (fun bad l => nullify_items bad p l i) cons).
    + destruct (nullish item); cbn [value errs].
      * apply simulates_quiet. intros bad _. apply nullify_null.
      * unfold completeObjectValue. cbn [value errs].
        apply (simulates_node p (Index i) (keys_of sels)
                 (fun bad => nullify_props bad (Index i :: p)) JObj).
        -- now apply Hsub.
        -- intros bad x Hb. now rewrite nullify_eq, Hb.
    + apply IH. destruct (nullish item); cbn [world]; [exact Hw|].
      unfold completeObjectValue. cbn [world].
      destruct (Hr t item (Index i :: p) w Ht) as [H1 _].
      destruct (Hr' t item (Index i :: p) w' Ht) as [H2 _]. congruence.
    + intros s <-. exists i. split; [reflexivity|lia].
    + intros s (j & -> & Hj). exists j. split; [reflexivity|lia].
    + intros s <- (j & Hj & Hle). inversion Hj. lia.
    + reflexivity.
Qed.

Lemma completeValue_sim sub sub' sels ty name p s0 result w w' :
  sub_sim sub sub' sels -> sub_reads sub -> sub_reads sub' ->
  (forall t', ty = Object t' \/ ty = ListOf t' -> t' <> Mutation) ->
  store w = store w' ->
  simulates p (eq s0) (fun bad x => nullify bad (s0 :: p) x)
            (value (completeValue E sub ty name (s0 :: p) result w))
            (errs (completeValue E sub ty name (s0 :: p) result w))
            (value (completeValue E' sub' ty name (s0 :: p) result w'))
            (errs (completeValue E' sub' ty name (s0 :: p) result w')).
Proof.
  intros Hsub Hr Hr' Hty Hw. unfold completeValue.
  destruct (nullish result).
  { cbn [value errs]. apply simulates_quiet. intros bad _. apply nullify_null. }
  destruct ty as [s|t'|t'].
  - assert (Hleaf : serialize_leaf E' s result = serialize_leaf E s result)
      by (destruct s; cbn; auto).
    rewrite Hleaf. destruct (serialize_leaf E s result) as [x|m]; cbn [value errs].
    + apply simulates_quiet. intros bad Hbad. apply nullify_none.
      intros q Hq. now rewrite (Hbad s0 q eq_refl Hq).
    + apply simulates_failed. left. now left.
  - unfold completeObjectValue. cbn [value errs].
    apply (simulates_node p s0 (keys_of sels)
             (fun bad => nullify_props bad (s0 :: p)) JObj).
    + apply Hsub; [|exact Hw]. apply Hty. now left.
    + intros bad x Hb. now rewrite nullify_eq, Hb.
  - destruct result;
      try (cbn [value errs]; apply simulates_failed; left; now left).
    cbv zeta. cbn [value errs].
    apply (simulates_node p s0 (from_index 0)
             (fun bad l => nullify_items bad (s0 :: p) l 0) JArr).
    + apply (completeListItems_sim sub sub' sels); try assumption.
      apply Hty. now right.
    + intros bad x Hb. now rewrite nullify_eq, Hb.
Qed.

Lemma resolveField_sim sub sub' sels parent source p name args w w' :
  sub_sim sub sub' sels -> sub_reads sub -> sub_reads sub' ->
  parent <> Mutation -> store w = store w' ->
  simulates p (eq (Key name)) (fun bad => nullify_field bad p)
            (value (resolveField E S sub parent source p name args w))
            (errs (resolveField E S sub parent source p name args w))
            (value (resolveField E' S' sub' parent source p name args w'))
            (errs (resolveField E' S' sub' parent source p name args w')).
Proof.
  intros Hsub Hr Hr' Hp Hw. unfold resolveField.
  pose proof (Hsim parent name Hp) as Hf.
  destruct (field_def name (fields S parent)) as [d|] eqn:Hd;
    destruct (field_def name (fields S' parent)) as [d'|] eqn:Hd';
    try contradiction.
  2: { cbn [value errs]. apply simulates_quiet. reflexivity. }
  destruct Hf as (Hty & _ & Hfn). cbv zeta.
  fold (resolver_of name d). fold (resolver_of name d').
  destruct (HS parent name d Hp Hd) as [Hclosed Hread].
  destruct (HS' parent name d' Hp Hd') as [_ Hread'].
  assert (Hstore : store (snd (resolver_of name d source args w))
                   = store (snd (resolver_of name d' source args w'))).
  { assert (H1 : store (snd (resolver_of name d source args w)) = store w).
    { unfold resolver_of. destruct (resolve d) as [fn|]; [|reflexivity].
      apply (Hread fn eq_refl). }
    assert (H2 : store (snd (resolver_of name d' source args w')) = store w').
    { unfold resolver_of. destruct (resolve d') as [fn|]; [|reflexivity].
      apply (Hread' fn eq_refl). }
    congruence. }
  specialize (Hfn source args w w' Hw).
  destruct (resolver_of name d source args w) as [c w1].
  destruct (resolver_of name d' source args w') as [c' w1'].
  cbn [fst snd] in *. rewrite Hty.
  assert (Hfailed : forall v es m,
             In (located (Key name :: p) m) es \/ m = storage_failure ->
             simulates p (eq (Key name)) (fun bad => nullify_field bad p)
                       (Some (name, v)) es (Some (name, JNull))
                       [located (Key name :: p) m]).
  { intros v es m Hm.
    apply (simulates_map p (eq (Key name))
             (fun bad x => nullify bad (Key name :: p) x)
             (fun bad => nullify_field bad p) (fun x => Some (name, x))).
    - now apply simulates_failed.
    - reflexivity. }
  destruct Hfn as [->| ->].
  - destruct c as [result|m]; cbn [value errs].
    + apply (simulates_map p (eq (Key name))
               (fun bad x => nullify bad (Key name :: p) x)
               (fun bad => nullify_field bad p) (fun x => Some (name, x)));
        [|reflexivity].
      now apply (completeValue_sim sub sub' sels).
    + apply Hfailed. left. now left.
  - destruct c as [result|m]; cbn [value errs]; apply Hfailed; now right.
Qed.

Lemma executeFields_sim_from l :
  Forall (field_sim E S E' S') l ->
  distinct_names (map sel_name l) = true ->
  forallb distinct_siblings l = true ->
  forall t src p w w',
    t <> Mutation -> store w = store w' ->
    simulates p (keys_of l) (fun bad => nullify_props bad p)
              (value (executeFields E S t src p l w))
              (errs (executeFields E S t src p l w))
              (value (executeFields E' S' t src p l w'))
              (errs (executeFields E' S' t src p l w')).
Proof.
  induction 1 as [|g rest Hg _ IH]; intros Hnames Hall t src p w w' Ht Hw.
  - rewrite !executeFields_nil. cbn [value errs].
    apply simulates_quiet. reflexivity.
  - cbn [map distinct_names] in Hnames. apply andb_prop in Hnames as [Hfresh Hnames].
    cbn [forallb] in Hall. apply andb_prop in Hall as [Hgd Hall].
    rewrite !executeFields_cons. cbv zeta. cbn [value errs world].
    eapply (simulates_app p (eq (Key (sel_name g))) (keys_of rest) (keys_of (g :: rest))
              (fun bad => nullify_field bad p) (fun bad => nullify_props bad p)
              (fun bad => nullify_props bad p) keep).
    + now apply Hg.
    + apply IH; try assumption.
      destruct (executeField_reads E S HS g t src p w Ht) as [H1 _].
      destruct (executeField_reads E' S' HS' g t src p w' Ht) as [H2 _].
      congruence.
    + intros s <-. exists (sel_name g). split; [reflexivity|now left].
    + intros s (k & -> & Hk). exists k. split; [reflexivity|now right].
    + intros s <- (k & Hk & Hin). inversion Hk; subst k.
      apply negb_true_iff in Hfresh.
      assert (Hex : existsb (String.eqb (sel_name g)) (map sel_name rest) = true).
      { apply existsb_exists. exists (sel_name g). split; [exact Hin|].
        apply String.eqb_refl. }
      congruence.
    + intros bad [[k x]|] y; reflexivity.
Qed.

Lemma executeField_sim g : field_sim E S E' S' g.
Proof.
  induction g as [name args sub IH] using Selection_rect'.
  intros Hd t src p w w' Ht Hw. cbn [distinct_siblings] in Hd.
  apply andb_prop in Hd as [Hnames Hall].
  rewrite !executeField_eq. cbn [sel_name].
  apply (resolveField_sim _ _ sub); try assumption.
  - intros t' src' q v v' Ht' Hv. now apply executeFields_sim_from.
  - intros t' src' q v Ht'. now apply executeFields_reads.
  - intros t' src' q v Ht'. now apply executeFields_reads.
Qed.

Lemma executeFields_sim l t src p w w' :
  collected l = true -> t <> Mutation -> store w = store w' ->
  simulates p (keys_of l) (fun bad => nullify_props bad p)
            (value (executeFields E S t src p l w))
            (errs (executeFields E S t src p l w))
            (value (executeFields E' S' t src p l w'))
            (errs (executeFields E' S' t src p l w')).
Proof.
  intros Hc. unfold collected in Hc. apply andb_prop in Hc as [Hnames Hall].
  apply executeFields_sim_from; try assumption.
  apply Forall_forall. intros g _. apply executeField_sim.
Qed.

Hypothesis Hacc : forall t v, accepts E' t v = accepts E t v.

Lemma validate_args_same parent name declared args :
  validate_args E' parent name declared args
  = validate_args E parent name declared args.
Proof.
  unfold validate_args. apply flat_map_ext. intros a.
  destruct (find _ declared); [|reflexivity]. now rewrite Hacc.
Qed.

Lemma validate_field_same g :
  forall t, t <> Mutation -> validate_field E' S' t g = validate_field E S t g.
Proof.
  induction g as [name args sub IH] using Selection_rect'.
  intros t Ht. rewrite !validate_field_eq.
  pose proof (Hsim t name Ht) as Hf.
  destruct (field_def name (fields S t)) as [d|] eqn:Hd;
    destruct (field_def name (fields S' t)) as [d'|]; try contradiction;
    [|reflexivity].
  destruct Hf as (Hty & Hargs & _). rewrite Hty, Hargs, validate_args_same.
  f_equal.
  destruct (HS t name d Ht Hd) as [Hclosed _].
  assert (Hsub : forall t', t' <> Mutation ->
                   validate_fields E' S' t' sub = validate_fields E S t' sub).
  { intros t' Ht'. unfold validate_fields.
    induction IH as [|x l Hx _ IHl]; [reflexivity|].
    cbn [flat_map]. now rewrite (Hx t' Ht'), IHl. }
  destruct (ftype d) as [s|t'|t']; destruct sub as [|g rest]; try reflexivity;
    apply Hsub; apply Hclosed; auto.
Qed.

Lemma validate_same sels :
  validate E' S' (mkDocument query_ sels) = validate E S (mkDocument query_ sels).
Proof.
  unfold validate, validate_fields. cbn [operation selections].
  induction sels as [|g rest IH]; [reflexivity|].
  cbn [flat_map]. rewrite IH. f_equal. apply validate_field_same. discriminate.
Qed.

(** The handler of a schema whose faulty resolvers fail or answer as the
    sound ones do. *)
Lemma handler_isolated sels w :
  collected sels = true ->
  isolated (fst (handler E S (Parsed (mkDocument query_ sels)) w))
           (fst (handler E' S' (Parsed (mkDocument query_ sels)) w)).
Proof.
  intros Hc. unfold handler, graphql. cbn [fst]. rewrite validate_same.
  destruct (validate E S (mkDocument query_ sels)) as [|e es].
  2: { cbn. reflexivity. }
  unfold execute. cbn [operation selections root_type].
  destruct (executeFields_sim sels Query JUndefined [] w w Hc
              ltac:(discriminate) eq_refl) as (V & W & N & F).
  assert (Hdoc : value (executeFields E' S' Query JUndefined [] sels w)
                 = nullify_props
                     (hit (errs (executeFields E' S' Query JUndefined [] sels w)))
                     [] (value (executeFields E S Query JUndefined [] sels w))).
  { apply V. intros s q _ _. reflexivity. }
  assert (Hroot : hit (errs (executeFields E' S' Query JUndefined [] sels w)) [] = false)
    by (apply hit_none; intros e Hin He;
        destruct (W e Hin) as (q & s & Hq & _ & Hu);
        rewrite He in Hq; inversion Hq; subst q;
        destruct Hu as (pre & Hpre); now destruct pre).
  pose proof (executeFields_nulls E' S' sels Query JUndefined w Hc) as Hnull.
  destruct (mutationType S), (mutationType S'); cbn [fst isolated data errors];
    (split; [rewrite nullify_eq, Hroot; f_equal; exact Hdoc|]);
    (split; [exact N|]);
    (split; [apply Forall_forall; exact F|exact Hnull]).
Qed.

End Isolation.

(** The resolvers of the three revisions under a failing storage engine. *)

Lemma same_job_fails_only A (j : Job A) : job_steady j -> job_fails_only j j.
Proof.
  intros Hj w w' Hw. left. symmetry. now apply Hj.
Qed.

Lemma prisma_read_fails_only E bad op :
  answers_all E ->
  job_fails_only (prisma_read E op) (prisma_read (with_failures E bad) op).
Proof.
  intros HE w w' Hw. unfold prisma_read. cbn [fst with_failures fails].
  rewrite HE, Hw. destruct (bad op); [now right|now left].
Qed.

Lemma await_fails_only A B (j j' : Job A) (k k' : A -> Job B) :
  job_fails_only j j' -> job_reads j -> job_reads j' ->
  (forall a, job_fails_only (k a) (k' a)) ->
  job_fails_only (await j k) (await j' k').
Proof.
  intros Hj Hr Hr' Hk w w' Hw. unfold await.
  specialize (Hj w w' Hw).
  destruct (Hr w) as [H1 _]. destruct (Hr' w') as [H2 _].
  destruct (j w) as [[a|m] w1], (j' w') as [[a'|m'] w1']; cbn [fst snd] in *.
  - destruct Hj as [Hj|Hj]; [|discriminate]. inversion Hj; subst a'.
    apply Hk. congruence.
  - destruct Hj as [Hj|Hj]; [discriminate|]. right. now inversion Hj.
  - destruct Hj as [Hj|Hj]; discriminate.
  - destruct Hj as [Hj|Hj]; [left|right]; now inversion Hj.
Qed.

Section FailingStorage.

Variable E : Env.
Variable bad : Prisma.ReadOp -> bool.
Hypothesis HE : answers_all E.

Let E' := with_failures E bad.

Ltac fails_only_job :=
  repeat first
    [ apply (prisma_read_fails_only E bad _ HE)
    | apply same_job_fails_only; auto with steady
    | apply await_fails_only; [| auto with reads | auto with reads | intro ] ].

Ltac resolver_fails_only :=
  unfold resolver_of; cbn [resolve];
  let src := fresh "src" in
  let args := fresh "args" in
  intros src args;
  match goal with
  | |- forall w w', store w = store w' -> fst (?j' w') = fst (?j w) \/ _ =>
      change (job_fails_only j j')
  end;
  cbv beta delta [Query_memberTypes Query_posts Query_users Query_profiles
                  Query_memberType Query_post Query_profile
                  Part000.Query_user Part001.Query_user
                  Part001.User_userSubscribedTo Part001.User_subscribedToUser
                  defaultFieldResolver];
  fails_only_job.

Ltac fails_only_fields :=
  repeat match goal with
         | |- context [String.eqb ?a ?b] => destruct (String.eqb a b)
         end;
  try exact I;
  (split; [reflexivity|split; [reflexivity|resolver_fails_only]]).

Lemma Part000_fails_only :
  fails_only_schema (Part000.executableSchema E) (Part000.executableSchema E').
Proof.
  intros t name Ht. destruct t; try contradiction; cbn; fails_only_fields.
Qed.

Lemma Index_fails_only :
  fails_only_schema (Index.executableSchema E) (Index.executableSchema E').
Proof.
  intros t name Ht. destruct t; try contradiction; cbn; fails_only_fields.
Qed.

Lemma Part001_fails_only :
  fails_only_schema (Part001.executableSchema E) (Part001.executableSchema E').
Proof.
  intros t name Ht. destruct t; try contradiction; cbn; fails_only_fields.
Qed.

End FailingStorage.

(** The fields that failures are blamed on. *)

Lemma rev_cons_app A (a : A) l p : rev (a :: l) ++ p = rev l ++ a :: p.
Proof. cbn [rev]. now rewrite <- app_assoc. Qed.

Lemma seek_cons X k (f : Selection -> World -> option X) pass g more w :
  seek k f pass (g :: more) w =
  if String.eqb (sel_name g) k then f g w else seek k f pass more (pass g w).
Proof. reflexivity. Qed.

Lemma seek_named X k (f : Selection -> World -> option X) pass sels w r :
  seek k f pass sels w = Some r -> In k (map sel_name sels).
Proof.
  revert w. induction sels as [|g more IH]; intros w H; [discriminate|].
  rewrite seek_cons in H. destruct (String.eqb (sel_name g) k) eqn:Hk.
  - left. now apply String.eqb_eq.
  - right. now apply (IH (pass g w)).
Qed.

Lemma reached_eq E S t source sels p w k rest :
  reached E S t source sels p w (Key k :: rest) =
  seek k (found E S t source p k rest)
       (fun g w0 => world (executeField E S t source p g w0)) sels w.
Proof. reflexivity. Qed.

Lemma reached_starts E S t source sels p w segs r :
  reached E S t source sels p w segs = Some r -> exists k rest, segs = Key k :: rest.
Proof.
  destruct segs as [|[k|i] rest]; try discriminate. intros _. now exists k, rest.
Qed.

Lemma reached_first E S t source g more p w segs r :
  reached E S t source [g] p w segs = Some r ->
  reached E S t source (g :: more) p w segs = Some r.
Proof.
  intros H. destruct (reached_starts _ _ _ _ _ _ _ _ _ H) as (k & rest & ->).
  rewrite reached_eq in *. rewrite seek_cons in *.
  destruct (String.eqb (sel_name g) k); [exact H|discriminate].
Qed.

Lemma reached_later E S t source g more p w segs r :
  existsb (String.eqb (sel_name g)) (map sel_name more) = false ->
  reached E S t source more p (world (executeField E S t source p g w)) segs = Some r ->
  reached E S t source (g :: more) p w segs = Some r.
Proof.
  intros Hfresh H. destruct (reached_starts _ _ _ _ _ _ _ _ _ H) as (k & rest & ->).
  rewrite reached_eq in *. rewrite seek_cons.
  destruct (String.eqb (sel_name g) k) eqn:Hk; [|exact H].
  apply String.eqb_eq in Hk. subst k. apply seek_named in H.
  exfalso. apply not_true_iff_false in Hfresh. apply Hfresh.
  apply existsb_exists. exists (sel_name g). split; [exact H|apply String.eqb_refl].
Qed.

Lemma found_here E S t source p k g w0 fd :
  field_def k (fields S t) = Some fd ->
  found E S t source p k [] g w0 = Some (resolver_of k fd source (sel_args g), w0).
Proof. intros Hd. unfold found. now rewrite Hd. Qed.

Lemma found_under E S t source p k k' rest g w0 fd x w1 t' :
  field_def k (fields S t) = Some fd ->
  resolver_of k fd source (sel_args g) w0 = (Returned x, w1) ->
  ftype fd = Object t' -> nullish x = false ->
  found E S t source p k (Key k' :: rest) g w0 =
  reached E S t' x (sel_set g) (Key k :: p) w1 (Key k' :: rest).
Proof.
  intros Hd Hjob Hty Hx. unfold found. rewrite Hd. cbv zeta.
  now rewrite Hjob, Hty, Hx.
Qed.

Lemma found_item E S t source p k i rest g w0 fd items w1 t' :
  field_def k (fields S t) = Some fd ->
  resolver_of k fd source (sel_args g) w0 = (Returned (JArr items), w1) ->
  ftype fd = ListOf t' ->
  found E S t source p k (Index i :: rest) g w0 =
  at_index (fun x w2 => if nullish x then None
                        else reached E S t' x (sel_set g) (Index i :: Key k :: p) w2 rest)
           (item_world (fun t src q => executeFields E S t src q (sel_set g))
                       t' (Key k :: p))
           items i 0 w1.
Proof.
  intros Hd Hjob Hty. unfold found. rewrite Hd. cbv zeta.
  now rewrite Hjob, Hty.
Qed.

Lemma at_index_next X (f : JV -> World -> option X) pass x more i n w :
  at_index f pass (x :: more) (Datatypes.S i) n w =
  at_index f pass more i (Datatypes.S n) (pass n x w).
Proof. reflexivity. Qed.

Section Blame.

Variables E E' : Env.
Variables S S' : Schema.
Variable T : Job JV -> World -> Prop.
Hypothesis HS : read_only_schema S.
Hypothesis HS' : read_only_schema S'.
Hypothesis Hser : forall s v, serialize E' s v = serialize E s v.
Hypothesis Hsim : fails_only_schema S S'.
Hypothesis Htie : ties T S S'.

Lemma blamed_same t source sels p es w' :
  blamed_fields T E' S' t source sels p es es w'.
Proof. intros e He. now left. Qed.

Lemma completeListItems_blame sub sub' sels t p items :
  sub_blame T E' S' sub sub' sels -> sub_reads sub -> sub_reads sub' ->
  t <> Mutation ->
  forall n w w',
    store w = store w' ->
    blamed_items T E' S' sub' t items sels n p
                 (errs (completeListItems sub t p items n w))
                 (errs (completeListItems sub' t p items n w')) w'.
Proof.
  intros Hsub Hr Hr' Ht.
  induction items as [|item rest IH]; intros n w w' Hw e He.
  - destruct He.
  - cbn [completeListItems] in *. cbv zeta in *. cbn [value errs world] in *.
    assert (Hstep : store (world (if nullish item then mkDone JNull [] w
                                  else completeObjectValue sub t (Index n :: p) item w))
                    = store (item_world sub' t p n item w')).
    { unfold item_world.
      destruct (nullish item); cbn [world]; [exact Hw|].
      unfold completeObjectValue. cbn [world].
      destruct (Hr t item (Index n :: p) w Ht) as [H _].
      destruct (Hr' t item (Index n :: p) w' Ht) as [H' _]. congruence. }
    apply in_app_or in He as [He|He].
    + destruct (nullish item) eqn:Hnull; cbn [errs world] in *; [destruct He|].
      unfold completeObjectValue in *. cbn [errs world] in *.
      destruct (Hsub t item (Index n :: p) w w' Ht Hw e He)
        as [Hin|(Hm & segs & job & w0 & Hpath & Hres & HT)].
      * left. apply in_or_app. now left.
      * right. split; [exact Hm|].
        exists 0, n, segs, job, w0.
        split; [now rewrite Nat.add_0_r|]. split; [exact Hpath|]. split; [|exact HT].
        cbn [at_index]. now rewrite Hnull.
    + destruct (IH (Datatypes.S n) _ _ Hstep e He)
        as [Hin|(Hm & i & j & segs & job & w0 & Hj & Hpath & Hres & HT)].
      * left. apply in_or_app. now right.
      * right. split; [exact Hm|].
        exists (Datatypes.S i), j, segs, job, w0.
        split; [now rewrite Nat.add_succ_r|]. split; [exact Hpath|].
        split; [|exact HT].
        rewrite at_index_next. exact Hres.
Qed.

Lemma resolveField_blame parent source p name args sels w w' :
  sub_blame T E' S' (fun t src q => executeFields E S t src q sels)
            (fun t src q => executeFields E' S' t src q sels) sels ->
  parent <> Mutation -> store w = store w' ->
  blamed_fields T E' S' parent source [Field name args sels] p
    (errs (resolveField E S (fun t src q => executeFields E S t src q sels)
                        parent source p name args w))
    (errs (resolveField E' S' (fun t src q => executeFields E' S' t src q sels)
                        parent source p name args w'))
    w'.
Proof.
  intros Hsub Hp Hw. unfold resolveField.
  assert (Hr : sub_reads (fun t src q => executeFields E S t src q sels))
    by (intros t' src' q v Ht'; now apply executeFields_reads).
  assert (Hr' : sub_reads (fun t src q => executeFields E' S' t src q sels))
    by (intros t' src' q v Ht'; now apply executeFields_reads).
  pose proof (Hsim parent name Hp) as Hf.
  destruct (field_def name (fields S parent)) as [fd|] eqn:Hd;
    destruct (field_def name (fields S' parent)) as [fd'|] eqn:Hd';
    try contradiction.
  2: { intros e He. destruct He. }
  destruct Hf as (Hty & _ & Hfn). cbv zeta.
  fold (resolver_of name fd). fold (resolver_of name fd').
  destruct (HS parent name fd Hp Hd) as [Hclosed Hread].
  destruct (HS' parent name fd' Hp Hd') as [_ Hread'].
  assert (H1 : store (snd (resolver_of name fd source args w)) = store w).
  { unfold resolver_of. destruct (resolve fd) as [fn|]; [|reflexivity].
    apply (Hread fn eq_refl). }
  assert (H2 : store (snd (resolver_of name fd' source args w')) = store w').
  { unfold resolver_of. destruct (resolve fd') as [fn|]; [|reflexivity].
    apply (Hread' fn eq_refl). }
  pose proof (Htie parent name fd fd' source args w w' Hp Hd Hd' Hw) as Hblame.
  specialize (Hfn source args w w' Hw).
  assert (Hseek : forall rest,
             reached E' S' parent source [Field name args sels] p w' (Key name :: rest)
             = found E' S' parent source p name rest (Field name args sels) w').
  { intros rest. rewrite reached_eq, seek_cons. cbn [sel_name].
    now rewrite String.eqb_refl. }
  assert (Hfailed : forall es,
             fst (resolver_of name fd' source args w') = Threw storage_failure ->
             (fst (resolver_of name fd source args w) = Threw storage_failure ->
              In (located (Key name :: p) storage_failure) es) ->
             blamed_fields T E' S' parent source [Field name args sels] p es
                           [located (Key name :: p) storage_failure] w').
  { intros es Hthrew Hsound e [<-|[]].
    destruct (Hblame Hthrew) as [Hs|HT]; [left; now apply Hsound|].
    right. split; [reflexivity|].
    exists [Key name], (resolver_of name fd' source args), w'.
    split; [reflexivity|]. split; [|exact HT].
    rewrite Hseek. now apply found_here. }
  destruct (resolver_of name fd source args w) as [c w1] eqn:Hrun.
  destruct (resolver_of name fd' source args w') as [c' w1'] eqn:Hrun'.
  cbn [fst snd] in *. rewrite Hty.
  assert (Hw1 : store w1 = store w1') by congruence.
  destruct Hfn as [->| ->].
  - destruct c as [result|m]; cbn [errs world].
    + unfold completeValue.
      destruct (nullish result) eqn:Hnull; [intros e He; destruct He|].
      destruct (ftype fd) as [s|t'|t'] eqn:Hft.
      * assert (Hleaf : serialize_leaf E' s result = serialize_leaf E s result)
          by (destruct s; cbn; auto).
        rewrite Hleaf. destruct (serialize_leaf E s result); cbn [errs world];
          apply blamed_same.
      * unfold completeObjectValue. cbn [errs world].
        intros e He.
        destruct (Hsub t' result (Key name :: p) w1 w1'
                    ltac:(apply Hclosed; now left) Hw1 e He)
          as [Hin|(Hm & segs & job & w0 & Hpath & Hres & HT)]; [now left|].
        right. split; [exact Hm|].
        exists (Key name :: segs), job, w0.
        split; [cbn [rev]; now rewrite <- app_assoc|]. split; [|exact HT].
        destruct (reached_starts _ _ _ _ _ _ _ _ _ Hres) as (k & tail & ->).
        rewrite Hseek.
        rewrite (found_under E' S' parent source p name k tail _ w' fd' result w1' t');
          first [assumption|congruence].
      * destruct result; try (cbn [errs world]; apply blamed_same).
        cbv zeta. cbn [errs world]. intros e He.
        destruct (completeListItems_blame _ _ sels t' (Key name :: p) items
                    Hsub Hr Hr' ltac:(apply Hclosed; now right) 0 w1 w1' Hw1 e He)
          as [Hin|(Hm & i & j & segs & job & w0 & Hj & Hpath & Hres & HT)]; [now left|].
        right. split; [exact Hm|]. cbn [Nat.add] in Hj. subst j.
        exists (Key name :: Index i :: segs), job, w0.
        split; [cbn [rev]; rewrite <- !app_assoc; exact Hpath|]. split; [|exact HT].
        rewrite Hseek.
        rewrite (found_item E' S' parent source p name i segs _ w' fd' items w1' t');
          first [assumption|congruence].
    + apply blamed_same.
  - destruct c as [result|m]; cbn [errs world]; apply Hfailed; try reflexivity.
    + discriminate.
    + intros Hm. inversion Hm. now left.
Qed.

Lemma executeFields_blame_from l :
  Forall (field_blame T E S E' S') l ->
  distinct_names (map sel_name l) = true ->
  forallb distinct_siblings l = true ->
  sub_blame T E' S' (fun t src q => executeFields E S t src q l)
            (fun t src q => executeFields E' S' t src q l) l.
Proof.
  induction 1 as [|g rest Hg _ IH]; intros Hnames Hall t src p w w' Ht Hw e He.
  - rewrite executeFields_nil in He. destruct He.
  - cbn [map distinct_names] in Hnames. apply andb_prop in Hnames as [Hfresh Hnames].
    apply negb_true_iff in Hfresh.
    cbn [forallb] in Hall. apply andb_prop in Hall as [Hgd Hall].
    rewrite !executeFields_cons in *. cbv zeta in *. cbn [errs world] in *.
    assert (H1 : store (world (executeField E S t src p g w))
                 = store (world (executeField E' S' t src p g w'))).
    { destruct (executeField_reads E S HS g t src p w Ht) as [H _].
      destruct (executeField_reads E' S' HS' g t src p w' Ht) as [H' _]. congruence. }
    apply in_app_or in He as [He|He].
    + destruct (Hg Hgd t src p w w' Ht Hw e He)
        as [Hin|(Hm & segs & job & w0 & Hpath & Hres & HT)].
      * left. apply in_or_app. now left.
      * right. split; [exact Hm|]. exists segs, job, w0.
        split; [exact Hpath|]. split; [now apply reached_first|exact HT].
    + destruct (IH Hnames Hall t src p _ _ Ht H1 e He)
        as [Hin|(Hm & segs & job & w0 & Hpath & Hres & HT)].
      * left. apply in_or_app. now right.
      * right. split; [exact Hm|]. exists segs, job, w0.
        split; [exact Hpath|]. split; [now apply reached_later|exact HT].
Qed.

Lemma executeField_blame g : field_blame T E S E' S' g.
Proof.
  induction g as [name args sub IH] using Selection_rect'.
  intros Hd t src p w w' Ht Hw. cbn [distinct_siblings] in Hd.
  apply andb_prop in Hd as [Hnames Hall].
  rewrite !executeField_eq.
  apply resolveField_blame; try assumption.
  now apply executeFields_blame_from.
Qed.

Lemma executeFields_blame l :
  collected l = true ->
  sub_blame T E' S' (fun t src q => executeFields E S t src q l)
            (fun t src q => executeFields E' S' t src q l) l.
Proof.
  intros Hc. unfold collected in Hc. apply andb_prop in Hc as [Hnames Hall].
  apply executeFields_blame_from; try assumption.
  apply Forall_forall. intros g _. apply executeField_blame.
Qed.

End Blame.

Section Recorded.

Variable E : Env.
Variable S : Schema.
Variable T : Job JV -> World -> Prop.
Hypothesis HS : read_only_schema S.
Hypothesis Hfails : fails_when T S.

Lemma completeListItems_recorded sub sels t p items :
  sub_recorded T E S sub sels -> t <> Mutation ->
  forall n w i j segs job w0,
    j = n + i ->
    at_index (fun x w2 => if nullish x then None
                          else reached E S t x sels (Index j :: p) w2 segs)
             (item_world sub t p) items i n w = Some (job, w0) ->
    T job w0 ->
    In (located (rev segs ++ Index j :: p) storage_failure)
       (errs (completeListItems sub t p items n w)).
Proof.
  intros Hsub Ht.
  induction items as [|item rest IH]; intros n w i j segs job w0 Hj Hat HT.
  - destruct i; discriminate.
  - cbn [completeListItems]. cbv zeta. cbn [errs]. apply in_or_app.
    destruct i as [|i].
    + left. cbn [at_index] in Hat. rewrite Nat.add_0_r in Hj. subst j.
      destruct (nullish item); [discriminate|].
      unfold completeObjectValue. cbn [errs].
      now apply (Hsub t item (Index n :: p) w Ht segs job w0).
    + right. rewrite at_index_next in Hat.
      apply (IH (Datatypes.S n) _ i j segs job w0); try assumption.
      now rewrite Nat.add_succ_r in Hj.
Qed.

Lemma resolveField_recorded parent source p name args sels w :
  sub_recorded T E S (fun t src q => executeFields E S t src q sels) sels ->
  parent <> Mutation ->
  recorded_fields T E S parent source [Field name args sels] p
    (errs (resolveField E S (fun t src q => executeFields E S t src q sels)
                        parent source p name args w))
    w.
Proof.
  intros Hsub Hp segs job w0 Hres HT.
  destruct (reached_starts _ _ _ _ _ _ _ _ _ Hres) as (k & rest & ->).
  rewrite reached_eq, seek_cons in Hres. cbn [sel_name seek] in Hres.
  destruct (String.eqb name k) eqn:Hk; [|discriminate].
  apply String.eqb_eq in Hk. subst k.
  unfold found in Hres. unfold resolveField.
  destruct (field_def name (fields S parent)) as [fd|] eqn:Hd; [|discriminate].
  cbv zeta in *. cbn [sel_args sel_set] in Hres.
  fold (resolver_of name fd).
  destruct (HS parent name fd Hp Hd) as [Hclosed _].
  destruct rest as [|[k'|i] rest].
  - inversion Hres; subst job w0.
    rewrite (surjective_pairing (resolver_of name fd source args w)).
    rewrite (Hfails parent name fd source args w Hp Hd HT).
    cbn [errs]. now left.
  - destruct (resolver_of name fd source args w) as [[x|m] w1]; [|discriminate].
    destruct (ftype fd) as [s|t'|t'] eqn:Hft; try discriminate.
    destruct (nullish x) eqn:Hnull; [discriminate|].
    cbn [errs]. unfold completeValue. rewrite Hnull.
    unfold completeObjectValue. cbn [errs].
    rewrite rev_cons_app.
    apply (Hsub t' x (Key name :: p) w1 ltac:(apply Hclosed; now left)
             (Key k' :: rest) job w0 Hres HT).
  - destruct (resolver_of name fd source args w) as [[x|m] w1]; [|discriminate].
    destruct x; try discriminate.
    destruct (ftype fd) as [s|t'|t'] eqn:Hft; try discriminate.
    cbn [errs]. unfold completeValue. cbn [nullish]. cbv zeta. cbn [errs].
    rewrite !rev_cons_app.
    apply (completeListItems_recorded _ sels t' (Key name :: p) items Hsub
             ltac:(apply Hclosed; now right) 0 w1 i i rest job w0 eq_refl Hres HT).
Qed.

Lemma executeFields_recorded_from l :
  Forall (field_recorded T E S) l ->
  sub_recorded T E S (fun t src q => executeFields E S t src q l) l.
Proof.
  induction 1 as [|g rest Hg _ IH]; intros t src p w Ht segs job w0 Hres HT.
  - destruct (reached_starts _ _ _ _ _ _ _ _ _ Hres) as (k & tail & ->).
    rewrite reached_eq in Hres. discriminate.
  - rewrite executeFields_cons. cbv zeta. cbn [errs]. apply in_or_app.
    destruct (reached_starts _ _ _ _ _ _ _ _ _ Hres) as (k & tail & ->).
    rewrite reached_eq, seek_cons in Hres.
    destruct (String.eqb (sel_name g) k) eqn:Hk.
    + left. apply (Hg t src p w Ht (Key k :: tail) job w0); [|exact HT].
      rewrite reached_eq, seek_cons, Hk. exact Hres.
    + right. apply (IH t src p _ Ht (Key k :: tail) job w0); [|exact HT].
      rewrite reached_eq. exact Hres.
Qed.

Lemma executeField_recorded g : field_recorded T E S g.
Proof.
  induction g as [name args sub IH] using Selection_rect'.
  intros t src p w Ht. rewrite executeField_eq.
  apply resolveField_recorded; [|exact Ht].
  now apply executeFields_recorded_from.
Qed.

Lemma executeFields_recorded l :
  sub_recorded T E S (fun t src q => executeFields E S t src q l) l.
Proof.
  apply executeFields_recorded_from.
  apply Forall_forall. intros g _. apply executeField_recorded.
Qed.

End Recorded.

Section Confined.

Variables E E' : Env.
Variables S S' : Schema.
Variable failing : nat -> Call -> bool.
Hypothesis HS : read_only_schema S.
Hypothesis HS' : read_only_schema S'.
Hypothesis Hser : forall s v, serialize E' s v = serialize E s v.
Hypothesis Hacc : forall t v, accepts E' t v = accepts E t v.
Hypothesis Hsim : fails_only_schema S S'.
Hypothesis Htie : ties (failed failing) S S'.
Hypothesis Hfails : fails_when (failed failing) S'.

(** The handler of a schema whose faulty resolvers fail or answer as the
    sound ones do, and fail when a call they made has failed. *)
Lemma handler_confined sels w :
  collected sels = true ->
  confined failing E' S' sels w
           (fst (handler E S (Parsed (mkDocument query_ sels)) w))
           (fst (handler E' S' (Parsed (mkDocument query_ sels)) w)).
Proof.
  intros Hc. split; [|split].
  - now apply handler_isolated.
  - unfold handler, graphql. cbn [fst snd].
    rewrite (validate_same E E' S S' HS Hsim Hacc).
    destruct (validate E S (mkDocument query_ sels)) as [|e0 es0].
    2: { cbn. intros e He. now left. }
    unfold execute. cbn [operation selections root_type].
    pose proof (executeFields_blame E E' S S' (failed failing) HS HS' Hser Hsim Htie
                  sels Hc Query JUndefined [] w w ltac:(discriminate) eq_refl) as Hb.
    destruct (mutationType S), (mutationType S'); cbn [fst snd blamed errors];
      intros e He;
      (destruct (Hb e He) as [Hin|(Hm & segs & job & w0 & Hpath & Hres & HT)];
       [now left|right; split; [exact Hm|]; exists segs, job, w0;
                 rewrite app_nil_r in Hpath; now repeat split]).
  - unfold handler, graphql. cbn [fst snd].
    destruct (validate E' S' (mkDocument query_ sels)) as [|e0 es0].
    2: { cbn. intros H. now contradiction H. }
    unfold execute. cbn [operation selections root_type].
    pose proof (executeFields_recorded E' S' (failed failing) HS' Hfails sels
                  Query JUndefined [] w ltac:(discriminate)) as Hr.
    destruct (mutationType S'); cbn [fst snd recorded errors];
      intros _ segs job w0 Hres HT;
      specialize (Hr segs job w0 Hres HT); now rewrite app_nil_r in Hr.
Qed.

End Confined.

(** The calls a resolver makes. *)

Lemma made_one job w c :
  calls (snd (job w)) = calls w ++ [c] -> made job w = [(List.length (calls w), c)].
Proof.
  intros H. unfold made. rewrite H, skipn_app, skipn_all, Nat.sub_diag. reflexivity.
Qed.

Lemma made_none job w : calls (snd (job w)) = calls w -> made job w = [].
Proof. intros H. unfold made. now rewrite H, skipn_all. Qed.

Lemma made_interrupted failing fn src args w :
  made (interrupted failing fn src args) w = made (fn src args) w.
Proof.
  unfold made at 1. unfold interrupted.
  destruct (existsb _ (made (fn src args) w)); reflexivity.
Qed.

(** Failures by what is read: the storage engine of [with_failures]. *)

Section FailedReads.

Variable E : Env.
Variable bad : Prisma.ReadOp -> bool.
Hypothesis HE : answers_all E.

Let E' := with_failures E bad.

Ltac each_completion :=
  repeat match goal with
         | |- context [match ?c with Returned _ => _ | Threw _ => _ end] => destruct c
         end.

Ltac open_resolver :=
  unfold resolver_of; cbn [resolve];
  cbv beta delta [Query_memberTypes Query_posts Query_users Query_profiles
                  Query_memberType Query_post Query_profile
                  Part000.Query_user Part001.Query_user
                  Part001.User_userSubscribedTo Part001.User_subscribedToUser
                  defaultFieldResolver];
  unfold failed, prisma_read, await, lift, resolved;
  cbn [fst snd store calls fails with_failures].

Ltac tie_resolver :=
  open_resolver; rewrite ?HE;
  repeat match goal with
         | |- context [member ?k ?s] => destruct (member k s)
         end;
  cbn [fst snd store calls]; rewrite ?HE;
  lazymatch goal with
  | |- context [bad ?op] =>
      destruct (bad op) eqn:Hb;
      [ intros _; right;
        rewrite (made_one _ _ (Read op)) by reflexivity;
        cbn [existsb fst snd bad_reads is_bad_read]; now rewrite Hb
      | each_completion; cbn [fst snd]; intros H; left; exact H ]
  | |- _ => intros H; left; exact H
  end.

Ltac tie_fields :=
  repeat match goal with
         | |- context [String.eqb ?a ?b] => destruct (String.eqb a b)
         end;
  intros Hd Hd'; try discriminate Hd;
  injection Hd as <-; injection Hd' as <-;
  tie_resolver.

Lemma Part000_ties :
  ties (failed (bad_reads bad)) (Part000.executableSchema E) (Part000.executableSchema E').
Proof.
  intros t name fd fd' src args [d cs] [d' cs'] Ht Hd Hd' Hw.
  cbn [store] in Hw. subst d'. revert Hd Hd'. subst E'.
  destruct t; try contradiction; cbn; tie_fields.
Qed.

Lemma Index_ties :
  ties (failed (bad_reads bad)) (Index.executableSchema E) (Index.executableSchema E').
Proof.
  intros t name fd fd' src args [d cs] [d' cs'] Ht Hd Hd' Hw.
  cbn [store] in Hw. subst d'. revert Hd Hd'. subst E'.
  destruct t; try contradiction; cbn; tie_fields.
Qed.

Lemma Part001_ties :
  ties (failed (bad_reads bad)) (Part001.executableSchema E) (Part001.executableSchema E').
Proof.
  intros t name fd fd' src args [d cs] [d' cs'] Ht Hd Hd' Hw.
  cbn [store] in Hw. subst d'. revert Hd Hd'. subst E'.
  destruct t; try contradiction; cbn; tie_fields.
Qed.

Ltac fails_resolver :=
  open_resolver;
  repeat match goal with
         | |- context [member ?k ?s] => destruct (member k s)
         end;
  cbn [fst snd store calls];
  lazymatch goal with
  | |- context [bad ?op] =>
      rewrite (made_one _ _ (Read op))
        by (destruct (bad op); each_completion; reflexivity);
      cbn [existsb fst snd bad_reads is_bad_read];
      rewrite orb_false_r; intros ->; reflexivity
  | |- _ => rewrite made_none by reflexivity; discriminate
  end.

Ltac fails_fields :=
  repeat match goal with
         | |- context [String.eqb ?a ?b] => destruct (String.eqb a b)
         end;
  intros Hd; try discriminate Hd;
  injection Hd as <-;
  fails_resolver.

Lemma Part000_fails_when :
  fails_when (failed (bad_reads bad)) (Part000.executableSchema E').
Proof.
  intros t name fd src args [d cs] Ht Hd. revert Hd. subst E'.
  destruct t; try contradiction; cbn; fails_fields.
Qed.

Lemma Index_fails_when :
  fails_when (failed (bad_reads bad)) (Index.executableSchema E').
Proof.
  intros t name fd src args [d cs] Ht Hd. revert Hd. subst E'.
  destruct t; try contradiction; cbn; fails_fields.
Qed.

Lemma Part001_fails_when :
  fails_when (failed (bad_reads bad)) (Part001.executableSchema E').
Proof.
  intros t name fd src args [d cs] Ht Hd. revert Hd. subst E'.
  destruct t; try contradiction; cbn; fails_fields.
Qed.

End FailedReads.

(** Failures call by call: the schema of [with_outages]. *)

Section Outages.

Variable failing : nat -> Call -> bool.
Variable S : Schema.
Hypothesis HS : read_only_schema S.
Hypothesis Hst : steady_schema S.

Lemma field_def_with_outages t name :
  field_def name (fields (with_outages failing S) t) =
  option_map (fun fd => mkField (ftype fd) (fargs fd)
                                (option_map (interrupted failing) (resolve fd)))
             (field_def name (fields S t)).
Proof.
  cbn [fields with_outages].
  induction (fields S t) as [|[k fd] l IH]; [reflexivity|].
  cbn [map field_def fst snd]. now destruct (String.eqb name k).
Qed.

Lemma with_outages_read_only : read_only_schema (with_outages failing S).
Proof.
  intros t name fd' Ht Hd'. rewrite field_def_with_outages in Hd'.
  destruct (field_def name (fields S t)) as [fd|] eqn:Hd; [|discriminate].
  injection Hd' as <-. cbn [ftype resolve].
  destruct (HS t name fd Ht Hd) as [Hclosed Hread].
  split; [exact Hclosed|].
  intros fn' Hfn'. destruct (resolve fd) as [fn|]; [|discriminate].
  injection Hfn' as <-. intros src args w. unfold interrupted.
  destruct (existsb _ _); cbn [snd]; apply (Hread fn eq_refl).
Qed.

Lemma with_outages_fails_only : fails_only_schema S (with_outages failing S).
Proof.
  intros t name Ht. rewrite field_def_with_outages.
  destruct (field_def name (fields S t)) as [fd|] eqn:Hd; cbn [option_map]; [|exact I].
  split; [reflexivity|]. split; [reflexivity|].
  intros src args w w' Hw. unfold resolver_of. cbn [resolve].
  destruct (resolve fd) as [fn|] eqn:Hfn; cbn [option_map].
  - unfold interrupted. destruct (existsb _ _); [now right|].
    left. symmetry. now apply (Hst t name fd fn Hd Hfn src args w w').
  - now left.
Qed.

Lemma with_outages_ties : ties (failed failing) S (with_outages failing S).
Proof.
  intros t name fd fd' src args w w' Ht Hd Hd' Hw.
  rewrite field_def_with_outages, Hd in Hd'. injection Hd' as <-.
  unfold resolver_of. cbn [resolve].
  destruct (resolve fd) as [fn|] eqn:Hfn; cbn [option_map].
  - unfold failed. rewrite made_interrupted. unfold interrupted.
    destruct (existsb _ (made (fn src args) w')); [now right|].
    intros H. left. rewrite <- H.
    now apply (Hst t name fd fn Hd Hfn src args w w').
  - intros H. now left.
Qed.

Lemma with_outages_fails_when : fails_when (failed failing) (with_outages failing S).
Proof.
  intros t name fd' src args w Ht Hd'. rewrite field_def_with_outages in Hd'.
  destruct (field_def name (fields S t)) as [fd|] eqn:Hd; [|discriminate].
  injection Hd' as <-. unfold resolver_of. cbn [resolve].
  destruct (resolve fd) as [fn|] eqn:Hfn; cbn [option_map].
  - unfold failed. rewrite made_interrupted. unfold interrupted.
    now intros ->.
  - unfold failed. rewrite made_none by reflexivity. discriminate.
Qed.

(** The handler over a schema under outages, against the handler over the
    schema. *)
Lemma outages_confined E sels w :
  collected sels = true ->
  confined failing E (with_outages failing S) sels w
           (fst (handler E S (Parsed (mkDocument query_ sels)) w))
           (fst (handler E (with_outages failing S) (Parsed (mkDocument query_ sels)) w)).
Proof.
  apply handler_confined; auto using with_outages_read_only, with_outages_fails_only,
    with_outages_ties, with_outages_fails_when.
Qed.

End Outages.

Lemma isolated_same body : data body = None -> isolated (Sent body) (Sent body).
Proof. intros H. cbn. now rewrite H. Qed.



(** A fetch made twice that fails once.  On [Sample.abc] the query
    [{ user(id: B) { id userSubscribedTo { id } }
       users { id userSubscribedTo { id } } }]
    asks for the users B is subscribed to twice: for the user of the first
    root field, and for B in the list of users, which is the fifth call of
    the request.  When the fifth call alone fails, B's subscriptions are
    [null] in the list of users, with one error at
    [users.1.userSubscribedTo], and are answered under [user]. *)
Example repeated_fetch_fails_once :
  fst (handler Sample.calm
               (with_outages fifth_call (Part001.executableSchema Sample.calm))
               (Sample.query user_and_users) (Sample.fresh Sample.abc))
  = Sent (mkResult
            (Some (JObj [("user",
                          JObj [("id", JStr "B");
                                ("userSubscribedTo", JArr [JObj [("id", JStr "C")]])]);
                         ("users",
               JArr [JObj [("id", JStr "A");
                           ("userSubscribedTo", JArr [JObj [("id", JStr "B")]])];
                     JObj [("id", JStr "B"); ("userSubscribedTo", JNull)];
                     JObj [("id", JStr "C"); ("userSubscribedTo", JArr [])]])]))
            [mkError storage_failure
                     (Some [Key "userSubscribedTo"; Index 1; Key "users"])]).
Proof. vm_compute. reflexivity. Qed.

(** The calls of the fields of that run, by path: the two fields that fetch
    the users B is subscribed to made the same call at two places of the
    log, [id] made none, and nothing was resolved under the field that
    failed. *)
Example repeated_fetch_positions :
  let S' := with_outages fifth_call (Part001.executableSchema Sample.calm) in
  let fetch := Read (Prisma.findMany Prisma.user
                       (Prisma.Some_ "subscribedToUser" "subscriberId" (JStr "B"))
                       (Prisma.Inc [])) in
  let calls_at segs :=
    option_map (fun r : Job JV * World => made (fst r) (snd r))
               (reached Sample.calm S' Query JUndefined user_and_users []
                        (Sample.fresh Sample.abc) segs) in
  calls_at [Key "user"; Key "userSubscribedTo"] = Some [(1, fetch)] /\
  calls_at [Key "users"; Index 1; Key "userSubscribedTo"] = Some [(4, fetch)] /\
  calls_at [Key "users"; Index 1; Key "id"] = Some [] /\
  calls_at [Key "users"; Index 1; Key "userSubscribedTo"; Index 0; Key "id"] = None.
Proof. vm_compute. repeat split; reflexivity. Qed.

(** The same request, spelled out: B's subscriptions are [null] with one
    error at [users.1.userSubscribedTo]; A's and C's are as without the
    failure. *)
Example failed_fetch_for_B :
  fst (Part001.route (with_failures Sample.calm Sample.fails_for_B)
                     (Sample.query Sample.users_and_authors)
                     (Sample.fresh Sample.abc))
  = Sent (mkResult
            (Some (JObj [("users",
               JArr [JObj [("id", JStr "A");
                           ("userSubscribedTo", JArr [JObj [("id", JStr "B")]])];
                     JObj [("id", JStr "B"); ("userSubscribedTo", JNull)];
                     JObj [("id", JStr "C"); ("userSubscribedTo", JArr [])]])]))
            [mkError storage_failure
                     (Some [Key "userSubscribedTo"; Index 1; Key "users"])]).
Proof. vm_compute. reflexivity. Qed.

(** * Further properties of the code *)

(** ** The delete mutations *)

(** X1.  [deletePost], [deleteUser] and [deleteProfile], in index.ts and in
    part_001 alike: the request makes one call to the storage client, the
    [delete] of that model with [where: { id }]; the field is [null] in the
    document whether the storage engine deleted the row or threw (the deleted
    row is not returned), and the error list is empty in the first case and
    holds the storage engine's message at the field's path in the second.  The
    store after the request is what the storage engine left. *)
Theorem delete_answers_null_either_way
    (E : Env) (w : World) (name : string) (m : Prisma.Model) (u : string) :
  In (name, m) deletions ->
  accepts E (ArgScalar UUID) (JStr u) = true ->
  let outcome := write E (delete_op m u) (store w) in
  let answer :=
    (Sent (mkResult (Some (JObj [(name, JNull)])) (root_errors name (fst outcome))),
     mkWorld (snd outcome) (calls w ++ [Write (delete_op m u)])) in
  Index.route E (Parsed (delete_by_id name u)) w = answer /\
  Part001.route E (Parsed (delete_by_id name u)) w = answer.
Proof.
  intros Hin Hacc outcome answer. subst outcome answer.
  destruct w as [d cs]. cbn [store calls].
  simpl in Hin.
  destruct Hin as [H|[H|[H|[]]]]; inversion H; subst name m; clear H;
    (split;
     [ unfold Index.route, handler, graphql, delete_by_id
     | rewrite Part001_route_within by (vm_compute; lia);
       unfold handler, graphql, delete_by_id ]);
    with_strategy transparent [executeField executeFields]
      (cbn; rewrite Hacc; cbn; unfold prisma_write, delete_op; cbn;
       destruct (write E _ d) as [[r|msg] d']; reflexivity).
Qed.

Lemma delete_answers_null_witness :
  In ("deletePost", Prisma.post) deletions /\
  accepts Sample.appending (ArgScalar UUID) (JStr "P") = true /\
  Index.route Sample.appending (Parsed (delete_by_id "deletePost" "P"))
              (Sample.fresh Sample.abc)
  = (Sent (mkResult (Some (JObj [("deletePost", JNull)]))
                    [mkError "not supported" (Some [Key "deletePost"])]),
     mkWorld Sample.abc [Write (delete_op Prisma.post "P")]).
Proof.
  assert (Hin : In ("deletePost", Prisma.post) deletions) by (simpl; auto).
  split; [exact Hin|]. split; [reflexivity|].
  apply (delete_answers_null_either_way
           Sample.appending (Sample.fresh Sample.abc) "deletePost" Prisma.post "P"
           Hin eq_refl).
Defined.

(** X2.  [unsubscribeFrom] of part_001: one call to the storage client, the
    [delete] of the subscription edge whose compound key has [userId] for
    [subscriberId] and [authorId] for [authorId]; the field is [null] in the
    document whether the edge was deleted or the storage engine threw, with
    the engine's message in the error list in the second case only. *)
Theorem unsubscribe_deletes_the_edge (E : Env) (w : World) (s a : string) :
  accepts E (ArgScalar UUID) (JStr s) = true ->
  accepts E (ArgScalar UUID) (JStr a) = true ->
  let outcome := write E (unsubscribe_op s a) (store w) in
  Part001.route E (Parsed (unsubscribe s a)) w
  = (Sent (mkResult (Some (JObj [("unsubscribeFrom", JNull)]))
                    (root_errors "unsubscribeFrom" (fst outcome))),
     mkWorld (snd outcome) (calls w ++ [Write (unsubscribe_op s a)])).
Proof.
  intros Hs Ha outcome. subst outcome. destruct w as [d cs]. cbn [store calls].
  rewrite Part001_route_within by (vm_compute; lia).
  unfold handler, graphql, unsubscribe.
  with_strategy transparent [executeField executeFields]
    (cbn; rewrite Hs, Ha; cbn; unfold prisma_write, unsubscribe_op; cbn;
     destruct (write E _ d) as [[r|msg] d']; reflexivity).
Qed.

Lemma unsubscribe_witness :
  Part001.route Sample.appending (Parsed (unsubscribe "A" "B")) (Sample.fresh Sample.abc)
  = (Sent (mkResult (Some (JObj [("unsubscribeFrom", JNull)]))
                    [mkError "not supported" (Some [Key "unsubscribeFrom"])]),
     mkWorld Sample.abc [Write (unsubscribe_op "A" "B")]).
Proof.
  apply (unsubscribe_deletes_the_edge Sample.appending (Sample.fresh Sample.abc)
           "A" "B" eq_refl eq_refl).
Defined.

(** X3.  [subscribeTo] of part_001 is declared to return a [User] but its
    resolver returns the subscription edge the storage engine created.  An
    edge has no [id] column, so the [id] selected on the result is [null],
    without an error: the mutation does not give back the id of a user. *)
Theorem subscribeTo_has_no_id
    (E : Env) (w : World) (s a : string) (edge_row : Props) (d' : Prisma.Db) :
  accepts E (ArgScalar UUID) (JStr s) = true ->
  accepts E (ArgScalar UUID) (JStr a) = true ->
  write E (subscribe_op s a) (store w) = (Returned (JObj edge_row), d') ->
  assoc "id" edge_row = None ->
  Part001.route E (Parsed (subscribe s a)) w
  = (Sent (mkResult (Some (JObj [("subscribeTo", JObj [("id", JNull)])])) []),
     mkWorld d' (calls w ++ [Write (subscribe_op s a)])).
Proof.
  intros Hs Ha Hwrite Hid. destruct w as [d cs]. cbn [store calls] in *.
  rewrite Part001_route_within by (vm_compute; lia).
  unfold handler, graphql, subscribe.
  with_strategy transparent [executeField executeFields]
    (cbn; rewrite Hs, Ha; cbn; unfold prisma_write; cbn;
     fold (subscribe_op s a); rewrite Hwrite; cbn; rewrite Hid; reflexivity).
Qed.

(** ** One call to the client for each root field *)

Lemma completeListItems_still sub t p items :
  sub_still sub -> entity t ->
  forall i w, world (completeListItems sub t p items i w) = w.
Proof.
  intros Hsub Ht.
  induction items as [|item rest IH]; intros i w; simpl; [reflexivity|].
  rewrite IH. destruct (nullish item); simpl; [reflexivity|now apply Hsub].
Qed.

Lemma completeValue_still E sub ty name p result w :
  sub_still sub ->
  (forall t', ty = Object t' \/ ty = ListOf t' -> entity t') ->
  world (completeValue E sub ty name p result w) = w.
Proof.
  intros Hsub Hty. unfold completeValue.
  destruct (nullish result); [reflexivity|].
  destruct ty as [s|t'|t'].
  - now destruct (serialize_leaf E s result).
  - simpl. apply Hsub. apply Hty. now left.
  - destruct result; try reflexivity.
    simpl. apply completeListItems_still; [exact Hsub|]. apply Hty. now right.
Qed.

Section OneCallEach.

Variable E : Env.
Variable S : Schema.
Hypothesis Hfree : resolver_free S.
Hypothesis Hroots : one_call_roots S.

Lemma resolveField_still sub parent source p name args w :
  sub_still sub -> entity parent ->
  world (resolveField E S sub parent source p name args w) = w.
Proof.
  intros Hsub Hp. unfold resolveField.
  destruct (field_def name (fields S parent)) as [d|] eqn:Hd; [|reflexivity].
  destruct (Hfree _ _ _ Hp Hd) as [Hnone Hty].
  rewrite Hnone. unfold defaultFieldResolver, resolved. cbn [world].
  now apply completeValue_still.
Qed.

Lemma executeField_still f :
  forall t src p w, entity t -> world (executeField E S t src p f w) = w.
Proof.
  induction f as [name args sub IH] using Selection_rect'.
  intros t src p w Ht. rewrite executeField_eq.
  apply resolveField_still; [|exact Ht].
  clear t src p w Ht. intros t src q w Ht.
  revert w. induction IH as [|g rest Hg _ IHrest]; intros w.
  - now rewrite executeFields_nil.
  - rewrite executeFields_cons. cbv zeta. cbn [world].
    rewrite (Hg t src q w Ht). apply IHrest.
Qed.

Lemma executeFields_still l : sub_still (fun t src q => executeFields E S t src q l).
Proof.
  intros t src q w Ht. revert w.
  induction l as [|g rest IH]; intros w.
  - now rewrite executeFields_nil.
  - rewrite executeFields_cons. cbv zeta. cbn [world].
    rewrite (executeField_still g t src q w Ht). apply IH.
Qed.

Lemma root_field_calls_once root src p g w :
  is_root root = true ->
  validate_field E S root g = [] ->
  exists c, calls (world (executeField E S root src p g w)) = calls w ++ [c] /\
            is_read c = reads_at root.
Proof.
  intros Hroot Hvalid. destruct g as [name args sub].
  rewrite executeField_eq. unfold resolveField.
  simpl in Hvalid.
  destruct (field_def name (fields S root)) as [d|] eqn:Hd; [|discriminate Hvalid].
  destruct (Hroots _ _ _ Hroot Hd) as [(fn & Hfn & Hone) Hty].
  rewrite Hfn. destruct (Hone src args w) as (c & Hc & Hkind).
  exists c. split; [|exact Hkind].
  destruct (fn src args w) as [[result|m] w1]; cbn [snd] in Hc; cbn [world].
  - rewrite completeValue_still; [exact Hc| |exact Hty].
    apply executeFields_still.
  - exact Hc.
Qed.

Lemma root_fields_call_once_each root src p l :
  is_root root = true ->
  validate_fields E S root l = [] ->
  forall w, exists cs,
    calls (world (executeFields E S root src p l w)) = calls w ++ cs /\
    List.length cs = List.length l /\
    Forall (fun c => is_read c = reads_at root) cs.
Proof.
  intros Hroot. unfold validate_fields.
  induction l as [|g rest IH]; intros Hvalid w.
  - exists []. rewrite executeFields_nil. cbn [world].
    now rewrite app_nil_r.
  - simpl in Hvalid. apply app_eq_nil in Hvalid. destruct Hvalid as [Hg Hrest].
    rewrite executeFields_cons. cbv zeta. cbn [world].
    destruct (root_field_calls_once root src p g w Hroot Hg) as (c & Hc & Hkind).
    destruct (IH Hrest (world (executeField E S root src p g w)))
      as (cs & Hcs & Hlen & Hall).
    exists (c :: cs). split; [|split].
    + rewrite Hcs, Hc, <- app_assoc. reflexivity.
    + simpl. now rewrite Hlen.
    + now constructor.
Qed.

End OneCallEach.

Lemma prisma_read_one_call E op : job_one_call true (prisma_read E op).
Proof. intros w. now exists (Read op). Qed.

Lemma prisma_write_one_call E op : job_one_call false (prisma_write E op).
Proof. intros w. now exists (Write op). Qed.

Lemma await_one_call A B reading (j : Job A) (k : A -> Job B) :
  job_one_call reading j -> (forall a, job_still (k a)) ->
  job_one_call reading (await j k).
Proof.
  intros Hj Hk w. unfold await.
  destruct (Hj w) as (c & Hc & Hkind). exists c. split; [|exact Hkind].
  destruct (j w) as [[a|m] w1]; cbn [snd] in *; [|exact Hc].
  now rewrite Hk.
Qed.

Lemma await_still A B (j : Job A) (k : A -> Job B) :
  job_still j -> (forall a, job_still (k a)) -> job_still (await j k).
Proof.
  intros Hj Hk w. unfold await. specialize (Hj w).
  destruct (j w) as [[a|m] w1]; cbn [snd] in *; [|exact Hj].
  now rewrite Hk.
Qed.

Lemma resolved_still A (a : A) : job_still (resolved a).
Proof. now intros w. Qed.

Lemma lift_still A (c : Completion A) : job_still (lift c).
Proof. now intros w. Qed.

Create HintDb once.
#[export] Hint Resolve prisma_read_one_call prisma_write_one_call
  resolved_still lift_still : once.
#[export] Hint Extern 2 (job_one_call _ (await _ _)) =>
  apply await_one_call; [|intro] : once.
#[export] Hint Extern 2 (job_still (await _ _)) =>
  apply await_still; [|intro] : once.
#[export] Hint Unfold Query_memberTypes Query_posts Query_users Query_profiles
  Query_memberType Query_post Query_profile Part000.Query_user
  Index.created Index.deleted : once.

Ltac once_field :=
  simpl; split;
  [ eexists; split; [reflexivity|];
    let src := fresh "src" in
    let args := fresh "args" in
    intros src args;
    match goal with
    | |- forall w, exists c, calls (snd (?j w)) = _ /\ _ = ?b =>
        change (job_one_call b j)
    end;
    autounfold with once; auto 6 with once
  | intros ? [H|H]; inversion H; reflexivity ].

Lemma Index_resolver_free E : resolver_free (Index.executableSchema E).
Proof.
  intros t name d Ht Hd.
  destruct t; try discriminate Ht; each_field Hd;
    (split; [reflexivity|intros ? [H|H]; inversion H; reflexivity]).
Qed.

Lemma Part000_resolver_free E : resolver_free (Part000.executableSchema E).
Proof.
  intros t name d Ht Hd.
  destruct t; try discriminate Ht; each_field Hd;
    (split; [reflexivity|intros ? [H|H]; inversion H; reflexivity]).
Qed.

Lemma Index_one_call_roots E : one_call_roots (Index.executableSchema E).
Proof.
  intros t name d Ht Hd.
  destruct t; try discriminate Ht; each_field Hd; once_field.
Qed.

Lemma Part000_one_call_roots E : one_call_roots (Part000.executableSchema E).
Proof.
  intros t name d Ht Hd.
  destruct t; try discriminate Ht; each_field Hd; once_field.
Qed.

(** X4.  In index.ts, and for queries in part_000, a valid request calls the
    storage client exactly once for each root field, however much is
    selected below it: the resolvers of the roots make one call each, reads
    for a query and writes for a mutation, and no field below a root has a
    resolver. *)
Theorem one_storage_call_per_root_field
    (E : Env) (S : Schema) (doc : Document) (w : World) :
  S = Index.executableSchema E \/
  (S = Part000.executableSchema E /\ operation doc = query_) ->
  collected (selections doc) = true ->
  validate E S doc = [] ->
  exists cs,
    calls (snd (handler E S (Parsed doc) w)) = calls w ++ cs /\
    List.length cs = List.length (selections doc) /\
    Forall (fun c => is_read c = match operation doc with
                                 | query_ => true
                                 | mutation_ => false
                                 end) cs.
Proof.
  intros HS _ Hvalid.
  assert (Hfree : resolver_free S).
  { destruct HS as [->|[-> _]];
      [apply Index_resolver_free|apply Part000_resolver_free]. }
  assert (Hroots : one_call_roots S).
  { destruct HS as [->|[-> _]];
      [apply Index_one_call_roots|apply Part000_one_call_roots]. }
  assert (Hmut : operation doc = mutation_ -> mutationType S = true).
  { destruct HS as [->|[_ Hq]]; [reflexivity|congruence]. }
  unfold handler, graphql. cbn [fst snd]. rewrite Hvalid.
  destruct doc as [o sels]. cbn [operation selections] in *.
  unfold validate in Hvalid. cbn [operation selections] in Hvalid.
  unfold execute. cbn [operation selections].
  destruct o.
  - assert (Hrun := root_fields_call_once_each E S Hfree Hroots Query JUndefined []
                      sels eq_refl Hvalid w).
    destruct (mutationType S); exact Hrun.
  - rewrite (Hmut eq_refl) in *.
    exact (root_fields_call_once_each E S Hfree Hroots Mutation JUndefined []
             sels eq_refl Hvalid w).
Qed.

Lemma one_storage_call_witness :
  exists cs,
    calls (snd (handler Sample.calm (Index.executableSchema Sample.calm)
                        (Parsed users_and_memberTypes) (Sample.fresh Sample.abc)))
    = [] ++ cs /\
    List.length cs = 2 /\
    Forall (fun c => is_read c = true) cs.
Proof.
  apply (one_storage_call_per_root_field
           Sample.calm (Index.executableSchema Sample.calm)
           users_and_memberTypes (Sample.fresh Sample.abc)
           (or_introl eq_refl) eq_refl eq_refl).
Defined.

(** ** The depth guard of part_001 *)



(** ** The reshaping of [Query.user] in index.ts and part_000 *)

Lemma assoc_set_prop k k' x ps :
  assoc k (set_prop k' x ps) = if String.eqb k k' then Some x else assoc k ps.
Proof.
  induction ps as [|[k0 v] rest IH]; cbn [set_prop assoc].
  - reflexivity.
  - destruct (String.eqb k' k0) eqn:H0; cbn [assoc].
    + apply String.eqb_eq in H0. subst k0.
      destruct (String.eqb k k'); reflexivity.
    + destruct (String.eqb k k0) eqn:H1.
      * apply String.eqb_eq in H1. subst k0.
        now rewrite String.eqb_sym, H0.
      * exact IH.
Qed.

Lemma map_fst_set_prop k x ps :
  assoc k ps <> None -> map fst (set_prop k x ps) = map fst ps.
Proof.
  induction ps as [|[k0 v] rest IH]; cbn [set_prop assoc map fst].
  - congruence.
  - destruct (String.eqb k k0); cbn [map fst]; [reflexivity|].
    intros H. now rewrite IH.
Qed.

(** X6.  [transformedEntry] of [Query.user], when it is built without a
    TypeError: the entry's own properties other than the two subscription
    lists are in it as Prisma returned them, and the properties keep the
    order Prisma gave them. *)
Theorem transformedEntry_keeps_the_rest (entry : Props) (t : JV) :
  Part000.transformedEntry (JObj entry) = Returned t ->
  (forall k, ~ In k relation_fields -> prop k t = prop k (JObj entry)) /\
  ((forall k, In k relation_fields -> assoc k entry <> None) ->
   map fst (spread t) = map fst entry).
Proof.
  unfold Part000.transformedEntry, cbind. cbn [spread].
  destruct (Part000.on_entry _ "userSubscribedTo" _) as [a|]; [|discriminate].
  destruct (Part000.on_entry _ "subscribedToUser" _) as [b|]; [|discriminate].
  intros H. inversion H; subst t; clear H. split.
  - intros k Hk. unfold prop. rewrite !assoc_set_prop.
    destruct (String.eqb k "subscribedToUser") eqn:H1.
    { apply String.eqb_eq in H1. subst k. exfalso. apply Hk. simpl. auto. }
    destruct (String.eqb k "userSubscribedTo") eqn:H2.
    { apply String.eqb_eq in H2. subst k. exfalso. apply Hk. simpl. auto. }
    reflexivity.
  - intros Hboth. cbn [spread].
    rewrite map_fst_set_prop.
    + apply map_fst_set_prop. apply Hboth. simpl. auto.
    + rewrite assoc_set_prop. cbn [String.eqb Ascii.eqb Bool.eqb].
      apply Hboth. simpl. auto.
Qed.

Lemma transformedEntry_witness :
  let entry := spread (Prisma.load Sample.abc Prisma.user Part000.user_include
                                   (Sample.a_user "A" "Ann")) in
  exists t,
    Part000.transformedEntry (JObj entry) = Returned t /\
    (forall k, ~ In k relation_fields -> prop k t = prop k (JObj entry)) /\
    ((forall k, In k relation_fields -> assoc k entry <> None) ->
     map fst (spread t) = map fst entry).
Proof.
  intros entry. eexists. split; [vm_compute; reflexivity|].
  apply (transformedEntry_keeps_the_rest entry). vm_compute. reflexivity.
Defined.

(** ** The subscription resolvers of part_001 *)

Lemma listed_findMany d w (x : Prisma.Row) :
  listed (JObj x)
    (Returned (JArr (map (Prisma.load d Prisma.user Prisma.plain)
                         (filter (Prisma.satisfies d Prisma.user w) (Prisma.users d)))))
  <-> In x (Prisma.users d) /\ Prisma.satisfies d Prisma.user w x = true.
Proof.
  unfold listed. split.
  - intros (items & Heq & Hin). inversion Heq; subst items; clear Heq.
    apply in_map_iff in Hin as (row & Hrow & Hin).
    rewrite app_nil_r in Hrow. inversion Hrow; subst row.
    now apply filter_In in Hin.
  - intros Hx. eexists. split; [reflexivity|].
    apply in_map_iff. exists x. split; [apply load_plain|].
    now apply filter_In.
Qed.

(** X7.  The two relation resolvers of [User] in part_001 are converse to
    each other: user [c] is among the [userSubscribedTo] of user [a] exactly
    when [a] is among the [subscribedToUser] of [c]. *)
Theorem subscription_resolvers_are_converse
    (E : Env) (w : World) (ra rc : Prisma.Row) (a c : string) :
  answers_all E ->
  In ra (Prisma.users (store w)) -> In rc (Prisma.users (store w)) ->
  prop "id" (JObj ra) = JStr a -> prop "id" (JObj rc) = JStr c ->
  (listed (JObj rc) (fst (Part001.User_userSubscribedTo E (JObj ra) [] w)) <->
   listed (JObj ra) (fst (Part001.User_subscribedToUser E (JObj rc) [] w))).
Proof.
  intros HE Hra Hrc Ha Hc.
  unfold Part001.User_userSubscribedTo, Part001.User_subscribedToUser,
         await, lift, member, prisma_read.
  cbn [nullish fst]. rewrite !HE, Ha, Hc.
  unfold Prisma.answer. cbn [Prisma.table]. rewrite !listed_findMany.
  unfold Prisma.satisfies, Prisma.related.
  cbn [Prisma.relation String.eqb Ascii.eqb Bool.eqb
       Prisma.rel_target Prisma.rel_here Prisma.rel_there Prisma.table].
  rewrite Ha, Hc.
  split; intros [_ H]; (split; [assumption|]);
    apply existsb_exists in H as (t & Hin & Ht);
    apply filter_In in Hin as [Hin Hend];
    apply existsb_exists; exists t; (split; [|exact Hend]);
    apply filter_In; (split; [exact Hin|exact Ht]).
Qed.

Lemma subscription_resolvers_witness :
  listed (JObj (Sample.a_user "B" "Bob"))
         (fst (Part001.User_userSubscribedTo Sample.calm (JObj (Sample.a_user "A" "Ann")) []
                 (Sample.fresh Sample.abc))) <->
  listed (JObj (Sample.a_user "A" "Ann"))
         (fst (Part001.User_subscribedToUser Sample.calm (JObj (Sample.a_user "B" "Bob")) []
                 (Sample.fresh Sample.abc))).
Proof.
  apply (subscription_resolvers_are_converse
           Sample.calm (Sample.fresh Sample.abc)
           (Sample.a_user "A" "Ann") (Sample.a_user "B" "Bob") "A" "B").
  - intros op. reflexivity.
  - simpl. auto.
  - simpl. auto.
  - reflexivity.
  - reflexivity.
Defined.

(** ** Mutations on a store that refuses writes *)

Lemma refused_fields E S m l :
  mutations_reject_with m S ->
  validate_fields E S Mutation l = [] ->
  forall w,
    let r := executeFields E S Mutation JUndefined [] l w in
    value r = map (fun g => (sel_name g, JNull)) l /\
    errs r = map (fun g => mkError m (Some [Key (sel_name g)])) l /\
    store (world r) = store w.
Proof.
  intros HS. unfold validate_fields.
  induction l as [|g rest IH]; intros Hvalid w; cbv zeta.
  - now rewrite executeFields_nil.
  - simpl in Hvalid. apply app_eq_nil in Hvalid. destruct Hvalid as [Hg Hrest].
    rewrite executeFields_cons. cbv zeta. cbn [value errs world].
    destruct g as [name args sub]. rewrite executeField_eq.
    unfold resolveField. simpl in Hg.
    destruct (field_def name (fields S Mutation)) as [d|] eqn:Hd;
      [|discriminate Hg].
    destruct (HS _ _ Hd) as (fn & Hfn & Hrej). rewrite Hfn.
    destruct (Hrej JUndefined args w) as [Hthrew Hstore].
    destruct (fn JUndefined args w) as [c w1]. cbn [fst snd] in *. subst c.
    cbn [value errs world keep].
    destruct (IH Hrest w1) as (Hv & He & Hs).
    rewrite Hv, He, Hs. cbn [map sel_name app]. now repeat split.
Qed.

Ltac rejecting_field :=
  simpl; eexists; split; [reflexivity|];
  let src := fresh "src" in
  let args := fresh "args" in
  let w := fresh "w" in
  intros src args w;
  unfold Index.created, Index.deleted, Part001.created, Part001.deleted,
         Part001.changed, Part001.Mutation_subscribeTo,
         Part001.Mutation_unsubscribeFrom, await, prisma_write;
  cbv zeta;
  match goal with
  | H : refuses_writes _ _ |- _ => rewrite !H
  end;
  split; reflexivity.

Lemma Index_mutations_reject E m :
  refuses_writes E m -> mutations_reject_with m (Index.executableSchema E).
Proof. intros HE name d Hd. each_field Hd; rejecting_field. Qed.

Lemma Part001_mutations_reject E m :
  refuses_writes E m -> mutations_reject_with m (Part001.executableSchema E).
Proof. intros HE name d Hd. each_field Hd; rejecting_field. Qed.

(** X8.  On a store that refuses every write, the handler of index.ts and
    of part_001 answers a valid mutation with a document that holds [null]
    for every one of its fields and an error list that holds, for every
    field and in the order of the request, the storage engine's message at
    the field's path; the store is as it was. *)
Theorem refused_writes_null_every_mutation_field
    (E : Env) (S : Schema) (m : string) (sels : list Selection) (w : World) :
  S = Index.executableSchema E \/ S = Part001.executableSchema E ->
  refuses_writes E m ->
  collected sels = true ->
  validate E S (mkDocument mutation_ sels) = [] ->
  fst (handler E S (Parsed (mkDocument mutation_ sels)) w)
  = Sent (mkResult (Some (JObj (map (fun g => (sel_name g, JNull)) sels)))
                   (map (fun g => mkError m (Some [Key (sel_name g)])) sels)) /\
  store (snd (handler E S (Parsed (mkDocument mutation_ sels)) w)) = store w.
Proof.
  intros HS HE _ Hvalid.
  assert (Hrej : mutations_reject_with m S).
  { destruct HS as [->| ->];
      [now apply Index_mutations_reject|now apply Part001_mutations_reject]. }
  assert (Hmut : mutationType S = true) by (destruct HS as [->| ->]; reflexivity).
  unfold handler, graphql. cbn [fst snd]. rewrite Hvalid.
  unfold validate in Hvalid. cbn [operation selections] in Hvalid.
  rewrite Hmut in Hvalid.
  unfold execute. cbn [operation selections root_type]. rewrite Hmut.
  destruct (refused_fields E S m sels Hrej Hvalid w) as (Hv & He & Hs).
  cbn [fst snd]. now rewrite Hv, He, Hs.
Qed.

Lemma refused_writes_witness :
  fst (handler Sample.calm (Part001.executableSchema Sample.calm)
               (Parsed (mkDocument mutation_ (selections (unsubscribe "A" "B"))))
               (Sample.fresh Sample.abc))
  = Sent (mkResult (Some (JObj [("unsubscribeFrom", JNull)]))
                   [mkError "read-only replica" (Some [Key "unsubscribeFrom"])]) /\
  store (snd (handler Sample.calm (Part001.executableSchema Sample.calm)
                      (Parsed (mkDocument mutation_ (selections (unsubscribe "A" "B"))))
                      (Sample.fresh Sample.abc)))
  = Sample.abc.
Proof.
  apply (refused_writes_null_every_mutation_field
           Sample.calm (Part001.executableSchema Sample.calm) "read-only replica"
           (selections (unsubscribe "A" "B")) (Sample.fresh Sample.abc)).
  - now right.
  - intros op d. reflexivity.
  - reflexivity.
  - reflexivity.
Defined.

(** ** Relations the list queries do not load *)

(** X9.  A relation field the list query above it does not [include] is
    [null] on every item, whatever the store holds on the other side of the
    relation and whatever is selected under the field: [author] under
    [posts], [profiles] under [memberTypes], [user] and [memberType] under
    [profiles] in the three revisions, and the two subscription fields under
    [users] in index.ts and part_000, which give them no resolver.  The
    answer has one item for each row of the table, and no error. *)
Theorem unloaded_relation_is_null
    (E : Env) (S : Schema) (name : string) (m : Prisma.Model) (f : string)
    (sub : list Selection) (w : World) :
  In (name, m, f) unloaded ->
  S = Index.executableSchema E \/ S = Part000.executableSchema E \/
  (S = Part001.executableSchema E /\ ~ In f relation_fields) ->
  fails E (all_of m) = false ->
  Forall (fun row => assoc f row = None) (Prisma.table (store w) m) ->
  validate E S (through name f sub) = [] ->
  handler E S (Parsed (through name f sub)) w
  = (Sent (mkResult
             (Some (JObj [(name, JArr (map (fun _ => JObj [(f, JNull)])
                                           (Prisma.table (store w) m)))]))
             []),
     mkWorld (store w) (calls w ++ [Read (all_of m)])).
Proof.
  intros Hin HS HE Hrows Hvalid.
  unfold handler, graphql. rewrite Hvalid. clear Hvalid.
  unfold execute, through. cbn [operation selections root_type].
  rewrite (unloaded_run E S name m f sub w Hin HS HE Hrows).
  destruct (mutationType S); reflexivity.
Qed.

Lemma unloaded_relation_witness :
  handler Sample.calm (Index.executableSchema Sample.calm)
          (Parsed (through "users" "userSubscribedTo" [Field "id" [] []]))
          (Sample.fresh Sample.abc)
  = (Sent (mkResult
             (Some (JObj [("users",
                           JArr [ JObj [("userSubscribedTo", JNull)];
                                  JObj [("userSubscribedTo", JNull)];
                                  JObj [("userSubscribedTo", JNull)] ])]))
             []),
     mkWorld Sample.abc [Read (all_of Prisma.user)]).
Proof.
  apply (unloaded_relation_is_null
           Sample.calm (Index.executableSchema Sample.calm)
           "users" Prisma.user "userSubscribedTo" [Field "id" [] []]
           (Sample.fresh Sample.abc)).
  - simpl. auto 7.
  - now left.
  - reflexivity.
  - repeat constructor.
  - reflexivity.
Defined.

(** ** The subscription lists of [Query.user] in index.ts and part_000 *)

Lemma first_user d u :
  has_user d u ->
  exists row rest,
    filter (fun t => strict_eqb (prop "id" (JObj t)) (JStr u)) (Prisma.users d)
    = row :: rest /\
    prop "id" (JObj row) = JStr u /\ In row (Prisma.users d).
Proof.
  unfold has_user. generalize (Prisma.users d) as rows.
  induction rows as [|r rows IH]; intros H; [inversion H|].
  cbn [filter].
  destruct (strict_eqb (prop "id" (JObj r)) (JStr u)) eqn:Hr.
  - exists r, (filter (fun t => strict_eqb (prop "id" (JObj t)) (JStr u)) rows).
    split; [reflexivity|]. split; [now apply strict_eqb_str|now left].
  - inversion H; subst.
    + rewrite H1 in Hr. cbn in Hr. now rewrite String.eqb_refl in Hr.
    + destruct (IH H1) as (row & rest & Hf & Hid & Hin).
      exists row, rest. split; [exact Hf|]. split; [exact Hid|now right].
Qed.

(** Loading a row with one relation included. *)
Lemma load_one d m name sub row r :
  Prisma.relation m name = Some r ->
  Prisma.load d m (Prisma.Inc [(name, sub)]) row
  = JObj (row ++
          [(name,
            let targets := map (Prisma.load d (Prisma.rel_target r) sub)
                               (Prisma.related d r row) in
            if Prisma.rel_many r then JArr targets
            else match targets with t :: _ => t | [] => JNull end)]).
Proof. intros H. cbn [Prisma.load]. now rewrite H. Qed.

Lemma end_id d e end_ :
  sound_edges d -> In e (Prisma.subscriptions d) ->
  In end_ ["subscriber"; "author"] ->
  (let! x := member end_ (Prisma.load d Prisma.subscribersOnAuthors
                            (Prisma.Inc [(end_, Prisma.plain)]) e) in
   let! eid := member "id" x in
   Returned (JObj [("id", eid)]))
  = Returned (JObj [("id", prop (end_ ++ "Id") (JObj e))]).
Proof.
  intros Hd He Hend. unfold sound_edges in Hd. rewrite Forall_forall in Hd.
  destruct (Hd e He) as (s & c & -> & Hs & Hc).
  destruct (first_user d s Hs) as (rs & rests & Hfs & Hids & _).
  destruct (first_user d c Hc) as (rc & restc & Hfc & Hidc & _).
  destruct Hend as [<-|[<-|[]]];
    cbn [Prisma.load Prisma.relation String.eqb Ascii.eqb Bool.eqb];
    unfold Prisma.related;
    cbn [Prisma.rel_target Prisma.rel_here Prisma.rel_there Prisma.rel_many
         Prisma.table];
    [ change (prop "subscriberId" (JObj (edge s c))) with (JStr s); rewrite Hfs
    | change (prop "authorId" (JObj (edge s c))) with (JStr c); rewrite Hfc ];
    cbn [map]; rewrite load_plain;
    unfold member, cbind;
    cbn [nullish edge app prop assoc String.eqb Ascii.eqb Bool.eqb];
    [ unfold prop in Hids; rewrite Hids | unfold prop in Hidc; rewrite Hidc ];
    reflexivity.
Qed.

Lemma ends_ids d end_ es :
  sound_edges d -> incl es (Prisma.subscriptions d) ->
  In end_ ["subscriber"; "author"] ->
  js_map (fun it =>
            let! e := member end_ it in
            let! eid := member "id" e in
            Returned (JObj [("id", eid)]))
         (JArr (map (Prisma.load d Prisma.subscribersOnAuthors
                                 (Prisma.Inc [(end_, Prisma.plain)])) es))
  = Returned (JArr (map (fun e => JObj [("id", prop (end_ ++ "Id") (JObj e))]) es)).
Proof.
  intros Hd Hes Hend. cbn [js_map].
  assert (H : cmap (fun it =>
                      let! e := member end_ it in
                      let! eid := member "id" e in
                      Returned (JObj [("id", eid)]))
                   (map (Prisma.load d Prisma.subscribersOnAuthors
                                     (Prisma.Inc [(end_, Prisma.plain)])) es)
              = Returned (map (fun e => JObj [("id", prop (end_ ++ "Id") (JObj e))]) es)).
  { induction es as [|e es IH]; [reflexivity|].
    cbn [map cmap].
    rewrite (end_id d e end_ Hd (Hes e (or_introl eq_refl)) Hend).
    cbn [cbind]. rewrite IH; [reflexivity|].
    intros x Hx. apply Hes. now right. }
  now rewrite H.
Qed.

Lemma has_id_assoc row u :
  prop "id" (JObj row) = JStr u -> assoc "id" row = Some (JStr u).
Proof.
  unfold prop. destruct (assoc "id" row); [congruence|discriminate].
Qed.

Lemma member_obj k ps : member k (JObj ps) = Returned (prop k (JObj ps)).
Proof. reflexivity. Qed.

Lemma prop_app_left k row rest v :
  assoc k row = Some v -> prop k (JObj (row ++ rest)) = v.
Proof. intros H. unfold prop. now rewrite assoc_app, H. Qed.

Lemma prop_app_right k row rest :
  assoc k row = None -> prop k (JObj (row ++ rest)) = prop k (JObj rest).
Proof. intros H. unfold prop. now rewrite assoc_app, H. Qed.

Lemma related_incl d r row : incl (Prisma.related d r row) (Prisma.table d (Prisma.rel_target r)).
Proof. intros x Hx. unfold Prisma.related in Hx. now apply filter_In in Hx. Qed.

Lemma reshape_item d field far back end_ e :
  In (field, far, back, end_) sides ->
  sound_edges d -> scalar_rows d -> In e (Prisma.subscriptions d) ->
  (let item := Prisma.load d Prisma.subscribersOnAuthors
                 (Prisma.Inc [(far, Prisma.Inc [(back, Prisma.Inc [(end_, Prisma.plain)])])]) e in
   let! f := member far item in
   let! id := member "id" f in
   let! f' := member far item in
   let! bs := member back f' in
   let! l := js_map (fun it =>
                       let! e := member end_ it in
                       let! eid := member "id" e in
                       Returned (JObj [("id", eid)])) bs in
   Returned (JObj [("id", id); (back, l)]))
  = Returned (JObj [ ("id", column far e);
                     (back, ids_at end_ (edges_at d far (column far e))) ]).
Proof.
  intros Hside Hd Hrows He.
  pose proof Hd as Hd'. unfold sound_edges in Hd'. rewrite Forall_forall in Hd'.
  destruct (Hd' e He) as (s & c & -> & Hs & Hc).
  destruct (first_user d s Hs) as (rs & rests & Hfs & Hids & Hins).
  destruct (first_user d c Hc) as (rc & restc & Hfc & Hidc & Hinc).
  unfold scalar_rows in Hrows. rewrite Forall_forall in Hrows.
  simpl in Hside.
  destruct Hside as [H|[H|[]]]; inversion H; subst field far back end_; clear H;
    cbv zeta;
    erewrite load_one by reflexivity;
    cbn [Prisma.rel_target Prisma.rel_many];
    [ assert (Hrel : Prisma.related d (Prisma.mkRel Prisma.user false "authorId" "id")
                                    (edge s c) = rc :: restc) by exact Hfc
    | assert (Hrel : Prisma.related d (Prisma.mkRel Prisma.user false "subscriberId" "id")
                                    (edge s c) = rs :: rests) by exact Hfs ];
    rewrite Hrel; cbn [map]; erewrite load_one by reflexivity;
    cbn [Prisma.rel_target Prisma.rel_many];
    rewrite !member_obj, prop_app_right, prop_first by reflexivity;
    cbn [cbind];
    rewrite member_obj;
    [ rewrite (prop_app_left "id" rc _ (JStr c)) by (now apply has_id_assoc)
    | rewrite (prop_app_left "id" rs _ (JStr s)) by (now apply has_id_assoc) ];
    cbn [cbind];
    rewrite member_obj, prop_app_right, prop_first
      by (apply Hrows; [assumption|simpl; now auto]);
    cbn [cbind];
    (rewrite ends_ids; [|exact Hd|apply related_incl|simpl; now auto]);
    cbn [cbind]; unfold ids_at, edges_at, column, Prisma.related;
    cbn [Prisma.rel_target Prisma.rel_here Prisma.rel_there Prisma.table];
    [ rewrite Hidc | rewrite Hids ]; reflexivity.
Qed.

Lemma reshape_edges d field far back end_ es :
  In (field, far, back, end_) sides ->
  sound_edges d -> scalar_rows d -> incl es (Prisma.subscriptions d) ->
  Part000.reshape far back end_
    (JArr (map (Prisma.load d Prisma.subscribersOnAuthors
                  (Prisma.Inc [(far, Prisma.Inc [(back, Prisma.Inc [(end_, Prisma.plain)])])]))
               es))
  = Returned (JArr (map (fun e => JObj [ ("id", column far e);
                                         (back, ids_at end_ (edges_at d far (column far e))) ])
                        es)).
Proof.
  intros Hside Hd Hrows Hes. unfold Part000.reshape. cbn [js_map].
  match goal with
  | |- cbind (cmap ?f ?l) _ = _ =>
      assert (H : cmap f l
                  = Returned (map (fun e => JObj [ ("id", column far e);
                                                   (back, ids_at end_ (edges_at d far (column far e))) ])
                                  es))
  end.
  { induction es as [|e es IH]; [reflexivity|].
    cbn [map cmap].
    pose proof (reshape_item d field far back end_ e Hside Hd Hrows
                  (Hes e (or_introl eq_refl))) as Hitem.
    cbv zeta in Hitem. rewrite Hitem.
    cbn [cbind]. rewrite IH; [reflexivity|].
    intros x Hx. apply Hes. now right. }
  now rewrite H.
Qed.

Lemma load_four d m row n1 s1 n2 s2 n3 s3 n4 s4 r1 r2 r3 r4 :
  Prisma.relation m n1 = Some r1 -> Prisma.relation m n2 = Some r2 ->
  Prisma.relation m n3 = Some r3 -> Prisma.relation m n4 = Some r4 ->
  Prisma.load d m (Prisma.Inc [(n1, s1); (n2, s2); (n3, s3); (n4, s4)]) row
  = JObj (row ++ [ (n1, included d r1 s1 row); (n2, included d r2 s2 row);
                   (n3, included d r3 s3 row); (n4, included d r4 s4 row) ]).
Proof.
  intros H1 H2 H3 H4. cbn [Prisma.load]. now rewrite H1, H2, H3, H4.
Qed.

Lemma column_str d e end_ :
  sound_edges d -> In e (Prisma.subscriptions d) ->
  In end_ ["subscriber"; "author"] ->
  exists u, column end_ e = JStr u /\ has_user d u.
Proof.
  intros Hd He Hend. unfold sound_edges in Hd. rewrite Forall_forall in Hd.
  destruct (Hd e He) as (s & c & -> & Hs & Hc).
  destruct Hend as [<-|[<-|[]]]; [now exists s|now exists c].
Qed.

Lemma edges_at_incl d end_ v : incl (edges_at d end_ v) (Prisma.subscriptions d).
Proof. intros x Hx. unfold edges_at in Hx. now apply filter_In in Hx. Qed.

Lemma transformedEntry_loaded d ra a :
  sound_edges d -> scalar_rows d ->
  In ra (Prisma.users d) -> prop "id" (JObj ra) = JStr a ->
  exists rest,
    Part000.transformedEntry (Prisma.load d Prisma.user Part000.user_include ra)
    = Returned (JObj rest) /\
    forall field far back end_,
      In (field, far, back, end_) sides ->
      prop field (JObj rest) = reshaped d far back end_ (JStr a).
Proof.
  intros Hd Hrows Hin Hid.
  pose proof Hrows as Hrows'. unfold scalar_rows in Hrows'.
  rewrite Forall_forall in Hrows'.
  assert (Hno : forall k, In k relation_fields -> assoc k ra = None)
    by (intros k; now apply Hrows').
  unfold Part000.user_include. cbn [profile_and_posts app].
  erewrite load_four by reflexivity.
  unfold Part000.transformedEntry, Part000.on_entry. cbn [nullish].
  rewrite !member_obj, !prop_app_right by (apply Hno; simpl; now auto).
  cbn [prop assoc String.eqb Ascii.eqb Bool.eqb cbind].
  unfold included. cbn [Prisma.rel_many Prisma.rel_target].
  rewrite (reshape_edges d "userSubscribedTo" "author" "subscribedToUser" "subscriber")
    by (try apply related_incl; try assumption; simpl; now auto).
  rewrite (reshape_edges d "subscribedToUser" "subscriber" "userSubscribedTo" "author")
    by (try apply related_incl; try assumption; simpl; now auto).
  cbn [cbind spread].
  eexists. split; [reflexivity|].
  intros field far back end_ Hside. simpl in Hside.
  destruct Hside as [H|[H|[]]]; inversion H; subst field far back end_; clear H;
    rewrite !assoc_set_prop;
    cbn [String.eqb Ascii.eqb Bool.eqb];
    unfold reshaped, edges_at, column, Prisma.related;
    cbn [Prisma.rel_target Prisma.rel_here Prisma.rel_there Prisma.table];
    fold (prop "id" (JObj ra)); rewrite Hid; reflexivity.
Qed.

Lemma find_user d u :
  has_user d u ->
  exists row,
    find (fun r => strict_eqb (prop "id" (JObj r)) (JStr u)) (Prisma.users d) = Some row /\
    prop "id" (JObj row) = JStr u /\ In row (Prisma.users d).
Proof.
  intros H.
  destruct (find (fun r => strict_eqb (prop "id" (JObj r)) (JStr u)) (Prisma.users d))
    as [row|] eqn:Hfind.
  - exists row. split; [reflexivity|].
    apply find_some in Hfind as [Hin Heq]. split; [now apply strict_eqb_str|exact Hin].
  - exfalso. unfold has_user in H. apply Exists_exists in H as (row & Hin & Hid).
    pose proof (find_none _ _ Hfind row Hin) as Hno. cbv beta in Hno.
    rewrite Hid in Hno. cbn in Hno. now rewrite String.eqb_refl in Hno.
Qed.

Lemma load_truthy d m i row : truthy (Prisma.load d m i row) = true.
Proof. now destruct i. Qed.

Section Echo.

Variable E : Env.
Variable S : Schema.
Variable P : string -> Prop.
Hypothesis Hser : forall u, P u -> serializes_id E u.
Hypothesis Hid :
  field_def "id" (fields S SubscribersOnAuthors) = Some (mkField (Leaf UUID) [] None).
Hypothesis Hback :
  forall back, In back relation_fields ->
    field_def back (fields S SubscribersOnAuthors)
    = Some (mkField (ListOf SubscribersOnAuthors) [] None).

Lemma echo_id x p w u :
  P u -> prop "id" x = JStr u ->
  executeField E S SubscribersOnAuthors x p (Field "id" [] []) w
  = mkDone (Some ("id", JStr u)) [] w.
Proof.
  intros Hu Hx. rewrite executeField_eq. unfold resolveField. rewrite Hid.
  cbn [resolve ftype]. unfold defaultFieldResolver, resolved. rewrite Hx.
  unfold completeValue. cbn [nullish serialize_leaf]. now rewrite (Hser u Hu).
Qed.

Lemma echo_ids p items :
  Forall (id_object P) items ->
  forall i w,
    completeListItems (fun t src q => executeFields E S t src q [Field "id" [] []])
                      SubscribersOnAuthors p items i w
    = mkDone items [] w.
Proof.
  induction 1 as [|x rest (u & Hu & ->) _ IH]; intros i w; [reflexivity|].
  cbn [completeListItems nullish]. cbv zeta. unfold completeObjectValue.
  rewrite executeFields_cons. cbv zeta.
  rewrite (echo_id _ _ _ u Hu) by reflexivity. rewrite executeFields_nil.
  cbn [value errs world keep app]. now rewrite IH.
Qed.

Lemma echo_entries back p items :
  In back relation_fields ->
  Forall (entry_object P back) items ->
  forall i w,
    completeListItems
      (fun t src q => executeFields E S t src q
                        [Field "id" [] []; Field back [] [Field "id" [] []]])
      SubscribersOnAuthors p items i w
    = mkDone items [] w.
Proof.
  intros Hb.
  assert (Hne : String.eqb back "id" = false)
    by (destruct Hb as [<-|[<-|[]]]; reflexivity).
  induction 1 as [|x rest (u & inner & Hu & -> & Hinner) _ IH]; intros i w;
    [reflexivity|].
  cbn [completeListItems nullish]. cbv zeta. unfold completeObjectValue.
  rewrite executeFields_cons. cbv zeta.
  rewrite (echo_id _ _ _ u Hu) by reflexivity. cbn [value errs world].
  rewrite executeFields_cons. cbv zeta. rewrite executeFields_nil.
  rewrite executeField_eq. unfold resolveField. rewrite (Hback back Hb).
  cbn [resolve ftype]. unfold defaultFieldResolver, resolved.
  cbn [prop assoc]. rewrite Hne, String.eqb_refl.
  unfold completeValue. cbn [nullish]. cbv zeta.
  rewrite echo_ids by exact Hinner.
  cbn [value errs world keep app]. now rewrite IH.
Qed.

End Echo.

Lemma reshaped_entries d far back end_ field v :
  In (field, far, back, end_) sides -> sound_edges d ->
  exists items, reshaped d far back end_ v = JArr items /\
                Forall (entry_object (has_user d) back) items.
Proof.
  intros Hside Hd. eexists. split; [reflexivity|].
  assert (Hfar : In far ["subscriber"; "author"])
    by (simpl in Hside; destruct Hside as [H|[H|[]]]; inversion H; simpl; auto).
  assert (Hend : In end_ ["subscriber"; "author"])
    by (simpl in Hside; destruct Hside as [H|[H|[]]]; inversion H; simpl; auto).
  apply Forall_map, Forall_forall. intros e He.
  apply edges_at_incl in He.
  destruct (column_str d e far Hd He Hfar) as (u & Hu & Hhas).
  exists u. eexists. split; [exact Hhas|]. split; [rewrite Hu; reflexivity|].
  apply Forall_map, Forall_forall. intros e' He'.
  apply edges_at_incl in He'.
  destruct (column_str d e' end_ Hd He' Hend) as (u' & Hu' & Hhas').
  exists u'. split; [exact Hhas'|]. now rewrite Hu'.
Qed.

Lemma Query_user_run E S w a field far back end_ :
  In (field, far, back, end_) sides ->
  S = Index.executableSchema E \/ S = Part000.executableSchema E ->
  fails E (reshaping_user a) = false ->
  (forall u, has_user (store w) u -> serializes_id E u) ->
  has_user (store w) a -> sound_edges (store w) -> scalar_rows (store w) ->
  executeFields E S Query JUndefined [] (selections (user_with a field back)) w
  = mkDone [("user", JObj [(field, reshaped (store w) far back end_ (JStr a))])] []
           (mkWorld (store w) (calls w ++ [Read (reshaping_user a)])).
Proof.
  intros Hside HS Hfails Hser Ha Hd Hrows.
  destruct (find_user _ _ Ha) as (ra & Hfind & Hid & Hin).
  destruct (transformedEntry_loaded _ ra a Hd Hrows Hin Hid) as (rest & Ht & Hprop).
  specialize (Hprop _ _ _ _ Hside).
  destruct (reshaped_entries (store w) far back end_ field (JStr a) Hside Hd)
    as (items & Hitems & Hall).
  assert (Hb : In back relation_fields)
    by (simpl in Hside; destruct Hside as [H|[H|[]]]; inversion H; simpl; auto).
  assert (Hf : In field relation_fields)
    by (simpl in Hside; destruct Hside as [H|[H|[]]]; inversion H; simpl; auto).
  assert (Hdef : field_def field (fields S User)
                 = Some (mkField (ListOf SubscribersOnAuthors) [] None))
    by (destruct HS as [->| ->]; destruct Hf as [<-|[<-|[]]]; reflexivity).
  assert (Hroot : field_def "user" (fields S Query)
                  = Some (mkField (Object User) (id_arg UUID) (Some (Part000.Query_user E))))
    by (destruct HS as [->| ->]; reflexivity).
  unfold user_with, by_id. cbn [selections].
  rewrite executeFields_cons. cbv zeta.
  rewrite executeField_eq, executeFields_nil. unfold resolveField.
  rewrite Hroot. cbn [resolve ftype].
  unfold Part000.Query_user, await, prisma_read, lift, resolved.
  cbn [prop assoc String.eqb Ascii.eqb Bool.eqb].
  fold (reshaping_user a). rewrite Hfails.
  unfold reshaping_user, Prisma.answer. cbn [nullish Prisma.table store].
  rewrite Hfind, Ht, load_truthy.
  unfold completeValue. cbn [nullish]. unfold completeObjectValue.
  rewrite executeFields_cons. cbv zeta.
  rewrite executeField_eq, executeFields_nil. unfold resolveField.
  rewrite Hdef. cbn [resolve ftype].
  unfold defaultFieldResolver, resolved. rewrite Hprop, Hitems.
  unfold completeValue. cbn [nullish]. cbv zeta.
  rewrite (echo_entries E S (has_user (store w)) Hser); try assumption.
  - reflexivity.
  - destruct HS as [->| ->]; reflexivity.
  - intros b' Hb'. destruct HS as [->| ->]; destruct Hb' as [<-|[<-|[]]]; reflexivity.
Qed.

(** X10.  [Query.user] of index.ts and part_000, on a store whose
    subscription edges join users that exist (it is the ids of the users of
    the store that [UUIDType] has to serialize as they are, no others): a
    subscription field of the
    user holds one entry for every edge the user is at the near end of, in
    the order of the edges, whose [id] is the id of the user at the far end
    (not of the edge), and whose list back holds the ids at the near end of
    every edge with that far end, the user's own among them.  One call to
    the storage client answers the request. *)
Theorem Query_user_lists_far_ends
    (E : Env) (w : World) (a field far back end_ : string) :
  In (field, far, back, end_) sides ->
  accepts E (ArgScalar UUID) (JStr a) = true ->
  fails E (reshaping_user a) = false ->
  (forall u, has_user (store w) u -> serializes_id E u) ->
  has_user (store w) a -> sound_edges (store w) -> scalar_rows (store w) ->
  let answer :=
    (Sent (mkResult
             (Some (JObj [("user",
                           JObj [(field, reshaped (store w) far back end_ (JStr a))])]))
             []),
     mkWorld (store w) (calls w ++ [Read (reshaping_user a)])) in
  Index.route E (Parsed (user_with a field back)) w = answer /\
  Part000.route E (Parsed (user_with a field back)) w = answer.
Proof.
  intros Hside Hacc Hfails Hser Ha Hd Hrows answer. subst answer.
  assert (Hvalid : forall S,
            S = Index.executableSchema E \/ S = Part000.executableSchema E ->
            validate E S (user_with a field back) = []).
  { intros S HS. simpl in Hside.
    destruct HS as [->| ->];
      destruct Hside as [H|[H|[]]]; inversion H; subst; cbn; now rewrite Hacc. }
  split;
    [ unfold Index.route | unfold Part000.route ];
    unfold handler, graphql;
    rewrite Hvalid by auto;
    unfold execute; cbn [operation user_with by_id mutationType
                         Index.executableSchema Part000.executableSchema root_type];
    [ rewrite (Query_user_run E (Index.executableSchema E) w a field far back end_)
        by auto
    | rewrite (Query_user_run E (Part000.executableSchema E) w a field far back end_)
        by auto ];
    reflexivity.
Qed.

Lemma Query_user_lists_witness :
  Index.route Sample.calm
    (Parsed (user_with "B" "userSubscribedTo" "subscribedToUser"))
    (Sample.fresh Sample.abc)
  = (Sent (mkResult
             (Some (JObj [("user",
                           JObj [("userSubscribedTo",
                                  JArr [JObj [ ("id", JStr "C");
                                               ("subscribedToUser",
                                                JArr [JObj [("id", JStr "B")]]) ]])])]))
             []),
     mkWorld Sample.abc [Read (reshaping_user "B")]).
Proof.
  assert (HA : has_user Sample.abc "A") by (apply Exists_cons_hd; reflexivity).
  assert (HB : has_user Sample.abc "B")
    by (apply Exists_cons_tl, Exists_cons_hd; reflexivity).
  assert (HC : has_user Sample.abc "C")
    by (apply Exists_cons_tl, Exists_cons_tl, Exists_cons_hd; reflexivity).
  refine (proj1 (Query_user_lists_far_ends
                   Sample.calm (Sample.fresh Sample.abc)
                   "B" "userSubscribedTo" "author" "subscribedToUser" "subscriber"
                   _ eq_refl eq_refl (fun u _ => eq_refl) HB _ _)).
  - simpl. auto.
  - repeat constructor.
    + exists "A", "B". auto.
    + exists "B", "C". auto.
  - repeat constructor; intros k [<-|[<-|[]]]; reflexivity.
Defined.

Lemma subscribeTo_witness :
  Part001.route linking (Parsed (subscribe "C" "A")) (Sample.fresh Sample.abc)
  = (Sent (mkResult (Some (JObj [("subscribeTo", JObj [("id", JNull)])])) []),
     mkWorld (Prisma.mkDb [] [] [] (Prisma.users Sample.abc)
                          [edge "A" "B"; edge "B" "C"; edge "C" "A"])
             [Write (subscribe_op "C" "A")]).
Proof.
  apply (subscribeTo_has_no_id linking (Sample.fresh Sample.abc) "C" "A"
           (edge "C" "A")
           (Prisma.mkDb [] [] [] (Prisma.users Sample.abc)
                        [edge "A" "B"; edge "B" "C"; edge "C" "A"])
           eq_refl eq_refl eq_refl eq_refl).
Defined.

(** ** One write for each field of a mutation *)

Section OneWriteEach.

Variable E : Env.
Variable S : Schema.
Hypothesis HS : read_only_schema S.
Hypothesis Hroots :
  forall name d,
    field_def name (fields S Mutation) = Some d ->
    (exists fn, resolve d = Some fn /\ one_call false fn) /\
    (forall t', ftype d = Object t' \/ ftype d = ListOf t' -> t' <> Mutation).

Lemma mutation_field_writes_once src p g w :
  validate_field E S Mutation g = [] ->
  exists c rs,
    calls (world (executeField E S Mutation src p g w)) = calls w ++ c :: rs /\
    is_write c = true /\ forallb is_read rs = true.
Proof.
  intros Hvalid. destruct g as [name args sub].
  rewrite executeField_eq. unfold resolveField. simpl in Hvalid.
  destruct (field_def name (fields S Mutation)) as [d|] eqn:Hd; [|discriminate Hvalid].
  destruct (Hroots _ _ Hd) as [(fn & Hfn & Hone) Hty].
  rewrite Hfn. destruct (Hone src args w) as (c & Hc & Hkind).
  exists c.
  destruct (fn src args w) as [[result|m] w1]; cbn [snd] in Hc; cbn [world].
  - assert (Hr : reads_since w1
                   (world (completeValue E (fun t src q => executeFields E S t src q sub)
                                         (ftype d) (type_name Mutation ++ "." ++ name)
                                         (Key name :: p) result w1))).
    { apply completeValue_reads; [|exact Hty].
      intros t src' q w' Ht. now apply executeFields_reads. }
    destruct Hr as [_ (rs & Hrs & Hall)].
    exists rs. rewrite Hrs, Hc, <- app_assoc. cbn [app].
    split; [reflexivity|]. split; [|exact Hall].
    now destruct c.
  - exists []. split; [exact Hc|]. split; [|reflexivity].
    now destruct c.
Qed.

Lemma mutation_fields_write_once_each src p l :
  validate_fields E S Mutation l = [] ->
  forall w, exists cs,
    calls (world (executeFields E S Mutation src p l w)) = calls w ++ cs /\
    fetches is_write cs = List.length l.
Proof.
  unfold validate_fields.
  induction l as [|g rest IH]; intros Hvalid w.
  - exists []. rewrite executeFields_nil. cbn [world]. now rewrite app_nil_r.
  - simpl in Hvalid. apply app_eq_nil in Hvalid. destruct Hvalid as [Hg Hrest].
    rewrite executeFields_cons. cbv zeta. cbn [world].
    destruct (mutation_field_writes_once src p g w Hg) as (c & rs & Hc & Hw & Hrs).
    destruct (IH Hrest (world (executeField E S Mutation src p g w)))
      as (cs & Hcs & Hn).
    exists (c :: rs ++ cs). split.
    + rewrite Hcs, Hc, <- app_assoc. reflexivity.
    + change (c :: rs ++ cs) with ([c] ++ rs ++ cs).
      rewrite !fetches_app, Hn.
      assert (Hnone : fetches is_write rs = 0).
      { unfold fetches. clear - Hrs.
        induction rs as [|r rs IHrs]; [reflexivity|].
        cbn [forallb] in Hrs. apply andb_prop in Hrs as [Hr Hrs].
        cbn [filter]. destruct r; [|discriminate Hr]. cbn [is_write].
        now apply IHrs. }
      rewrite Hnone. unfold fetches. cbn [filter]. rewrite Hw. reflexivity.
Qed.

End OneWriteEach.

Lemma Part001_mutations_one_call E name d :
  field_def name (fields (Part001.executableSchema E) Mutation) = Some d ->
  (exists fn, resolve d = Some fn /\ one_call false fn) /\
  (forall t', ftype d = Object t' \/ ftype d = ListOf t' -> t' <> Mutation).
Proof.
  intros Hd. each_field Hd;
    (simpl; split;
     [ eexists; split; [reflexivity|];
       intros src args;
       match goal with
       | |- forall w, exists c, calls (snd (?j w)) = _ /\ _ = ?b =>
           change (job_one_call b j)
       end;
       unfold Part001.created, Part001.deleted, Part001.changed,
              Part001.Mutation_subscribeTo, Part001.Mutation_unsubscribeFrom;
       auto 6 with once
     | intros ? [H|H]; inversion H; discriminate ]).
Qed.

(** X11.  In part_001, where the fields under a mutation's result can fetch
    from the store, a valid mutation within the depth limit still writes
    once for each of its root fields: whatever else the request calls the
    storage client for is a read. *)
Theorem one_write_per_mutation_field
    (E : Env) (sels : list Selection) (w : World) :
  collected sels = true ->
  depth sels <= 5 ->
  validate E (Part001.executableSchema E) (mkDocument mutation_ sels) = [] ->
  exists cs,
    calls (snd (Part001.route E (Parsed (mkDocument mutation_ sels)) w)) = calls w ++ cs /\
    fetches is_write cs = List.length sels.
Proof.
  intros _ Hdepth Hvalid.
  rewrite Part001_route_within by exact Hdepth.
  unfold handler, graphql. cbn [snd]. rewrite Hvalid.
  unfold validate in Hvalid. cbn [operation selections mutationType
                                  Part001.executableSchema] in Hvalid.
  unfold execute. cbn [operation selections mutationType Part001.executableSchema
                       root_type snd].
  exact (mutation_fields_write_once_each E (Part001.executableSchema E)
           (Part001_read_only E) (Part001_mutations_one_call E)
           JUndefined [] sels Hvalid w).
Qed.

Lemma one_write_witness :
  exists cs,
    calls (snd (Part001.route linking (Parsed (subscribe "C" "A"))
                              (Sample.fresh Sample.abc))) = [] ++ cs /\
    fetches is_write cs = 1.
Proof.
  apply (one_write_per_mutation_field linking (selections (subscribe "C" "A"))
           (Sample.fresh Sample.abc) eq_refl).
  - vm_compute. lia.
  - reflexivity.
Defined.
